(** * Symbolic graph core of mxnet (src/symbol/symbol.cc)

    A shallow embedding of [Symbol::Node], [Symbol::DFSVisit],
    [KeywordArgumentMismatch], [Symbol::FindDuplicateArgs], [Symbol::Copy],
    [Symbol::ListArguments], [Symbol::ListReturns], both overloads of
    [Symbol::Compose] and the node construction of [Symbol::Grad].

    Nodes live in a heap indexed by addresses; a [std::shared_ptr<Node>] is
    an address, so two handles that hold the same address alias the same
    node and a write through one is seen through the other. *)

From stdpp Require Import gmap strings list fin_maps sets.



(** ** Data model *)

(** Modelled from the spec: [OperatorProperty] is declared in a header that
    is not part of src/.  Section 6 of the specification lists its contract:
    [Copy()], [TypeString()], [ListArguments()], [ListReturns()] and
    [NumVisibleReturns()].  An operator is owned exclusively by its node
    ([std::unique_ptr]), so it is modelled as the value of these
    observations. *)
Record OperatorProperty := mkOp {
  op_TypeString : string;
  op_ListArguments : list string;
  op_ListReturns : list string;
  op_NumVisibleReturns : nat
}.

(** Modelled from the spec: [OperatorProperty::Copy()] returns an
    independent clone. *)
Definition op_Copy (o : OperatorProperty) : OperatorProperty := o.

(** Addresses of nodes ([Node*], [std::shared_ptr<Node>]). *)
Abbreviation ptr := nat (only parsing).

(** Modelled from the spec: [DataEntry] is declared in the header; it is the
    pair of a shared reference to a node and an output index. *)
Record DataEntry := mkEntry {
  source : ptr;
  index : nat
}.

(** [struct Symbol::Node], lines 23-48. *)
Record Node := mkNode {
  backward_source_node : option ptr;
  op : option OperatorProperty;
  name : string;
  inputs : list DataEntry
}.

(** Modelled from the spec: the class [Symbol] is declared in the header; its
    only field is the ordered list of heads. *)
Record Symbol := mkSymbol {
  heads_ : list DataEntry
}.

Abbreviation heap := (gmap nat Node) (only parsing).

#[global] Instance OperatorProperty_eq_dec : EqDecision OperatorProperty.
Proof. solve_decision. Defined.
#[global] Instance DataEntry_eq_dec : EqDecision DataEntry.
Proof. solve_decision. Defined.
#[global] Instance Node_eq_dec : EqDecision Node.
Proof. solve_decision. Defined.
#[global] Instance Symbol_eq_dec : EqDecision Symbol.
Proof. solve_decision. Defined.

(** [Node::is_atomic], line 41. *)
Definition node_is_atomic (n : Node) : bool :=
  Nat.eqb (length (inputs n)) 0 && bool_decide (is_Some (op n)).

(** [Node::is_variable], line 45. *)
Definition node_is_variable (n : Node) : bool :=
  bool_decide (op n = None) && bool_decide (backward_source_node n = None).

Definition set_name (nm : string) (n : Node) : Node :=
  mkNode (backward_source_node n) (op n) nm (inputs n).

Definition set_inputs (ins : list DataEntry) (n : Node) : Node :=
  mkNode (backward_source_node n) (op n) (name n) ins.

(** Modelled from the spec: [NumReturns()] is defined in the header; the
    specification gives it as the number of heads. *)
Definition NumReturns (s : Symbol) : nat := length (heads_ s).

(** [Symbol::is_atomic], line 51.  The conjunction short-circuits, so the head
    is only dereferenced when there is exactly one.  A head that points
    outside the heap cannot be dereferenced; it is reported as not atomic and
    every caller then fails on the same address. *)
Definition is_atomic (h : heap) (s : Symbol) : bool :=
  match heads_ s with
  | [e] => match h !! source e with
           | Some n => node_is_atomic n
           | None => false
           end
  | _ => false
  end.

(** [make_shared<Node>(...)]: a node at an address that is not in use. *)
Definition fresh_ptr (h : heap) : ptr := fresh (dom h).

Definition alloc (h : heap) (n : Node) : heap * ptr :=
  (<[fresh_ptr h := n]> h, fresh_ptr h).

(** ** Traversal *)

(** The guarded push of lines 60-66 and 71-77: an address that is not yet in
    [visited] is pushed and marked.  The C++ stack is a vector whose back is
    the top; here the top is the head of the list. *)
Fixpoint push_new (srcs : list ptr) (stack : list ptr) (visited : gset ptr)
  : list ptr * gset ptr :=
  match srcs with
  | [] => (stack, visited)
  | p :: rest =>
      if decide (p ∈ visited) then push_new rest stack visited
      else push_new rest (p :: stack) ({[p]} ∪ visited)
  end.

(** The loop of lines 67-78.  The visitor gets the address and the node
    behind it; no visitor of this file writes to a node while the traversal
    runs.  [None] is returned when an address outside the heap is
    dereferenced or when [fuel] iterations were not enough. *)
Fixpoint dfs_loop {S : Type} (fvisit : ptr → Node → S → S) (h : heap)
    (fuel : nat) (stack : list ptr) (visited : gset ptr) (st : S) : option S :=
  match stack with
  | [] => Some st
  | back :: stack =>
      match fuel with
      | 0 => None
      | S fuel =>
          match h !! back with
          | None => None
          | Some n =>
              let '(stack', visited') :=
                push_new (reverse (source <$> inputs n)) stack visited in
              dfs_loop fvisit h fuel stack' visited' (fvisit back n st)
          end
      end
  end.

(** [Symbol::DFSVisit], lines 55-79.  Every iteration pops a different node
    of the heap, so [size h] iterations are enough. *)
Definition DFSVisit {S : Type} (h : heap) (s : Symbol)
    (fvisit : ptr → Node → S → S) (st : S) : option S :=
  let '(stack, visited) := push_new (source <$> heads_ s) [] ∅ in
  dfs_loop fvisit h (size h) stack visited st.

(** The order in which the visitor is called. *)
Definition visit_order (h : heap) (s : Symbol) : option (list ptr) :=
  DFSVisit h s (λ p _ acc, acc ++ [p]) [].

(** ** Failures *)

(** The failure taxonomy of section 7 of the specification, one constructor
    per [CHECK] or [LOG(FATAL)] of the source. *)
Inductive error :=
  | NotSingleReturn
      (* CHECK_EQ(NumReturns(), 1), lines 228 and 286: NotComposable *)
  | VariableNotComposable
      (* CHECK(!is_variable()), lines 229 and 287: NotComposable *)
  | UnsupportedTupleArgument (i : nat)
      (* line 232: "Argument i is a tuple, scalar is required" *)
  | UnsupportedTupleKeyword (key : string)
      (* line 290: "Keyword Argument key is a tuple, scalar is required" *)
  | ArityMismatch (required provided : nat)
      (* lines 240 and 274 *)
  | DuplicateArgumentName (key : string) (count : nat)
      (* line 325 *)
  | MaxDupNotOne (max_dup : nat)
      (* line 331 *)
  | UnmatchedKeyword (src key : string) (candidates : list string)
      (* line 95 *).

(** How a call ends: it returns, it fails a check, or it runs into behaviour
    that C++ leaves undefined (a null or dangling dereference, an index out
    of range).  A write through a raw pointer into a node that the symbol no
    longer holds counts as the last: the node exists only if another owner
    holds it, and the heap does not record owners. *)
Inductive outcome :=
  | Done
  | Fail (e : error)
  | Undefined.

#[global] Instance error_eq_dec : EqDecision error.
Proof. solve_decision. Defined.
#[global] Instance outcome_eq_dec : EqDecision outcome.
Proof. solve_decision. Defined.

(** [KeywordArgumentMismatch], lines 83-100.  [LOG(FATAL)] ends the call at
    the first key of [user_args] that is not a candidate; the streamed text is
    [src], that key and the numbered candidate list. *)
Definition KeywordArgumentMismatch (src : string)
    (user_args args : list string) : outcome :=
  match List.find (λ key, negb (bool_decide (key ∈ args))) user_args with
  | Some key => Fail (UnmatchedKeyword src key args)
  | None => Done
  end.

(** The keys a failure names as not found. *)
Definition reported_keys (o : outcome) : list string :=
  match o with
  | Fail (UnmatchedKeyword _ key _) => [key]
  | _ => []
  end.

(** The candidate list a failure carries. *)
Definition reported_candidates (o : outcome) : list string :=
  match o with
  | Fail (UnmatchedKeyword _ _ candidates) => candidates
  | _ => []
  end.

(** ** Introspection *)

(** [Symbol::FindDuplicateArgs], lines 102-117. *)
Definition FindDuplicateArgs_visit (p : ptr) (n : Node)
    (st : gmap string nat * nat) : gmap string nat * nat :=
  let '(out, max_dup) := st in
  if node_is_variable n then
    match out !! name n with
    | None => (<[name n := 1]> out, max_dup)
    | Some c => (<[name n := S c]> out, max_dup `max` S c)
    end
  else (out, max_dup).

Definition FindDuplicateArgs (h : heap) (s : Symbol)
  : option (gmap string nat * nat) :=
  DFSVisit h s FindDuplicateArgs_visit (∅, 1).

(** [Symbol::ListArguments], lines 181-193. *)
Definition ListArguments_visit (p : ptr) (n : Node) (ret : list string)
  : list string :=
  if node_is_variable n then ret ++ [name n] else ret.

Definition ListArguments (h : heap) (s : Symbol) : option (list string) :=
  if is_atomic h s then
    e ← heads_ s !! 0;
    n ← h !! source e;
    o ← op n;
    Some (op_ListArguments o)
  else DFSVisit h s ListArguments_visit [].

(** [Symbol::ListReturns], lines 195-212.  [head.source->op->ListReturns()]
    dereferences the operator of the head node itself; a missing operator or
    an index past the end of the returned vector is undefined behaviour. *)
Definition ListReturns_head (h : heap) (e : DataEntry) : option string :=
  n ← h !! source e;
  if node_is_variable n then Some (name n)
  else
    o ← op n;
    rname ← op_ListReturns o !! index e;
    if Nat.eqb (String.length (name n)) 0 then Some rname
    else Some (name n +:+ "_" +:+ rname).

Definition ListReturns (h : heap) (s : Symbol) : option (list string) :=
  mapM (ListReturns_head h) (heads_ s).

(** [Symbol::operator[]], lines 214-224; [None] when the bounds check of
    line 216 fails. *)
Definition Index (s : Symbol) (i : nat) : option Symbol :=
  if decide (i < NumReturns s) then
    if decide (NumReturns s = 1) then Some s
    else (λ e, mkSymbol [e]) <$> heads_ s !! i
  else None.

(** ** Construction *)

(** [Symbol::CreateVariable], lines 478-482. *)
Definition CreateVariable (h : heap) (nm : string) : heap * Symbol :=
  let '(h', p) := alloc h (mkNode None None nm []) in
  (h', mkSymbol [mkEntry p 0]).

(** [Symbol::Create], lines 459-468. *)
Definition Create (h : heap) (o : OperatorProperty) : heap * Symbol :=
  let '(h', p) := alloc h (mkNode None (Some o) EmptyString []) in
  (h', mkSymbol (mkEntry p <$> seq 0 (op_NumVisibleReturns o))).

(** [Symbol::CreateGroup], lines 470-476. *)
Definition CreateGroup (symbols : list Symbol) : Symbol :=
  mkSymbol (concat (heads_ <$> symbols)).

(** ** Copy *)

(** The visitor of lines 123-129: one new node per visited node, with the
    operator cloned and the name copied; the constructor leaves
    [backward_source_node] and [inputs] empty. *)
Definition Copy_visit (p : ptr) (n : Node) (st : gmap nat Node * gmap nat nat)
  : gmap nat Node * gmap nat nat :=
  let '(hn, old_new) := st in
  let '(hn', q) :=
    match op n with
    | None => alloc hn (mkNode None None (name n) [])
    | Some o => alloc hn (mkNode None (Some (op_Copy o)) (name n) [])
    end in
  (hn', <[p := q]> old_new).

(** [DataEntry(old_new[ptr], n.index)], lines 134 and 140.  [operator[]] on
    a missing key would insert into the map that is being iterated; the
    model stops there. *)
Definition remap (old_new : gmap nat nat) (e : DataEntry) : option DataEntry :=
  (λ q, mkEntry q (index e)) <$> old_new !! source e.

(** One round of the loop of lines 131-136. *)
Definition Copy_connect (old_new : gmap nat nat) (st : option (gmap nat Node))
    (kv : nat * nat) : option (gmap nat Node) :=
  hn ← st;
  n ← hn !! kv.1;
  ins ← mapM (remap old_new) (inputs n);
  Some (alter (λ m, set_inputs (inputs m ++ ins) m) kv.2 hn).

(** [Symbol::Copy], lines 120-143.  The loop over [old_new] runs in the
    order of the map's own enumeration. *)
Definition Copy (h : heap) (s : Symbol) : option (gmap nat Node * Symbol) :=
  '(hn, old_new) ← DFSVisit h s Copy_visit (h, ∅);
  hn' ← foldl (Copy_connect old_new) (Some hn) (map_to_list old_new);
  hs ← mapM (remap old_new) (heads_ s);
  Some (hn', mkSymbol hs).

(** ** Composition *)

(** [e->source->is_variable()], lines 258 and 340.  An edge whose source is
    outside the heap is skipped here; the traversal fails on that address
    when it pops it. *)
Definition is_variable_at (h : heap) (p : ptr) : bool :=
  match h !! p with
  | Some n => node_is_variable n
  | None => false
  end.

(** The nodes that the symbol [s] keeps alive: those that its heads reach.
    The heap does not record who else owns a node, so of any other node the
    model cannot tell whether it still exists once an edge to it was
    overwritten. *)
Definition holds (h : heap) (s : Symbol) (p : ptr) : bool :=
  match DFSVisit h s (λ q _ (acc : gset nat), {[q]} ∪ acc) ∅ with
  | Some acc => bool_decide (p ∈ acc)
  | None => false
  end.

(** The heap with [d] at position [i] of the inputs of node [p]. *)
Definition set_input (h : heap) (p : ptr) (i : nat) (d : DataEntry)
  : gmap nat Node :=
  alter (λ n, set_inputs (<[i := d]> (inputs n)) n) p h.

(** [*(kv.first) = *(kv.second)] for the edge [i] of node [p].  [kv.first]
    is a raw pointer into the input vector of [p], and the assignment
    releases the node that the edge held, which destroys that node, its
    input vector and in turn what only it held, unless another owner
    remains.  The write is defined when [p] is still alive; the model goes
    on when the symbol holds [p] and stops otherwise. *)
Definition write_input (h : heap) (s : Symbol) (p : ptr) (i : nat)
    (d : DataEntry) : option (gmap nat Node) :=
  if holds h s p then Some (set_input h p i d) else None.

(** The replacement loops of lines 278-280 and 356-358 of the symbol [s].  A
    plan entry is the edge to overwrite and the entry to copy; a null or
    dangling target cannot be copied, and an edge of a node that an earlier
    assignment may have destroyed cannot be written. *)
Fixpoint run_plan (h : heap) (s : Symbol)
    (plan : list (nat * nat * option DataEntry)) : option (gmap nat Node) :=
  match plan with
  | [] => Some h
  | (p, i, Some d) :: rest => h' ← write_input h s p i d; run_plan h' s rest
  | (_, _, None) :: _ => None
  end.

(** [&(args[k].heads_[0])], line 263. *)
Definition arg_head (args : list Symbol) (k : nat) : option DataEntry :=
  a ← args !! k; heads_ a !! 0.

(** The body of the loop of lines 256-272 for the edge [i] of node [p]. *)
Definition Compose_edge (h : heap) (args : list Symbol) (p : ptr)
    (st : nat * gmap nat (option DataEntry)
          * list (nat * nat * option DataEntry))
    (ie : nat * DataEntry)
  : nat * gmap nat (option DataEntry) * list (nat * nat * option DataEntry) :=
  let '(arg_counter, replace_map, replace_plan) := st in
  let '(i, e) := ie in
  if is_variable_at h (source e) then
    match replace_map !! source e with
    | None =>
        if decide (arg_counter < length args) then
          let target := arg_head args arg_counter in
          (S arg_counter, <[source e := target]> replace_map,
           replace_plan ++ [(p, i, target)])
        else (S arg_counter, replace_map, replace_plan ++ [(p, i, None)])
    | Some target => (arg_counter, replace_map, replace_plan ++ [(p, i, target)])
    end
  else st.

(** The visitor of lines 253-273. *)
Definition Compose_visit (h : heap) (args : list Symbol) (p : ptr) (n : Node)
    (st : nat * gmap nat (option DataEntry)
          * list (nat * nat * option DataEntry))
  : nat * gmap nat (option DataEntry) * list (nat * nat * option DataEntry) :=
  foldl (Compose_edge h args p) st (imap pair (inputs n)).

(** Positional [Symbol::Compose], lines 226-282.  The result is the heap as
    the call leaves it and how the call ended.  The atomic branch resizes the
    empty input vector and assigns every slot; the model writes the assigned
    vector in one step. *)
Definition Compose (h : heap) (s : Symbol) (args : list Symbol) (nm : string)
  : gmap nat Node * outcome :=
  if decide (NumReturns s = 1) then
    match heads_ s !! 0 with
    | None => (h, Undefined)
    | Some hd =>
      match h !! source hd with
      | None => (h, Undefined)
      | Some n0 =>
        if node_is_variable n0 then (h, Fail VariableNotComposable)
        else
          let h1 := <[source hd := set_name nm n0]> h in
          match list_find (λ a, NumReturns a = 1) args with
          | Some (i, _) => (h1, Fail (UnsupportedTupleArgument i))
          | None =>
            if is_atomic h1 s then
              match op n0 with
              | None => (h1, Undefined)
              | Some o =>
                let req_args := op_ListArguments o in
                if decide (length args = length req_args) then
                  match mapM (λ a, heads_ a !! 0) args with
                  | None => (h1, Undefined)
                  | Some ins =>
                      (alter (set_inputs ins) (source hd) h1, Done)
                  end
                else (h1, Fail (ArityMismatch (length req_args) (length args)))
              end
            else
              match DFSVisit h1 s (Compose_visit h1 args) (0, ∅, []) with
              | None => (h1, Undefined)
              | Some (arg_counter, _, replace_plan) =>
                if decide (length args = arg_counter) then
                  match run_plan h1 s replace_plan with
                  | None => (h1, Undefined)
                  | Some h2 => (h2, Done)
                  end
                else (h1, Fail (ArityMismatch arg_counter (length args)))
              end
          end
      end
    end
  else (h, Fail NotSingleReturn).

(** [kwargs.find(key)] on the keyword map, kept as an association list in
    the order in which the map enumerates its entries. *)
Definition kwargs_find (kwargs : list (string * Symbol)) (key : string)
  : option Symbol :=
  snd <$> List.find (λ kv, bool_decide (kv.1 = key)) kwargs.

(** The naming of lines 306-312. *)
Definition placeholder_name (nm req : string) : string :=
  if Nat.eqb (String.length nm) 0 then req else nm +:+ "_" +:+ req.

(** The body of the loop of lines 298-314 for one required argument: the slot
    is appended to the inputs assigned so far. *)
Definition Compose_atomic_slot (kwargs : list (string * Symbol)) (nm : string)
    (st : option (gmap nat Node * list DataEntry * nat)) (req : string)
  : option (gmap nat Node * list DataEntry * nat) :=
  '(h, ins, nmatched) ← st;
  match kwargs_find kwargs req with
  | Some a =>
      d ← heads_ a !! 0;
      Some (h, ins ++ [d], S nmatched)
  | None =>
      let '(h', p) := alloc h (mkNode None None (placeholder_name nm req) []) in
      Some (h', ins ++ [mkEntry p 0], nmatched)
  end.

(** Lines 323-331: the first entry of [dup_args], in the map's enumeration,
    whose count is not 1 fails the check.  The order in which
    [std::unordered_map] enumerates its entries is left open by the
    language; the model takes the enumeration of its own map, so when
    several names are duplicated the entry it reports is one of those that
    the code may report, not necessarily the same one. *)
Definition check_dup_args (dup_args : gmap string nat) (max_dup : nat)
  : option error :=
  let first_bad :=
    if decide (1 < max_dup) then
      List.find (λ kv, negb (Nat.eqb kv.2 1)) (map_to_list dup_args)
    else None in
  match first_bad with
  | Some (key, count) => Some (DuplicateArgumentName key count)
  | None => if decide (max_dup = 1) then None else Some (MaxDupNotOne max_dup)
  end.

(** The body of the loop of lines 338-353 for the edge [i] of node [p]. *)
Definition Compose_kw_edge (h : heap) (kwargs : list (string * Symbol))
    (p : ptr) (st : nat * gset nat * list (nat * nat * option DataEntry))
    (ie : nat * DataEntry)
  : nat * gset nat * list (nat * nat * option DataEntry) :=
  let '(nmatched, visited, replace_plan) := st in
  let '(i, e) := ie in
  match h !! source e with
  | Some m =>
    if node_is_variable m then
      match kwargs_find kwargs (name m) with
      | Some a =>
          let target := heads_ a !! 0 in
          if decide (source e ∈ visited) then
            (nmatched, visited, replace_plan ++ [(p, i, target)])
          else
            (S nmatched, {[source e]} ∪ visited,
             replace_plan ++ [(p, i, target)])
      | None => st
      end
    else st
  | None => st
  end.

(** The visitor of lines 335-354. *)
Definition Compose_kw_visit (h : heap) (kwargs : list (string * Symbol))
    (p : ptr) (n : Node)
    (st : nat * gset nat * list (nat * nat * option DataEntry))
  : nat * gset nat * list (nat * nat * option DataEntry) :=
  foldl (Compose_kw_edge h kwargs p) st (imap pair (inputs n)).

(** Lines 361-366: the report when not every key was matched. *)
Definition Compose_kw_report (h : heap) (s : Symbol)
    (kwargs : list (string * Symbol)) (nmatched : nat) : outcome :=
  if decide (nmatched = length kwargs) then Done
  else
    match ListArguments h s with
    | None => Undefined
    | Some candidates =>
        KeywordArgumentMismatch "Symbol.Compose" (fst <$> kwargs) candidates
    end.

(** Keyword [Symbol::Compose], lines 284-367. *)
Definition Compose_kwargs (h : heap) (s : Symbol)
    (kwargs : list (string * Symbol)) (nm : string) : gmap nat Node * outcome :=
  if decide (NumReturns s = 1) then
    match heads_ s !! 0 with
    | None => (h, Undefined)
    | Some hd =>
      match h !! source hd with
      | None => (h, Undefined)
      | Some n0 =>
        if node_is_variable n0 then (h, Fail VariableNotComposable)
        else
          let h1 := <[source hd := set_name nm n0]> h in
          match List.find (λ kv, negb (Nat.eqb (NumReturns kv.2) 1)) kwargs with
          | Some (key, _) => (h1, Fail (UnsupportedTupleKeyword key))
          | None =>
            if is_atomic h1 s then
              match op n0 with
              | None => (h1, Undefined)
              | Some o =>
                match foldl (Compose_atomic_slot kwargs nm) (Some (h1, [], 0))
                        (op_ListArguments o) with
                | None => (h1, Undefined)
                | Some (h2, ins, nmatched) =>
                    let h3 :=
                      if decide (nmatched = length kwargs)
                      then alter (set_inputs ins) (source hd) h2
                      else alter (set_inputs []) (source hd) h2 in
                    (h3, Compose_kw_report h3 s kwargs nmatched)
                end
              end
            else
              match FindDuplicateArgs h1 s with
              | None => (h1, Undefined)
              | Some (dup_args, max_dup) =>
                match check_dup_args dup_args max_dup with
                | Some e => (h1, Fail e)
                | None =>
                  match DFSVisit h1 s (Compose_kw_visit h1 kwargs) (0, ∅, []) with
                  | None => (h1, Undefined)
                  | Some (nmatched, _, replace_plan) =>
                    if decide (nmatched = length kwargs) then
                      match run_plan h1 s replace_plan with
                      | None => (h1, Undefined)
                      | Some h2 => (h2, Done)
                      end
                    else (h1, Compose_kw_report h1 s kwargs nmatched)
                  end
                end
              end
          end
      end
    end
  else (h, Fail NotSingleReturn).

(** Positional [Symbol::operator()], lines 369-374. *)
Definition Apply (h : heap) (s : Symbol) (args : list Symbol) (nm : string)
  : option (gmap nat Node * Symbol * outcome) :=
  '(h', s') ← Copy h s;
  let '(h'', o) := Compose h' s' args nm in
  Some (h'', s', o).

(** Keyword [Symbol::operator()], lines 376-381. *)
Definition Apply_kwargs (h : heap) (s : Symbol)
    (kwargs : list (string * Symbol)) (nm : string)
  : option (gmap nat Node * Symbol * outcome) :=
  '(h', s') ← Copy h s;
  let '(h'', o) := Compose_kwargs h' s' kwargs nm in
  Some (h'', s', o).

(** ** Gradient nodes *)

(** Modelled from the spec: [StaticGraph::Node] is declared in a header that
    is not part of src/; the specification describes it as a name, a
    backward-source id (-1 if none) and input edges given by node id and
    output index. *)
Record StaticNode := mkStaticNode {
  sn_name : string;
  sn_backward_source_id : Z;
  sn_inputs : list (nat * nat)
}.

(** One round of the loop of lines 394-406 of [Symbol::Grad]: a node built by
    the default constructor (no operator), named after the static node,
    linked to its backward source and to its inputs through [shared_node].
    An id outside [shared_node] is undefined behaviour. *)
Definition Grad_attach (st : option (gmap nat Node * list nat))
    (it : StaticNode) : option (gmap nat Node * list nat) :=
  '(h, shared_node) ← st;
  bsn ← (if decide (sn_backward_source_id it = (-1)%Z) then Some None
         else if decide (0 ≤ sn_backward_source_id it)%Z
         then Some <$> shared_node !! Z.to_nat (sn_backward_source_id it)
         else None);
  let '(h', p) := alloc h (mkNode bsn None (sn_name it) []) in
  let shared_node' := shared_node ++ [p] in
  ins ← mapM (λ e : nat * nat, (λ q, mkEntry q e.2) <$> shared_node' !! e.1)
             (sn_inputs it);
  Some (alter (set_inputs ins) p h', shared_node').

(** ** Notions used to state the properties *)

(** The heap is closed when every input edge of every node points to a node of
    the heap: a [std::shared_ptr] that is not null keeps its node alive. *)
Definition closed (h : heap) : Prop :=
  ∀ p n e, h !! p = Some n → e ∈ inputs n → is_Some (h !! source e).

(** The heads of a symbol point into the heap. *)
Definition heads_in (h : heap) (s : Symbol) : Prop :=
  ∀ e, e ∈ heads_ s → is_Some (h !! source e).

(** The nodes reachable from the heads by following input edges. *)
Inductive reachable (h : heap) (s : Symbol) : nat → Prop :=
  | reachable_head e :
      e ∈ heads_ s → reachable h s (source e)
  | reachable_input p n e :
      reachable h s p → h !! p = Some n → e ∈ inputs n →
      reachable h s (source e).

(** The addresses that [push_new srcs _ visited] pushes, in the order of the
    pushes. *)
Fixpoint new_of (srcs : list nat) (visited : gset nat) : list nat :=
  match srcs with
  | [] => []
  | p :: rest =>
      if decide (p ∈ visited) then new_of rest visited
      else p :: new_of rest ({[p]} ∪ visited)
  end.

(** The inputs that a node discovers when it is popped: those not marked
    yet, from left to right, an input that occurs several times standing at
    its last occurrence. *)
Definition discovered (srcs : list nat) (visited : gset nat) : list nat :=
  filter (λ p, p ∉ visited) (remove_dups srcs).

(** The sequence of nodes on which [dfs_loop] calls its visitor. *)
Fixpoint dfs_list (h : heap) (fuel : nat) (stack : list nat)
    (visited : gset nat) : option (list (nat * Node)) :=
  match stack with
  | [] => Some []
  | back :: stack =>
      match fuel with
      | 0 => None
      | S fuel =>
          match h !! back with
          | None => None
          | Some n =>
              let '(stack', visited') :=
                push_new (reverse (source <$> inputs n)) stack visited in
              ((back, n) ::.) <$> dfs_list h fuel stack' visited'
          end
      end
  end.

(** The sequence of nodes on which [DFSVisit] calls its visitor. *)
Definition DFS_trace (h : heap) (s : Symbol) : option (list (nat * Node)) :=
  let '(stack, visited) := push_new (source <$> heads_ s) [] ∅ in
  dfs_list h (size h) stack visited.

(** Running a visitor over a sequence of nodes. *)
Definition run_visitor {S : Type} (fvisit : nat → Node → S → S) (st : S)
    (tr : list (nat * Node)) : S :=
  foldl (λ st pn, fvisit pn.1 pn.2 st) st tr.

(** Everything marked before a node is popped: the heads and the inputs of
    the nodes visited so far. *)
Definition marked_before (s : Symbol) (pre : list (nat * Node)) : gset nat :=
  list_to_set (source <$> heads_ s)
  ∪ list_to_set (pre ≫= λ pn, source <$> inputs pn.2).

(** Where the loop of [DFSVisit] stands: [done_] are the nodes already
    popped; every marked node is popped or on the stack, the stack holds no
    node twice and no popped node, and everything on it is in the heap. *)
Definition loop_inv (h : heap) (done_ : gset nat) (stack : list nat)
    (visited : gset nat) : Prop :=
  visited = done_ ∪ list_to_set stack ∧
  NoDup stack ∧
  (∀ p, p ∈ stack → p ∉ done_) ∧
  (∀ p, p ∈ stack → is_Some (h !! p)) ∧
  done_ ⊆ dom h.

(** The inputs that are not marked yet, in the order in which a scan from
    left to right meets them: an input that occurs several times stands at
    its first occurrence. *)
Definition met_left_to_right (srcs : list nat) (visited : gset nat)
  : list nat :=
  filter (λ p, p ∉ visited) (reverse (remove_dups (reverse srcs))).

(** Executable checks of [closed] and [heads_in], for concrete heaps. *)
Definition closedb (h : heap) : bool :=
  bool_decide
    (map_Forall (λ _ n, Forall (λ e, is_Some (h !! source e)) (inputs n)) h).

Definition heads_inb (h : heap) (s : Symbol) : bool :=
  bool_decide (Forall (λ e, is_Some (h !! source e)) (heads_ s)).

(** How many of the visited nodes are variables named [key]. *)
Definition var_count (key : string) (tr : list (nat * Node)) : nat :=
  length (filter (λ pn, node_is_variable pn.2 = true ∧ name pn.2 = key) tr).

(** Two heaps have the same edges when they hold nodes at the same addresses
    and the nodes at each address have the same inputs. *)
Definition same_edges (h h' : heap) : Prop :=
  ∀ p, inputs <$> h !! p = inputs <$> h' !! p.

(** What the loop of lines 298-314 leaves in the slot of the required
    argument [req]: the head of the supplied symbol, or a new variable named
    by [placeholder_name] at an address that was not in use. *)
Definition slot_bound (kwargs : list (string * Symbol)) (nm : string)
    (h h' : heap) (req : string) (d : DataEntry) : Prop :=
  match kwargs_find kwargs req with
  | Some a => heads_ a !! 0 = Some d
  | None =>
      index d = 0 ∧ h !! source d = None ∧
      h' !! source d = Some (mkNode None None (placeholder_name nm req) [])
  end.

(** The number of required arguments that the keyword map supplies: the
    final value of [nmatched] in the atomic branch. *)
Definition matched_slots (kwargs : list (string * Symbol))
    (reqs : list string) : nat :=
  length (filter (λ req, is_Some (kwargs_find kwargs req)) reqs).

(** The names that [ListArguments] collects over a sequence of nodes. *)
Definition arg_names (tr : list (nat * Node)) : list string :=
  (λ pn, name pn.2) <$> filter (λ pn, node_is_variable pn.2 = true) tr.

(** Everything marked while a sequence of nodes is visited. *)
Definition marks (visited : gset nat) (tr : list (nat * Node)) : gset nat :=
  visited ∪ list_to_set (tr ≫= λ pn, source <$> inputs pn.2).

(** What holds of the heap [hn] and the map [old_new] while [Copy] runs on
    the heap [h]: the nodes of [h] are untouched; [old_new] sends a node of
    [h] to a node of [hn] at an address that [h] does not use, with the same
    name and the cloned operator; and a node at such an address has no
    backward source. *)
Definition copy_inv (h hn : heap) (old_new : gmap nat nat) : Prop :=
  h ⊆ hn ∧
  (∀ p q, old_new !! p = Some q →
     h !! q = None ∧
     ∃ n m, h !! p = Some n ∧ hn !! q = Some m ∧
       name m = name n ∧ op m = op_Copy <$> op n) ∧
  (∀ q n, hn !! q = Some n → h !! q = None → backward_source_node n = None).

(** [(h2, s2)] has the structure of [(h1, s1)] under the renaming [ρ] of
    addresses: [ρ] tells the reachable nodes of [(h1, s1)] apart, the heads
    correspond, and the node at the image of a reachable address has the
    images of the inputs, in the same order. *)
Definition same_structure (ρ : nat → nat) (h1 : heap) (s1 : Symbol)
    (h2 : heap) (s2 : Symbol) : Prop :=
  (∀ p q, reachable h1 s1 p → reachable h1 s1 q → ρ p = ρ q → p = q) ∧
  source <$> heads_ s2 = ρ <$> (source <$> heads_ s1) ∧
  (∀ p n1, reachable h1 s1 p → h1 !! p = Some n1 →
     ∃ n2, h2 !! ρ p = Some n2 ∧
       source <$> inputs n2 = ρ <$> (source <$> inputs n1)).

(** The claim as written: the failure names every supplied key that is not a
    candidate, and carries the candidate list. *)
Definition reports_all_unmatched (user_args args : list string) (o : outcome)
  : Prop :=
  reported_keys o = filter (λ k, k ∉ args) user_args ∧
  reported_candidates o = args.

(** ** The static graph *)

(** Modelled from the spec: [StaticGraph] is declared in a header that is not
    part of src/.  The specification describes it as a node array addressed
    by id, each node with the operator, the name, the backward-source id and
    the id-based input edges of [StaticNode], together with the ids of the
    argument nodes and the id-based heads.  Ids are [uint32_t]; they are
    natural numbers here, which is what the casts of lines 492 and 509 yield
    on a graph of fewer than 2^31 nodes. *)
Record StaticGraphNode := mkStaticGraphNode {
  sg_op : option OperatorProperty;
  sg_node : StaticNode
}.

Record StaticGraph := mkStaticGraph {
  nodes : list StaticGraphNode;
  arg_nodes : list nat;
  heads : list (nat * nat)
}.

(** [node_index[key]], lines 510, 520 and 528: [operator[]] on a key that the
    map does not hold inserts the key with the value 0 and returns it, and
    every later lookup of that key finds the same 0. *)
Definition node_index_at (node_index : gmap nat nat) (p : ptr) : nat :=
  default 0 (node_index !! p).

(** The visitor of lines 491-498. *)
Definition ToStaticGraph_visit (p : ptr) (n : Node)
    (st : list nat * gmap nat nat * list nat)
  : list nat * gmap nat nat * list nat :=
  let '(node_order, node_index, arg_nodes) := st in
  let nid := size node_index in
  (node_order ++ [p], <[p := nid]> node_index,
   if node_is_variable n then arg_nodes ++ [nid] else arg_nodes).

(** [StaticGraph::DataEntry] for a [DataEntry], lines 518-521 and 527-530. *)
Definition static_entry (node_index : gmap nat nat) (e : DataEntry)
  : nat * nat :=
  (node_index_at node_index (source e), index e).

(** The body of the loop of lines 501-523 for an entry of [node_order],
    given the node [n] that the entry points to. *)
Definition ToStaticGraph_node (node_index : gmap nat nat) (n : Node)
  : StaticGraphNode :=
  mkStaticGraphNode (op_Copy <$> op n)
    (mkStaticNode (name n)
       match backward_source_node n with
       | Some b => Z.of_nat (node_index_at node_index b)
       | None => (-1)%Z
       end
       (static_entry node_index <$> inputs n)).

(** [Symbol::ToStaticGraph], lines 484-532, on a graph that is empty when the
    call starts.  The node array is resized to [node_index.size()] and
    written at every position of [node_order]; a write past its end is
    undefined behaviour. *)
Definition ToStaticGraph (h : heap) (s : Symbol) : option StaticGraph :=
  '(node_order, node_index, arg_nodes) ←
    DFSVisit h s ToStaticGraph_visit ([], ∅, []);
  if decide (length node_order ≤ size node_index) then
    nodes ← mapM (λ p, ToStaticGraph_node node_index <$> h !! p) node_order;
    Some (mkStaticGraph nodes arg_nodes
            (static_entry node_index <$> heads_ s))
  else None.

(** How a call that returns a value ends: with the value, with a failed
    check, or in undefined behaviour. *)
Inductive result (A : Type) :=
  | Returns (a : A)
  | Fails (e : error)
  | Undef.

Arguments Returns {A} a.
Arguments Fails {A} e.
Arguments Undef {A}.

(** ** Shape inference *)

Section InferShape.

(** Modelled from the spec: [TShape] and [StaticGraph::InferShape] are
    declared outside src/; section 4.8 of the specification leaves the
    propagation of shapes to the static graph.  The shape type, the shape
    that [TShape()] builds and the function of the static graph are taken as
    they come: the function gets the two vectors and gives back its result
    and the two vectors as it leaves them. *)
Context {TShape : Type} (TShape_unset : TShape).
Context (StaticGraph_InferShape :
  StaticGraph → list TShape → list TShape → bool * list TShape * list TShape).

(** [Symbol::InferShape], lines 427-432. *)
Definition InferShape (h : heap) (s : Symbol)
    (arg_shapes out_shapes : list TShape)
  : option (bool * list TShape * list TShape) :=
  g ← ToStaticGraph h s;
  Some (StaticGraph_InferShape g arg_shapes out_shapes).

(** [known_arg_shapes.find(name)], with the map kept as an association list
    in the order in which it enumerates its entries. *)
Definition shapes_find (known_arg_shapes : list (string * TShape))
    (key : string) : option TShape :=
  snd <$> List.find (λ kv, bool_decide (kv.1 = key)) known_arg_shapes.

(** The body of the loop of lines 442-449 for the argument node [i], whose
    name is [name]. *)
Definition InferShape_match (known_arg_shapes : list (string * TShape))
    (st : list TShape * nat) (iname : nat * string) : list TShape * nat :=
  let '(arg_shapes, nmatched) := st in
  match shapes_find known_arg_shapes iname.2 with
  | Some shape => (<[iname.1 := shape]> arg_shapes, S nmatched)
  | None => st
  end.

(** [Symbol::InferShape] with known shapes, lines 434-457.
    [g.nodes[g.arg_nodes[i]]] past the end of the node array is undefined
    behaviour. *)
Definition InferShape_known (h : heap) (s : Symbol)
    (known_arg_shapes : list (string * TShape)) (out_shapes : list TShape)
  : result (bool * list TShape * list TShape) :=
  match ToStaticGraph h s with
  | None => Undef
  | Some g =>
    match mapM (λ id, (λ n, sn_name (sg_node n)) <$> nodes g !! id)
            (arg_nodes g) with
    | None => Undef
    | Some names =>
      let '(arg_shapes, nmatched) :=
        foldl (InferShape_match known_arg_shapes)
          (replicate (length (arg_nodes g)) TShape_unset, 0)
          (imap pair names) in
      let report :=
        if decide (nmatched = length known_arg_shapes) then Done
        else
          match ListArguments h s with
          | None => Undefined
          | Some candidates =>
              KeywordArgumentMismatch "Symbol.InterShape"
                (fst <$> known_arg_shapes) candidates
          end in
      match report with
      | Done => Returns (StaticGraph_InferShape g arg_shapes out_shapes)
      | Fail e => Fails e
      | Undefined => Undef
      end
    end
  end.

End InferShape.

(** ** Differentiation *)

Section Grad.

(** Modelled from the spec: [StaticGraph::MakeBackwardPass] is defined
    outside src/.  Section 4.7 of the specification: it appends the gradient
    nodes after the nodes of the graph and yields, indexed like the argument
    list, the entry that realizes the gradient of each argument.  It is taken
    as it comes: the graph as the call leaves it and [arg_grads];
    [head_grad_nodes] is not read by [Grad]. *)
Context (MakeBackwardPass : StaticGraph → StaticGraph * list (nat * nat)).

(** The loop of lines 410-412: a later position of a name overwrites an
    earlier one. *)
Definition Grad_arg_index (arg_list : list string) : gmap string nat :=
  foldl (λ (m : gmap string nat) (ia : nat * string), <[ia.2 := ia.1]> m) ∅
    (imap pair arg_list).

(** The body of the loop of lines 415-423 for one requested name. *)
Definition Grad_head (arg_index : gmap string nat)
    (arg_grads : list (nat * nat)) (shared_node : list nat)
    (wrt arg_list : list string) (st : list DataEntry * outcome)
    (name : string) : list DataEntry * outcome :=
  let '(ret, o) := st in
  match o with
  | Done =>
      match arg_index !! name with
      | Some index =>
          match arg_grads !! index with
          | Some (source_id, idx) =>
              match shared_node !! source_id with
              | Some p => (ret ++ [mkEntry p idx], Done)
              | None => (ret, Undefined)
              end
          | None => (ret, Undefined)
          end
      | None => (ret, KeywordArgumentMismatch "Symbol.Grad " wrt arg_list)
      end
  | _ => st
  end.

(** [Symbol::Grad], lines 383-425.  The nodes that the call creates are held
    by the call alone until it returns, so a failure leaves nothing behind.
    [g.nodes.begin() + num_nodes] past the end of the node array is undefined
    behaviour. *)
Definition Grad (h : heap) (s : Symbol) (wrt : list string)
  : result (gmap nat Node * Symbol) :=
  match ToStaticGraph h s with
  | None => Undef
  | Some g =>
    let num_nodes := length (nodes g) in
    let '(g', arg_grads) := MakeBackwardPass g in
    match visit_order h s with
    | None => Undef
    | Some shared_node =>
      if decide (num_nodes ≤ length (nodes g')) then
        match foldl Grad_attach (Some (h, shared_node))
                (sg_node <$> drop num_nodes (nodes g')) with
        | None => Undef
        | Some (h', shared_node') =>
          match ListArguments h' s with
          | None => Undef
          | Some arg_list =>
            match foldl (Grad_head (Grad_arg_index arg_list) arg_grads
                           shared_node' wrt arg_list) ([], Done) wrt with
            | (ret, Done) => Returns (h', mkSymbol ret)
            | (_, Fail e) => Fails e
            | (_, Undefined) => Undef
            end
          end
        end
      else Undef
    end
  end.

End Grad.

(** ** Further notions used to state the properties *)

(** The positions of the variables in a sequence of nodes. *)
Definition var_positions (tr : list (nat * Node)) : list nat :=
  fst <$> filter (λ ipn : nat * (nat * Node), node_is_variable ipn.2.2 = true)
            (imap pair tr).

(** How often a name occurs in a list of names. *)
Definition occurrences (key : string) (l : list string) : nat :=
  length (filter (λ a, a = key) l).

(** An edge of the static graph stands for an edge of the graph: its id is
    the position of the source in the visit order and the output index is
    kept. *)
Definition edge_at (order : list nat) (e : DataEntry) (se : nat * nat)
  : Prop :=
  order !! se.1 = Some (source e) ∧ se.2 = index e.

(** What [Grad] relies on in the result of [MakeBackwardPass] for a graph of
    [num_nodes] nodes whose symbol has [nargs] arguments: the backward source
    of a new node is absent or a node before it, its inputs are nodes up to
    itself, and [arg_grads] has an entry for every argument, each on a node
    of the result. *)
Definition backward_ok (num_nodes : nat) (new : list StaticNode)
    (arg_grads : list (nat * nat)) (nargs : nat) : Prop :=
  (∀ k it, new !! k = Some it →
     (sn_backward_source_id it = (-1)%Z ∨
      (0 ≤ sn_backward_source_id it < Z.of_nat (num_nodes + k))%Z) ∧
     Forall (λ e : nat * nat, e.1 ≤ num_nodes + k) (sn_inputs it)) ∧
  nargs ≤ length arg_grads ∧
  Forall (λ e : nat * nat, e.1 < num_nodes + length new) arg_grads.

(** The head that [Grad] returns for a requested name: the entry of
    [arg_grads] at the last position of the name in the argument list, on
    the node that [shared_node] holds for its id. *)
Definition grad_head (args : list string) (arg_grads : list (nat * nat))
    (shared_node : list nat) (name : string) (e : DataEntry) : Prop :=
  ∃ pos source_id,
    args !! pos = Some name ∧
    (∀ j, pos < j → args !! j ≠ Some name) ∧
    arg_grads !! pos = Some (source_id, index e) ∧
    shared_node !! source_id = Some (source e).

(** An entry and a node under a renaming [ρ] of addresses, as [Copy] builds
    them: the entry keeps its output index; the node keeps its name, gets the
    clone of the operator and the renamed inputs, and has no backward
    source. *)
Definition rename_entry (ρ : nat → nat) (e : DataEntry) : DataEntry :=
  mkEntry (ρ (source e)) (index e).

Definition copy_node (ρ : nat → nat) (n : Node) : Node :=
  mkNode None (op_Copy <$> op n) (name n) (rename_entry ρ <$> inputs n).

(** The renaming of addresses that the map [old_new] of [Copy] stands for;
    an address that is not a key stays as it is. *)
Definition renaming (old_new : gmap nat nat) (p : nat) : nat :=
  default p (old_new !! p).

(** The heap [h'] holds a copy of the graph of [s] in [h] along [old_new]:
    the nodes of [h] are as they were; the keys of [old_new] are the
    reachable nodes, sent to different addresses that [h] does not use; the
    node at the image of a node is its [copy_node]; and [h'] holds nothing
    else. *)
Definition copied (h : heap) (s : Symbol) (h' : heap)
    (old_new : gmap nat nat) : Prop :=
  h ⊆ h' ∧
  (∀ p, is_Some (old_new !! p) ↔ reachable h s p) ∧
  (∀ p q, old_new !! p = Some q → h !! q = None) ∧
  (∀ p1 p2 q, old_new !! p1 = Some q → old_new !! p2 = Some q → p1 = p2) ∧
  (∀ p q n, old_new !! p = Some q → h !! p = Some n →
     h' !! q = Some (copy_node (renaming old_new) n)) ∧
  (∀ r, is_Some (h' !! r) → is_Some (h !! r) ∨ ∃ p, old_new !! p = Some r).

(** The entry that keyword [Compose] writes over the edge [e] of a composite
    symbol, lines 340-350: the first head of the symbol supplied under the
    name of the variable that [e] points to, if there is one. *)
Definition kw_target (h : heap) (kwargs : list (string * Symbol))
    (e : DataEntry) : option DataEntry :=
  m ← h !! source e;
  if node_is_variable m then a ← kwargs_find kwargs (name m); heads_ a !! 0
  else None.

(** The heap that a plan yields when every entry has a target and writes to
    a live node. *)
Fixpoint apply_plan (h : heap) (plan : list (nat * nat * option DataEntry))
  : option (gmap nat Node) :=
  match plan with
  | [] => Some h
  | (p, i, Some d) :: rest => apply_plan (set_input h p i d) rest
  | (_, _, None) :: _ => None
  end.

(** An edge after a composition that writes [target e] over every edge [e]
    for which there is a target. *)
Definition rebind (target : DataEntry → option DataEntry) (e : DataEntry)
  : DataEntry :=
  default e (target e).

(** The part of a replacement plan that the visit of the node [p] adds, for
    the inputs [ins] that start at position [k]: one entry per edge that has
    a target. *)
Fixpoint node_plan (target : DataEntry → option DataEntry) (p k : nat)
    (ins : list DataEntry) : list (nat * nat * option DataEntry) :=
  match ins with
  | [] => []
  | e :: ins =>
      match target e with
      | Some d => [(p, k, Some d)]
      | None => []
      end ++ node_plan target p (S k) ins
  end.

(** The variables that the inputs [ins] match with a key. *)
Definition kw_matched (h : heap) (kwargs : list (string * Symbol))
    (ins : list DataEntry) : list nat :=
  source <$> filter (λ e, is_Some (kw_target h kwargs e)) ins.

(** The keys that are argument names. *)
Definition known_keys (kwargs : list (string * Symbol)) (args : list string)
  : list string :=
  filter (λ key, key ∈ args) kwargs.*1.

(** ** Positional composition on a composite symbol *)

(** The input edges in the order in which the visitor of lines 253-273 meets
    them: node by node in the order of the traversal, the inputs of a node
    from the first to the last, each edge with its node and its position. *)
Definition edges_of (tr : list (nat * Node)) : list (nat * nat * DataEntry) :=
  tr ≫= λ pn, imap (λ i e, (pn.1, i, e)) (inputs pn.2).

(** The body of the loop of lines 256-272 on an edge of [edges_of]. *)
Definition Compose_step (h : heap) (args : list Symbol)
    (st : nat * gmap nat (option DataEntry)
          * list (nat * nat * option DataEntry))
    (x : nat * nat * DataEntry)
  : nat * gmap nat (option DataEntry) * list (nat * nat * option DataEntry) :=
  Compose_edge h args x.1.1 st (x.1.2, x.2).

(** The sources of the edges that point to a variable, edge by edge. *)
Definition var_sources (h : heap) (es : list (nat * nat * DataEntry))
  : list nat :=
  (λ x, source x.2) <$> filter (λ x, is_variable_at h (source x.2) = true) es.

(** The variables on the input edges, each once, in the order in which the
    visitor meets its first edge. *)
Definition pos_vars (h : heap) (tr : list (nat * Node)) : list nat :=
  new_of (var_sources h (edges_of tr)) ∅.

(** The position of [v] in [vars]. *)
Definition rank (vars : list nat) (v : nat) : option nat :=
  fst <$> list_find (λ x, x = v) vars.

(** What the positional composition writes over the edge [e]: the first head
    of the argument whose position is the position of the edge's variable
    in [vars]. *)
Definition pos_target (h : heap) (args : list Symbol) (vars : list nat)
    (e : DataEntry) : option DataEntry :=
  if is_variable_at h (source e) then
    k ← rank vars (source e); arg_head args k
  else None.

(** The plan entries of a list of edges, one per edge that has a target. *)
Definition flat_plan (target : DataEntry → option DataEntry)
    (es : list (nat * nat * DataEntry))
  : list (nat * nat * option DataEntry) :=
  es ≫= λ x, match target x.2 with
             | Some d => [(x.1.1, x.1.2, Some d)]
             | None => []
             end.


(** The heap [hc] is the heap [h0] with some of its edges overwritten by
    their targets. *)
Definition rewritten (target : DataEntry → option DataEntry) (h0 hc : heap)
  : Prop :=
  (∀ p, is_Some (hc !! p) ↔ is_Some (h0 !! p)) ∧
  (∀ p n0 n, h0 !! p = Some n0 → hc !! p = Some n →
     Forall2 (λ e0 e, e = e0 ∨ target e0 = Some e) (inputs n0) (inputs n)).

(** Every variable that the symbol reaches is a leaf.  A variable with
    inputs arises when [Copy] copies a gradient node and drops its backward
    source. *)
Definition variables_are_leaves (h : heap) (s : Symbol) : Prop :=
  ∀ p n, reachable h s p → h !! p = Some n →
    node_is_variable n = true → inputs n = [].

(** A check that implies [variables_are_leaves] for every symbol. *)
Definition variables_are_leavesb (h : heap) : bool :=
  bool_decide
    (map_Forall (λ _ n, node_is_variable n = true → inputs n = []) h).

(** * Properties *)

(** ** Lists and searches *)

Lemma find_first_split {A} (f : A → bool) (l : list A) (x : A) :
  List.find f l = Some x →
  ∃ pre post, l = pre ++ x :: post ∧ f x = true ∧ Forall (λ y, f y = false) pre.
Proof.
  induction l as [|a l IH]; simpl; [done|].
  destruct (f a) eqn:Hfa.
  - intros [= ->]. by exists [], l.
  - intros (pre & post & -> & Hx & Hpre)%IH.
    exists (a :: pre), post. split_and!; [done|done|by constructor].
Qed.

Lemma find_none_all {A} (f : A → bool) (l : list A) :
  List.find f l = None → Forall (λ y, f y = false) l.
Proof.
  induction l as [|a l IH]; simpl; [constructor|].
  destruct (f a) eqn:Hfa; [done|]. intros ?. constructor; auto.
Qed.

Lemma find_some_exists {A} (f : A → bool) (l : list A) (x : A) :
  x ∈ l → f x = true → is_Some (List.find f l).
Proof.
  induction 1 as [x l|x y l _ IH]; simpl; intros Hx.
  - rewrite Hx. eauto.
  - destruct (f y); eauto.
Qed.

(** ** The loop of the traversal *)

Section traversal.
Context (h : gmap nat Node).

Lemma push_new_spec srcs stack visited :
  push_new srcs stack visited
    = (reverse (new_of srcs visited) ++ stack,
       list_to_set (new_of srcs visited) ∪ visited).
Proof.
  revert stack visited.
  induction srcs as [|p rest IH]; intros stack visited; simpl.
  - f_equal. set_solver.
  - case_decide.
    + apply IH.
    + rewrite IH. simpl. rewrite reverse_cons, <-app_assoc. simpl.
      f_equal. set_solver.
Qed.

Lemma list_to_set_reverse_L (l : list nat) :
  list_to_set (reverse l) =@{gset nat} list_to_set l.
Proof.
  apply set_eq. intros x.
  by rewrite !elem_of_list_to_set, elem_of_reverse.
Qed.

Lemma new_of_fresh srcs visited p :
  p ∈ new_of srcs visited → p ∈ srcs ∧ p ∉ visited.
Proof.
  revert visited. induction srcs as [|q rest IH]; intros visited; simpl.
  - by intros ?%elem_of_nil.
  - case_decide.
    + intros [??]%IH. split; [by right|done].
    + intros [->|[??]%IH]%elem_of_cons; [split; [by left|done]|].
      split; [by right|set_solver].
Qed.

Lemma new_of_NoDup srcs visited : NoDup (new_of srcs visited).
Proof.
  revert visited. induction srcs as [|q rest IH]; intros visited; simpl.
  - constructor.
  - case_decide; [apply IH|]. constructor; [|apply IH].
    intros [_ Hq]%new_of_fresh. set_solver.
Qed.

Lemma new_of_marks srcs visited :
  list_to_set (new_of srcs visited) ∪ visited
    = list_to_set srcs ∪ visited.
Proof.
  revert visited. induction srcs as [|q rest IH]; intros visited; simpl.
  - done.
  - case_decide.
    + rewrite IH. set_solver.
    + apply set_eq. intros x.
      assert (x ∈ list_to_set (new_of rest ({[q]} ∪ visited))
                  ∪ ({[q]} ∪ visited)
              ↔ x ∈ list_to_set rest ∪ ({[q]} ∪ visited)) as Hx
        by (by rewrite IH).
      clear IH.
      rewrite !elem_of_union, !elem_of_list_to_set, ?elem_of_cons,
        !elem_of_singleton in *.
      tauto.
Qed.

Lemma new_of_app l1 l2 visited :
  new_of (l1 ++ l2) visited
    = new_of l1 visited ++ new_of l2 (list_to_set l1 ∪ visited).
Proof.
  revert visited. induction l1 as [|q l1 IH]; intros visited; simpl.
  - by rewrite (left_id_L ∅ (∪)).
  - case_decide as Hq.
    + rewrite IH. do 2 f_equal. apply set_eq. intros x.
      rewrite !elem_of_union, elem_of_singleton. naive_solver.
    + rewrite IH. simpl. do 3 f_equal. apply set_eq. intros x.
      rewrite !elem_of_union, elem_of_singleton. tauto.
Qed.

(** The loop of line 71 runs over the inputs from the last to the first,
    and what it pushes last is popped first. *)
Lemma discovered_pushed srcs visited :
  reverse (new_of (reverse srcs) visited) = discovered srcs visited.
Proof.
  unfold discovered. induction srcs as [|q srcs IH]; [done|].
  rewrite reverse_cons, new_of_app, reverse_app, IH. simpl.
  destruct (decide (q ∈ list_to_set (reverse srcs) ∪ visited)) as [Hq|Hq];
    rewrite list_to_set_reverse_L, elem_of_union, elem_of_list_to_set in Hq.
  - simpl. destruct (decide_rel elem_of q srcs) as [|Hq'];
      [done|]. rewrite filter_cons_False; [done|]. tauto.
  - destruct (decide_rel elem_of q srcs) as [|Hq']; [tauto|].
    rewrite filter_cons_True; [done|]. tauto.
Qed.

Lemma discovered_fresh srcs visited p :
  p ∈ discovered srcs visited → p ∈ srcs ∧ p ∉ visited.
Proof.
  rewrite <-discovered_pushed, elem_of_reverse.
  intros [? ?]%new_of_fresh. by rewrite <-(elem_of_reverse _ srcs).
Qed.

Lemma discovered_NoDup srcs visited : NoDup (discovered srcs visited).
Proof.
  rewrite <-discovered_pushed, reverse_Permutation. apply new_of_NoDup.
Qed.

Lemma discovered_marks srcs visited :
  list_to_set (discovered srcs visited) ∪ visited
    = list_to_set srcs ∪ visited.
Proof.
  rewrite <-discovered_pushed, list_to_set_reverse_L, new_of_marks.
  by rewrite list_to_set_reverse_L.
Qed.

(** With inputs that are distinct nodes this is the plain order of the
    inputs. *)
Lemma discovered_distinct srcs visited :
  NoDup srcs → discovered srcs visited = filter (λ p, p ∉ visited) srcs.
Proof.
  unfold discovered. intros Hnd. f_equal.
  induction Hnd as [|q srcs Hq _ IH]; [done|]. simpl.
  destruct (decide_rel elem_of q srcs); [done|]. by rewrite IH.
Qed.

(** The step of the loop, with the push spelled out. *)
Lemma dfs_list_step fuel back stack visited n :
  h !! back = Some n →
  dfs_list h (S fuel) (back :: stack) visited
    = ((back, n) ::.) <$>
      dfs_list h fuel (discovered (source <$> inputs n) visited ++ stack)
        (list_to_set (source <$> inputs n) ∪ visited).
Proof.
  intros Hn. simpl. rewrite Hn, push_new_spec.
  by rewrite new_of_marks, list_to_set_reverse_L, discovered_pushed.
Qed.

Lemma dfs_list_inv fuel back stack visited tr :
  dfs_list h fuel (back :: stack) visited = Some tr →
  ∃ fuel' n tr', fuel = S fuel' ∧ h !! back = Some n ∧ tr = (back, n) :: tr' ∧
    dfs_list h fuel' (discovered (source <$> inputs n) visited ++ stack)
      (list_to_set (source <$> inputs n) ∪ visited) = Some tr'.
Proof.
  destruct fuel as [|fuel]; [done|].
  destruct (h !! back) as [n|] eqn:Hn; [|by simpl; rewrite Hn].
  rewrite (dfs_list_step _ _ _ _ n Hn).
  destruct (dfs_list h fuel _ _) as [tr'|] eqn:Htr; [|done].
  intros [= <-]. by exists fuel, n, tr'.
Qed.

(** Any visitor sees the same sequence of nodes. *)
Lemma dfs_loop_list {S} (fvisit : nat → Node → S → S) fuel stack visited st :
  dfs_loop fvisit h fuel stack visited st
    = run_visitor fvisit st <$> dfs_list h fuel stack visited.
Proof.
  revert stack visited st.
  induction fuel as [|fuel IH]; intros [|back stack] visited st; try done.
  simpl. destruct (h !! back) as [n|]; [|done].
  destruct (push_new _ _ _) as [stack' visited'].
  rewrite IH. by destruct (dfs_list h fuel stack' visited').
Qed.

(** The stack is popped from the top: its content is visited in stack
    order, with the nodes discovered on the way in between. *)
Lemma dfs_list_sublist fuel stack visited tr :
  dfs_list h fuel stack visited = Some tr → sublist stack tr.*1.
Proof.
  revert stack visited tr.
  induction fuel as [|fuel IH]; intros [|back stack] visited tr Htr.
  - apply sublist_nil_l.
  - done.
  - apply sublist_nil_l.
  - apply dfs_list_inv in Htr as (f & n & tr' & [= <-] & Hn & -> & Htr).
    simpl. apply sublist_skip. apply IH in Htr.
    etrans; [|exact Htr]. apply sublist_inserts_l. done.
Qed.

Lemma loop_inv_step done_ back stack visited n :
  closed h →
  loop_inv h done_ (back :: stack) visited →
  h !! back = Some n →
  loop_inv h ({[back]} ∪ done_)
    (discovered (source <$> inputs n) visited ++ stack)
    (list_to_set (source <$> inputs n) ∪ visited).
Proof.
  intros Hcl (HV & Hnd & Hdis & Hin & Hdone) Hn.
  apply NoDup_cons in Hnd as [Hback Hnd].
  assert (Hd := discovered_fresh (source <$> inputs n) visited).
  split_and!.
  - rewrite <-discovered_marks, HV, list_to_set_app_L. set_solver.
  - apply NoDup_app. split_and!; [apply discovered_NoDup| |done].
    intros p [_ Hp]%Hd Hps. set_solver.
  - intros p [[_ Hp]%Hd|Hp]%elem_of_app.
    + set_solver.
    + specialize (Hdis p). set_solver.
  - intros p [[Hp _]%Hd|Hp]%elem_of_app.
    + apply list_elem_of_fmap in Hp as (e & -> & He). by eapply Hcl.
    + apply Hin. by right.
  - apply union_subseteq. split; [|done].
    apply singleton_subseteq_l, elem_of_dom. eauto.
Qed.

(** The loop ends within as many iterations as there are nodes that were
    not popped yet. *)
Lemma dfs_list_total fuel done_ stack visited :
  closed h →
  loop_inv h done_ stack visited →
  size h ≤ fuel + size done_ →
  is_Some (dfs_list h fuel stack visited).
Proof.
  intros Hcl. revert done_ stack visited.
  induction fuel as [|fuel IH]; intros done_ [|back stack] visited Hinv Hsz;
    [by eexists|..|by eexists|].
  - exfalso. destruct Hinv as (_ & _ & Hdis & Hin & Hdone).
    assert (Hb : back ∈ dom h) by (apply elem_of_dom, Hin; by left).
    assert (size (dom h) ≤ size done_) by (rewrite size_dom; simpl in Hsz; lia).
    assert (dom h = done_) as Heq.
    { symmetry. apply set_eq. intros x. split; [set_solver|].
      intros Hx. destruct (decide (x ∈ done_)) as [|Hnx]; [done|].
      exfalso.
      assert (size ({[x]} ∪ done_) ≤ size (dom h)) as Hle.
      { apply subseteq_size. set_solver. }
      rewrite size_union, size_singleton in Hle by set_solver. lia. }
    apply (Hdis back); [by left|by rewrite <-Heq].
  - destruct (proj1 (proj2 (proj2 (proj2 Hinv))) back) as [n Hn]; [by left|].
    rewrite (dfs_list_step _ _ _ _ n Hn).
    destruct (IH ({[back]} ∪ done_)
                (discovered (source <$> inputs n) visited ++ stack)
                (list_to_set (source <$> inputs n) ∪ visited)) as [tr ->];
      [by apply loop_inv_step| |by eexists].
    destruct Hinv as (_ & _ & Hdis & _).
    rewrite size_union, size_singleton; [lia|].
    specialize (Hdis back). set_solver.
Qed.

(** No node is visited twice, and no popped node is visited again. *)
Lemma dfs_list_NoDup fuel done_ stack visited tr :
  closed h →
  loop_inv h done_ stack visited →
  dfs_list h fuel stack visited = Some tr →
  NoDup tr.*1 ∧ (∀ p, p ∈ tr.*1 → p ∉ done_).
Proof.
  intros Hcl. revert done_ stack visited tr.
  induction fuel as [|fuel IH]; intros done_ [|back stack] visited tr Hinv Htr;
    try done.
  - injection Htr as <-. split; [constructor|]. by intros ? ?%elem_of_nil.
  - injection Htr as <-. split; [constructor|]. by intros ? ?%elem_of_nil.
  - apply dfs_list_inv in Htr as (f & n & tr' & [= <-] & Hn & -> & Htr).
    destruct (IH _ _ _ _ (loop_inv_step _ _ _ _ _ Hcl Hinv Hn) Htr)
      as [Hnd Hdis].
    destruct Hinv as (_ & _ & Hdis' & _).
    simpl. split.
    + constructor; [|done]. intros Hb%Hdis. set_solver.
    + intros p [->|Hp%Hdis]%elem_of_cons; [apply Hdis'; by left|set_solver].
Qed.

(** Every input of a visited node is visited as well, unless it was popped
    before. *)
Lemma dfs_list_inputs fuel done_ stack visited tr :
  closed h →
  loop_inv h done_ stack visited →
  dfs_list h fuel stack visited = Some tr →
  ∀ p n e, (p, n) ∈ tr → e ∈ inputs n →
    source e ∈ done_ ∨ source e ∈ tr.*1.
Proof.
  intros Hcl. revert done_ stack visited tr.
  induction fuel as [|fuel IH]; intros done_ [|back stack] visited tr Hinv Htr;
    try done.
  - injection Htr as <-. by intros ??? ?%elem_of_nil.
  - injection Htr as <-. by intros ??? ?%elem_of_nil.
  - apply dfs_list_inv in Htr as (f & n & tr' & [= <-] & Hn & -> & Htr).
    assert (Hinv' := loop_inv_step _ _ _ _ _ Hcl Hinv Hn).
    assert (Hsub := dfs_list_sublist _ _ _ _ Htr).
    intros p m e [[= -> ->]|Hp]%elem_of_cons He; simpl.
    + destruct Hinv' as (HV' & _).
      assert (source e ∈ list_to_set (source <$> inputs n) ∪ visited) as Hm.
      { apply elem_of_union_l, elem_of_list_to_set, list_elem_of_fmap.
        by exists e. }
      rewrite HV' in Hm.
      apply elem_of_union in Hm as [[->%elem_of_singleton|Hm]%elem_of_union|Hm].
      * right. by left.
      * by left.
      * right. right. apply elem_of_list_to_set in Hm.
        eapply elem_of_sublist; [exact Hm|exact Hsub].
    + destruct (IH _ _ _ _ Hinv' Htr p m e Hp He)
        as [[->%elem_of_singleton|?]%elem_of_union|?].
      * right. by left.
      * by left.
      * right. by right.
Qed.

(** What is visited was on the stack or is an input of a visited node. *)
Lemma dfs_list_sound (R : nat → Prop) fuel stack visited tr :
  (∀ p n e, R p → h !! p = Some n → e ∈ inputs n → R (source e)) →
  (∀ p, p ∈ stack → R p) →
  dfs_list h fuel stack visited = Some tr →
  ∀ p n, (p, n) ∈ tr → R p ∧ h !! p = Some n.
Proof.
  intros HR. revert stack visited tr.
  induction fuel as [|fuel IH]; intros [|back stack] visited tr Hst Htr;
    try done.
  - injection Htr as <-. by intros ?? ?%elem_of_nil.
  - injection Htr as <-. by intros ?? ?%elem_of_nil.
  - apply dfs_list_inv in Htr as (f & n & tr' & [= <-] & Hn & -> & Htr).
    intros p m [[= -> ->]|Hp]%elem_of_cons.
    + split; [apply Hst; by left|done].
    + eapply IH; [|exact Htr|exact Hp].
      intros q [[Hq _]%discovered_fresh|Hq]%elem_of_app.
      * apply list_elem_of_fmap in Hq as (e & -> & He).
        eapply HR; [|exact Hn|exact He]. apply Hst. by left.
      * apply Hst. by right.
Qed.

(** The inputs that a node discovers are visited after it, in the order in
    which they lie on the stack. *)
Lemma dfs_list_discovered fuel stack visited tr pre p n post :
  dfs_list h fuel stack visited = Some tr →
  tr = pre ++ (p, n) :: post →
  sublist
    (discovered (source <$> inputs n)
       (visited ∪ list_to_set (pre ≫= λ pn, source <$> inputs pn.2)))
    post.*1.
Proof.
  revert stack visited tr pre.
  induction fuel as [|fuel IH]; intros [|back stack] visited tr pre Htr Heq;
    try done.
  - injection Htr as <-. by destruct pre.
  - injection Htr as <-. by destruct pre.
  - apply dfs_list_inv in Htr as (f & m & tr' & [= <-] & Hm & -> & Htr).
    destruct pre as [|[q k] pre]; simpl in Heq.
    + injection Heq as -> -> ->. simpl.
      rewrite (right_id_L ∅ (∪)).
      apply dfs_list_sublist in Htr.
      etrans; [|exact Htr]. by apply sublist_inserts_r.
    + injection Heq as -> -> ->.
      specialize (IH _ _ _ pre Htr eq_refl). simpl.
      rewrite list_to_set_app_L.
      assert (∀ A B C : gset nat, A ∪ (B ∪ C) = B ∪ A ∪ C) as Hs.
      { intros A B C. by rewrite (assoc_L (∪)), (comm_L (∪) A B). }
      rewrite Hs. exact IH.
Qed.
End traversal.

(** ** Fuel and the stack *)

Lemma dfs_list_fuel h fuel fuel' stack visited tr :
  dfs_list h fuel stack visited = Some tr →
  fuel ≤ fuel' →
  dfs_list h fuel' stack visited = Some tr.
Proof.
  revert fuel' stack visited tr.
  induction fuel as [|fuel IH]; intros fuel' [|back stack] visited tr Htr Hle;
    try done.
  - by destruct fuel'.
  - by destruct fuel'.
  - apply dfs_list_inv in Htr as (f & n & tr' & [= <-] & Hn & -> & Htr).
    destruct fuel' as [|fuel']; [lia|].
    rewrite (dfs_list_step _ _ _ _ _ n Hn).
    erewrite IH; [done|exact Htr|lia].
Qed.

(** A traversal that ends needs no more fuel than it visits nodes. *)
Lemma dfs_list_fuel_length h fuel fuel' stack visited tr :
  dfs_list h fuel stack visited = Some tr →
  length tr ≤ fuel' →
  dfs_list h fuel' stack visited = Some tr.
Proof.
  revert fuel' stack visited tr.
  induction fuel as [|fuel IH]; intros fuel' [|back stack] visited tr Htr Hle;
    try done.
  - by destruct fuel'.
  - by destruct fuel'.
  - apply dfs_list_inv in Htr as (f & n & tr' & [= <-] & Hn & -> & Htr).
    destruct fuel' as [|fuel']; [simpl in Hle; lia|].
    rewrite (dfs_list_step _ _ _ _ _ n Hn).
    erewrite IH; [done|exact Htr|simpl in Hle; lia].
Qed.

Lemma marks_nil visited : marks visited [] = visited.
Proof. unfold marks. simpl. by rewrite (right_id_L ∅ (∪)). Qed.

(** The part of the stack below is not looked at until the part above is
    used up: the traversal of [s1 ++ s2] is the traversal of [s1] followed by
    the traversal of [s2] with what the first has marked. *)
Lemma dfs_list_app h fuel s1 s2 visited tr :
  dfs_list h fuel (s1 ++ s2) visited = Some tr →
  ∃ tr1 tr2, tr = tr1 ++ tr2 ∧
    dfs_list h fuel s1 visited = Some tr1 ∧
    dfs_list h fuel s2 (marks visited tr1) = Some tr2.
Proof.
  revert s1 visited tr.
  induction fuel as [|fuel IH]; intros [|back s1] visited tr Htr.
  - exists [], tr. split_and!; [done..|]. by rewrite marks_nil.
  - done.
  - exists [], tr. split_and!; [done..|]. by rewrite marks_nil.
  - rewrite <-app_comm_cons in Htr.
    apply dfs_list_inv in Htr as (f & n & tr' & [= <-] & Hn & -> & Htr).
    rewrite (assoc (++)) in Htr.
    apply IH in Htr as (tr1 & tr2 & -> & H1 & H2).
    exists ((back, n) :: tr1), tr2. split_and!; [done| |].
    + rewrite (dfs_list_step _ _ _ _ _ n Hn). by rewrite H1.
    + eapply dfs_list_fuel; [|apply Nat.le_succ_diag_r].
      unfold marks in *. simpl. rewrite list_to_set_app_L.
      assert (∀ A B C : gset nat, A ∪ (B ∪ C) = B ∪ A ∪ C) as Hs.
      { intros A B C. by rewrite (assoc_L (∪)), (comm_L (∪) A B). }
      by rewrite Hs.
Qed.

(** A node without inputs on the stack is visited and nothing else
    happens. *)
Lemma dfs_list_leaf h fuel p n visited tr :
  h !! p = Some n → inputs n = [] →
  dfs_list h fuel [p] visited = Some tr → tr = [(p, n)].
Proof.
  intros Hn Hin Htr.
  apply dfs_list_inv in Htr as (f & m & tr' & -> & Hm & -> & Htr).
  assert (m = n) as -> by congruence. rewrite Hin in Htr. simpl in Htr.
  unfold discovered in Htr. simpl in Htr. by destruct f; simplify_eq/=.
Qed.

Lemma NoDup_length_size (h : gmap nat Node) (l : list nat) :
  NoDup l → (∀ p, p ∈ l → is_Some (h !! p)) → length l ≤ size h.
Proof.
  intros Hnd Hl. rewrite <-(size_list_to_set (C := gset nat)) by done.
  rewrite <-size_dom. apply subseteq_size.
  intros p Hp%elem_of_list_to_set. by apply elem_of_dom, Hl.
Qed.

(** ** The traversal under a renaming of addresses *)

Section renaming.
Context (ρ : nat → nat) (R : nat → Prop).
Hypothesis ρ_inj : ∀ p q, R p → R q → ρ p = ρ q → p = q.

Lemma elem_of_fmap_inj_on (l : list nat) p :
  R p → (∀ q, q ∈ l → R q) → ρ p ∈ ρ <$> l ↔ p ∈ l.
Proof.
  intros Hp Hl. split; [|apply list_elem_of_fmap_2].
  intros (q & Heq & Hq)%list_elem_of_fmap.
  by rewrite (ρ_inj p q Hp (Hl q Hq) Heq).
Qed.

Lemma elem_of_set_map_inj_on (V : gset nat) p :
  R p → (∀ q, q ∈ V → R q) → ρ p ∈ (set_map ρ V : gset nat) ↔ p ∈ V.
Proof.
  intros Hp HV. rewrite elem_of_map. split; [|by exists p].
  intros (q & Heq & Hq). by rewrite (ρ_inj p q Hp (HV q Hq) Heq).
Qed.

Lemma remove_dups_rename (l : list nat) :
  (∀ q, q ∈ l → R q) → remove_dups (ρ <$> l) = ρ <$> remove_dups l.
Proof.
  induction l as [|p l IH]; intros Hl; [done|]. simpl.
  assert (R p) as Hp by (apply Hl; by left).
  assert (∀ q, q ∈ l → R q) as Hl' by (intros q Hq; apply Hl; by right).
  destruct (decide_rel _ p l) as [Hin|Hin];
    destruct (decide_rel _ (ρ p) _) as [Hin'|Hin'].
  - by apply IH.
  - by rewrite elem_of_fmap_inj_on in Hin'.
  - by rewrite elem_of_fmap_inj_on in Hin'.
  - simpl. f_equal. by apply IH.
Qed.

Lemma filter_unmarked_rename (k : list nat) (V : gset nat) :
  (∀ q, q ∈ k → R q) → (∀ q, q ∈ V → R q) →
  filter (λ p, p ∉ (set_map ρ V : gset nat)) (ρ <$> k)
    = ρ <$> filter (λ p, p ∉ V) k.
Proof.
  intros Hk HV. induction k as [|p k IH]; [done|].
  assert (R p) as Hp by (apply Hk; by left).
  assert (∀ q, q ∈ k → R q) as Hk' by (intros q Hq; apply Hk; by right).
  rewrite fmap_cons, !filter_cons.
  destruct (decide (p ∉ V)) as [Hin|Hin];
    destruct (decide (ρ p ∉ (set_map ρ V : gset nat))) as [Hin'|Hin'].
  - rewrite fmap_cons. f_equal. by apply IH.
  - exfalso. apply Hin'. by rewrite elem_of_set_map_inj_on.
  - exfalso. apply Hin. intros HpV. apply Hin'. by apply elem_of_map_2.
  - by apply IH.
Qed.

Lemma discovered_rename (l : list nat) (V : gset nat) :
  (∀ q, q ∈ l → R q) → (∀ q, q ∈ V → R q) →
  discovered (ρ <$> l) (set_map ρ V) = ρ <$> discovered l V.
Proof.
  intros Hl HV. unfold discovered. rewrite remove_dups_rename by done.
  apply filter_unmarked_rename; [|exact HV].
  intros q Hq. apply Hl. by apply elem_of_remove_dups.
Qed.

Lemma set_map_marks (l : list nat) (V : gset nat) :
  list_to_set (ρ <$> l) ∪ (set_map ρ V : gset nat)
    = set_map ρ (list_to_set l ∪ V).
Proof.
  apply set_eq. intros x.
  rewrite elem_of_union, elem_of_list_to_set, !elem_of_map, list_elem_of_fmap.
  split.
  - intros [(y & -> & Hy)|(y & -> & Hy)]; exists y; split; try done.
    + by apply elem_of_union_l, elem_of_list_to_set.
    + by apply elem_of_union_r.
  - intros (y & -> & [Hy%elem_of_list_to_set|Hy]%elem_of_union).
    + left. by exists y.
    + right. by exists y.
Qed.

(** The two traversals run in step. *)
Lemma dfs_list_rename h1 h2 fuel stack V tr1 :
  (∀ p n e, R p → h1 !! p = Some n → e ∈ inputs n → R (source e)) →
  (∀ p n1, R p → h1 !! p = Some n1 →
     ∃ n2, h2 !! ρ p = Some n2 ∧
       source <$> inputs n2 = ρ <$> (source <$> inputs n1)) →
  (∀ p, p ∈ stack → R p) →
  (∀ p, p ∈ V → R p) →
  dfs_list h1 fuel stack V = Some tr1 →
  ∃ tr2, dfs_list h2 fuel (ρ <$> stack) (set_map ρ V) = Some tr2 ∧
    tr2.*1 = ρ <$> tr1.*1.
Proof.
  intros HR Hnode. revert stack V tr1.
  induction fuel as [|fuel IH]; intros [|back stack] V tr1 Hst HV Htr;
    try done.
  - injection Htr as <-. by exists [].
  - injection Htr as <-. by exists [].
  - apply dfs_list_inv in Htr as (f & n1 & tr' & [= <-] & Hn1 & -> & Htr).
    assert (R back) as Hback by (apply Hst; by left).
    destruct (Hnode back n1 Hback Hn1) as (n2 & Hn2 & Hins).
    assert (∀ q, q ∈ source <$> inputs n1 → R q) as Hsrc.
    { intros q (e & -> & He)%list_elem_of_fmap. by eapply HR. }
    rewrite fmap_cons, (dfs_list_step h2 _ _ _ _ n2 Hn2), Hins.
    rewrite discovered_rename by done.
    rewrite <-fmap_app, set_map_marks.
    destruct (IH (discovered (source <$> inputs n1) V ++ stack)
                (list_to_set (source <$> inputs n1) ∪ V) tr')
      as (tr2 & -> & Heq); [| |done|].
    + intros p [[Hp _]%discovered_fresh|Hp]%elem_of_app; [by apply Hsrc|].
      apply Hst. by right.
    + intros p [Hp%elem_of_list_to_set|Hp]%elem_of_union;
        [by apply Hsrc|by apply HV].
    + exists ((ρ back, n2) :: tr2). split; [done|].
      rewrite !fmap_cons. simpl. by rewrite Heq.
Qed.
End renaming.

(** ** [DFSVisit] *)

Lemma DFSVisit_trace {S} h s (fvisit : nat → Node → S → S) st :
  DFSVisit h s fvisit st = run_visitor fvisit st <$> DFS_trace h s.
Proof.
  unfold DFSVisit, DFS_trace.
  destruct (push_new _ _ _) as [stack visited]. apply dfs_loop_list.
Qed.

Lemma DFS_trace_unfold h s :
  DFS_trace h s
    = dfs_list h (size h) (reverse (new_of (source <$> heads_ s) ∅))
        (list_to_set (source <$> heads_ s)).
Proof.
  unfold DFS_trace. rewrite push_new_spec, new_of_marks.
  by rewrite (right_id_L [] (++)), (right_id_L ∅ (∪)).
Qed.

Lemma heads_stack_discovered s :
  reverse (new_of (source <$> heads_ s) ∅)
    = discovered (reverse (source <$> heads_ s)) ∅.
Proof. by rewrite <-discovered_pushed, reverse_involutive. Qed.

(** The state in which the loop is entered. *)
Lemma loop_inv_heads h s :
  heads_in h s →
  loop_inv h ∅ (reverse (new_of (source <$> heads_ s) ∅))
    (list_to_set (source <$> heads_ s)).
Proof.
  intros Hin. split_and!.
  - rewrite (left_id_L ∅ (∪)), list_to_set_reverse_L.
    rewrite <-(right_id_L ∅ (∪) (list_to_set (new_of _ _))), new_of_marks.
    by rewrite (right_id_L ∅ (∪)).
  - rewrite reverse_Permutation. apply new_of_NoDup.
  - intros p _. apply not_elem_of_empty.
  - intros p [Hp _]%elem_of_reverse%new_of_fresh.
    apply list_elem_of_fmap in Hp as (e & -> & He). by apply Hin.
  - apply empty_subseteq.
Qed.

Lemma heads_on_stack s e :
  e ∈ heads_ s → source e ∈ reverse (new_of (source <$> heads_ s) ∅).
Proof.
  intros He. apply elem_of_reverse.
  assert (source e ∈ list_to_set (new_of (source <$> heads_ s) ∅) ∪ (∅ : gset nat))
    as Hm.
  { rewrite new_of_marks. apply elem_of_union_l, elem_of_list_to_set.
    by apply list_elem_of_fmap_2. }
  apply elem_of_union in Hm as [Hm|Hm]; [by apply elem_of_list_to_set in Hm|].
  by apply not_elem_of_empty in Hm.
Qed.

(** On a closed heap the traversal ends and yields its sequence of nodes. *)
Lemma DFS_trace_total h s :
  closed h → heads_in h s → is_Some (DFS_trace h s).
Proof.
  intros Hcl Hin. rewrite DFS_trace_unfold.
  eapply dfs_list_total; [done|by apply loop_inv_heads|].
  rewrite size_empty. lia.
Qed.

Lemma DFS_trace_lookup h s tr p n :
  DFS_trace h s = Some tr → (p, n) ∈ tr → h !! p = Some n.
Proof.
  rewrite DFS_trace_unfold. intros Htr Hp.
  eapply (dfs_list_sound h (λ _, True)); eauto.
Qed.

Lemma DFS_trace_NoDup h s tr :
  closed h → heads_in h s → DFS_trace h s = Some tr → NoDup tr.*1.
Proof.
  rewrite DFS_trace_unfold. intros Hcl Hin Htr.
  eapply dfs_list_NoDup; [done|by apply loop_inv_heads|exact Htr].
Qed.

Lemma DFS_trace_reachable h s tr p :
  closed h → heads_in h s → DFS_trace h s = Some tr →
  p ∈ tr.*1 ↔ reachable h s p.
Proof.
  rewrite DFS_trace_unfold. intros Hcl Hin Htr. split.
  - intros ([q n] & -> & Hq)%list_elem_of_fmap. simpl.
    eapply (dfs_list_sound h (reachable h s)); [| |exact Htr|exact Hq].
    + intros. by eapply reachable_input.
    + intros q' [Hq' _]%elem_of_reverse%new_of_fresh.
      apply list_elem_of_fmap in Hq' as (e & -> & He).
      by apply reachable_head.
  - induction 1 as [e He|q n e _ IH Hn He].
    + eapply elem_of_sublist; [by apply heads_on_stack|].
      by eapply dfs_list_sublist.
    + apply list_elem_of_fmap in IH as ([q' n'] & -> & Hq). simpl in Hn.
      assert (h !! q' = Some n') as Hn'.
      { eapply (dfs_list_sound h (λ _, True)); eauto. }
      assert (n' = n) as -> by congruence.
      destruct (dfs_list_inputs h _ _ _ _ _ Hcl (loop_inv_heads h s Hin) Htr
                  q' n e Hq He) as [Hd|Hd]; [|done].
      by apply not_elem_of_empty in Hd.
Qed.

Lemma DFS_trace_discovered h s tr pre p n post :
  DFS_trace h s = Some tr →
  tr = pre ++ (p, n) :: post →
  sublist (discovered (source <$> inputs n) (marked_before s pre)) post.*1.
Proof.
  rewrite DFS_trace_unfold. intros Htr Heq.
  by eapply dfs_list_discovered.
Qed.

Lemma closedb_closed h : closedb h = true → closed h.
Proof.
  intros Hb%bool_decide_eq_true p n e Hp He.
  specialize (Hb p n Hp). simpl in Hb.
  rewrite Forall_forall in Hb. by apply Hb.
Qed.

Lemma heads_inb_heads_in h s : heads_inb h s = true → heads_in h s.
Proof.
  intros Hb%bool_decide_eq_true e He.
  rewrite Forall_forall in Hb. by apply Hb.
Qed.

Lemma run_visitor_order (tr : list (nat * Node)) (acc : list nat) :
  run_visitor (λ p _ acc, acc ++ [p]) acc tr = acc ++ tr.*1.
Proof.
  revert acc. induction tr as [|[p n] tr IH]; intros acc; simpl.
  - by rewrite app_nil_r.
  - unfold run_visitor in *. simpl. rewrite IH, <-app_assoc. done.
Qed.

Lemma run_visitor_snoc {S} (fvisit : nat → Node → S → S) st tr p n :
  run_visitor fvisit st (tr ++ [(p, n)])
    = fvisit p n (run_visitor fvisit st tr).
Proof. unfold run_visitor. by rewrite foldl_app. Qed.

Lemma visit_order_trace h s :
  visit_order h s = (λ tr : list (nat * Node), tr.*1) <$> DFS_trace h s.
Proof.
  unfold visit_order. rewrite DFSVisit_trace.
  destruct (DFS_trace h s) as [tr|]; [|done]. simpl.
  by rewrite run_visitor_order.
Qed.

(** The order of the traversal depends on the structure of the graph only:
    under a renaming of addresses that keeps the structure, the visited
    addresses are the renamed ones, in the same order. *)
Lemma visit_order_rename ρ h1 s1 h2 s2 :
  closed h1 → heads_in h1 s1 →
  same_structure ρ h1 s1 h2 s2 →
  ∃ order, visit_order h1 s1 = Some order ∧
    visit_order h2 s2 = Some (ρ <$> order).
Proof.
  intros Hcl Hin (Hinj & Hheads & Hnode).
  destruct (DFS_trace_total h1 s1 Hcl Hin) as [tr1 Htr1].
  exists tr1.*1. rewrite !visit_order_trace, Htr1. split; [done|].
  pose proof (DFS_trace_NoDup h1 s1 tr1 Hcl Hin Htr1) as Hnd.
  assert (∀ p, p ∈ tr1.*1 → reachable h1 s1 p) as Hreach.
  { intros p Hp. by eapply DFS_trace_reachable. }
  rewrite DFS_trace_unfold, heads_stack_discovered in Htr1.
  assert (∀ p, p ∈ discovered (reverse (source <$> heads_ s1)) ∅ →
            reachable h1 s1 p) as Hst.
  { intros p [Hp _]%discovered_fresh. rewrite elem_of_reverse in Hp.
    apply list_elem_of_fmap in Hp as (e & -> & He). by apply reachable_head. }
  assert (∀ p, p ∈ (list_to_set (source <$> heads_ s1) : gset nat) →
            reachable h1 s1 p) as HV.
  { intros p Hp%elem_of_list_to_set.
    apply list_elem_of_fmap in Hp as (e & -> & He). by apply reachable_head. }
  destruct (dfs_list_rename ρ (reachable h1 s1) Hinj h1 h2 _ _ _ _
              (λ p n e Hp Hn He, reachable_input h1 s1 p n e Hp Hn He)
              Hnode Hst HV Htr1) as (tr2 & Htr2 & Heq).
  assert (set_map ρ (∅ : gset nat) = (∅ : gset nat)) as Hempty.
  { apply set_eq. intros x. rewrite elem_of_map. split.
    - intros (y & _ & Hy). by apply not_elem_of_empty in Hy.
    - intros Hx. by apply not_elem_of_empty in Hx. }
  rewrite <-(right_id_L ∅ (∪) (list_to_set _)) in Htr2.
  rewrite <-(set_map_marks ρ), Hempty, (right_id_L ∅ (∪)) in Htr2.
  rewrite <-(discovered_rename ρ (reachable h1 s1)), Hempty in Htr2.
  - rewrite DFS_trace_unfold, heads_stack_discovered, Hheads.
    rewrite <-fmap_reverse.
    erewrite dfs_list_fuel_length; [by rewrite <-Heq|exact Htr2|].
    rewrite <-(length_fmap fst). apply NoDup_length_size.
    + rewrite Heq. apply NoDup_fmap_2_strong; [|done].
      intros p q Hp Hq. apply Hinj; by apply Hreach.
    + intros p ([q n] & -> & Hq)%list_elem_of_fmap. simpl.
      exists n. eapply (dfs_list_sound h2 (λ _, True)); eauto.
  - exact Hinj.
  - intros p Hp. rewrite elem_of_reverse in Hp.
    apply list_elem_of_fmap in Hp as (e & -> & He). by apply reachable_head.
  - intros p Hp. by apply not_elem_of_empty in Hp.
Qed.

(** C5 (as written, refuted).  The node at address 0 has the inputs
    [x; y; x].  When it is visited neither input is marked; a scan from left
    to right meets [x] first, but the traversal visits [y] before [x]. *)
Lemma DFSVisit_repeated_input_not_left_to_right :
  let mul := mkOp "Mul3" ["a"; "b"; "c"] ["output"] 1 in
  let x := mkNode None None "x" [] in
  let y := mkNode None None "y" [] in
  let f := mkNode None (Some mul) "f" [mkEntry 1 0; mkEntry 2 0; mkEntry 1 0] in
  let h : gmap nat Node := {[ 0 := f; 1 := x; 2 := y ]} in
  let s := mkSymbol [mkEntry 0 0] in
  DFS_trace h s = Some [(0, f); (2, y); (1, x)] ∧
  ListArguments h s = Some ["y"; "x"] ∧
  met_left_to_right (source <$> inputs f) (marked_before s []) = [1; 2] ∧
  ¬ sublist (met_left_to_right (source <$> inputs f) (marked_before s []))
      [2; 1].
Proof.
  split_and!; [vm_compute; reflexivity..|].
  replace (met_left_to_right _ _) with [1; 2] by (vm_compute; reflexivity).
  intros Hsub.
  repeat match goal with
         | H : sublist _ _ |- _ => inversion H; clear H; subst
         end.
Qed.

(** C5 (amended).  On a closed heap [DFSVisit] ends, and whatever the visitor
    is, it is called on one sequence of nodes that depends on the heap and
    the heads only.  The sequence holds every node reachable from the heads
    and no other, each once, with the node stored at its address.  When a
    node is visited, those of its inputs that are not marked yet are visited
    later, in left-to-right order, an input that occurs several times among
    the inputs of the node taking the place of its last occurrence.  The
    order depends on the structure of the graph only: a graph with the same
    structure under a renaming of the addresses is visited in the renamed
    order. *)
Theorem DFSVisit_visits_reachable_once h s :
  closed h →
  heads_in h s →
  ∃ tr,
    (∀ S (fvisit : nat → Node → S → S) st,
       DFSVisit h s fvisit st = Some (run_visitor fvisit st tr)) ∧
    NoDup tr.*1 ∧
    (∀ p, p ∈ tr.*1 ↔ reachable h s p) ∧
    (∀ p n, (p, n) ∈ tr → h !! p = Some n) ∧
    (∀ pre p n post, tr = pre ++ (p, n) :: post →
       sublist (discovered (source <$> inputs n) (marked_before s pre))
         post.*1) ∧
    (∀ pre p n post, tr = pre ++ (p, n) :: post →
       NoDup (source <$> inputs n) →
       sublist
         (filter (λ q, q ∉ marked_before s pre) (source <$> inputs n))
         post.*1) ∧
    (∀ ρ h2 s2, same_structure ρ h s h2 s2 →
       visit_order h2 s2 = Some (ρ <$> tr.*1)).
Proof.
  intros Hcl Hin. destruct (DFS_trace_total h s Hcl Hin) as [tr Htr].
  exists tr. split_and!.
  - intros S fvisit st. by rewrite DFSVisit_trace, Htr.
  - by eapply DFS_trace_NoDup.
  - intros p. by eapply DFS_trace_reachable.
  - intros p n. by eapply DFS_trace_lookup.
  - intros pre p n post. by eapply DFS_trace_discovered.
  - intros pre p n post Heq Hnd. rewrite <-discovered_distinct by done.
    by eapply DFS_trace_discovered.
  - intros ρ h2 s2 Hsame.
    destruct (visit_order_rename ρ h s h2 s2 Hcl Hin Hsame)
      as (order & Ho & ->).
    rewrite visit_order_trace, Htr in Ho. by injection Ho as <-.
Qed.

Lemma DFSVisit_visits_reachable_once_witness :
  let mul := mkOp "Mul" ["lhs"; "rhs"] ["output"] 1 in
  let x := mkNode None None "x" [] in
  let f := mkNode None (Some mul) "f" [mkEntry 1 0; mkEntry 1 0] in
  let g := mkNode None (Some mul) "g" [mkEntry 0 0; mkEntry 1 0] in
  let h : gmap nat Node := {[ 0 := f; 1 := x; 2 := g ]} in
  let s := mkSymbol [mkEntry 2 0] in
  visit_order h s = Some [2; 0; 1] ∧
  ∃ tr : list (nat * Node), tr.*1 = [2; 0; 1] ∧ NoDup tr.*1 ∧
    (∀ p, p ∈ tr.*1 ↔ reachable h s p).
Proof.
  intros mul x f g h s. split; [vm_compute; reflexivity|].
  destruct (DFSVisit_visits_reachable_once h s) as (tr & Hv & Hnd & Hr & _).
  - apply closedb_closed. vm_compute. reflexivity.
  - apply heads_inb_heads_in. vm_compute. reflexivity.
  - exists tr. split_and!; [|done..].
    specialize (Hv (list nat) (λ p _ acc, acc ++ [p]) []).
    rewrite run_visitor_order in Hv. simpl in Hv.
    assert (visit_order h s = Some [2; 0; 1]) as Hc by (vm_compute; reflexivity).
    unfold visit_order in Hc. congruence.
Defined.

(** ** [ListArguments] and [ListReturns] *)

Lemma run_visitor_ListArguments tr acc :
  run_visitor ListArguments_visit acc tr = acc ++ arg_names tr.
Proof.
  revert acc. induction tr as [|[p n] tr IH]; intros acc.
  - by rewrite app_nil_r.
  - unfold run_visitor in *. simpl. rewrite IH.
    unfold ListArguments_visit, arg_names. rewrite filter_cons. simpl.
    destruct (node_is_variable n); simpl; [|done].
    by rewrite <-app_assoc.
Qed.

Lemma arg_names_app tr1 tr2 :
  arg_names (tr1 ++ tr2) = arg_names tr1 ++ arg_names tr2.
Proof. unfold arg_names. by rewrite filter_app, fmap_app. Qed.

(** [ListArguments] on a symbol that is not atomic. *)
Lemma ListArguments_composite h s :
  is_atomic h s = false →
  ListArguments h s = arg_names <$> DFS_trace h s.
Proof.
  intros Hat. unfold ListArguments. rewrite Hat, DFSVisit_trace.
  destruct (DFS_trace h s) as [tr|]; [|done]. simpl.
  by rewrite run_visitor_ListArguments.
Qed.

Lemma discovered_two a b (visited : gset nat) :
  a ≠ b → a ∉ visited → b ∉ visited → discovered [a; b] visited = [a; b].
Proof.
  intros Hab Ha Hb. unfold discovered. simpl.
  destruct (decide_rel elem_of a [b]) as [Hin|_].
  { apply list_elem_of_singleton in Hin. done. }
  destruct (decide_rel elem_of b []) as [Hin|_].
  { by apply elem_of_nil in Hin. }
  rewrite filter_cons_True by done. by rewrite filter_cons_True by done.
Qed.

(** The traversal from a head whose inputs are an edge to [xh] and an edge
    to a variable [w] without inputs: the head, then what is met under [xh],
    then [w]. *)
Lemma ListArguments_two_inputs h s hd n xh w i wn :
  closed h →
  heads_ s = [hd] →
  h !! source hd = Some n →
  inputs n = [xh; mkEntry w i] →
  node_is_variable n = false →
  h !! w = Some wn → inputs wn = [] → node_is_variable wn = true →
  source xh ≠ source hd → w ≠ source hd → w ≠ source xh →
  ∃ tr_x,
    dfs_list h (size h) [source xh] {[source hd; source xh; w]} = Some tr_x ∧
    ListArguments h s = Some (arg_names tr_x ++ [name wn]).
Proof.
  intros Hcl Hs Hn Hin Hvar Hw Hwin Hwvar Hx1 Hw1 Hw2.
  destruct s as [hs]. simpl in Hs. subst hs. set (s := mkSymbol [hd]).
  assert (heads_in h s) as Hheads.
  { intros e ->%list_elem_of_singleton. by eexists. }
  destruct (DFS_trace_total h s Hcl Hheads) as [tr Htr].
  assert (is_atomic h s = false) as Hat.
  { unfold is_atomic. simpl. rewrite Hn. unfold node_is_atomic.
    by rewrite Hin. }
  rewrite (ListArguments_composite h s Hat), Htr. simpl.
  rewrite DFS_trace_unfold in Htr. simpl in Htr.
  rewrite decide_False in Htr by apply not_elem_of_empty.
  cbn [new_of reverse rev_append] in Htr.
  change (reverse [source hd]) with [source hd] in Htr.
  apply dfs_list_inv in Htr as (f & m & tr' & Hsize & Hm & -> & Htr).
  assert (m = n) as -> by congruence. rewrite Hin in Htr. simpl in Htr.
  rewrite discovered_two in Htr; [|done|set_solver..].
  rewrite app_nil_r in Htr.
  apply (dfs_list_app h f [source xh] [w]) in Htr
    as (tr1 & tr2 & -> & Htr1 & Htr2).
  apply (dfs_list_leaf h f w wn) in Htr2 as ->; [|done..].
  exists tr1. split.
  - rewrite Hsize. eapply dfs_list_fuel; [|apply Nat.le_succ_diag_r].
    rewrite <-Htr1. f_equal. set_solver.
  - f_equal. unfold arg_names at 1. rewrite filter_cons. simpl.
    rewrite decide_False by (by rewrite Hvar).
    fold (arg_names (tr1 ++ [(w, wn)])). rewrite arg_names_app. f_equal.
    unfold arg_names. rewrite filter_cons. simpl.
    by rewrite decide_True by done.
Qed.



(** The nodes that [Grad] attaches, lines 396-405, have no operator; with a
    backward-source id other than -1 they carry a backward source. *)
Lemma Grad_attach_node h shared_node it h' shared_node' :
  Grad_attach (Some (h, shared_node)) it = Some (h', shared_node') →
  ∃ p n, shared_node' = shared_node ++ [p] ∧ h !! p = None ∧
    h' !! p = Some n ∧ op n = None ∧ name n = sn_name it ∧
    (sn_backward_source_id it ≠ (-1)%Z → is_Some (backward_source_node n)).
Proof.
  unfold Grad_attach. simpl.
  destruct (if decide _ then _ else _) as [bsn|] eqn:Hbsn; simpl; [|done].
  destruct (mapM _ _) as [ins|]; simpl; [|done].
  intros [= <- <-].
  exists (fresh_ptr h), (set_inputs ins (mkNode bsn None (sn_name it) [])).
  split_and!; try done.
  - apply not_elem_of_dom. unfold fresh_ptr. apply is_fresh.
  - by rewrite lookup_alter_eq, lookup_insert_eq.
  - intros Hne. simpl. rewrite decide_False in Hbsn by done.
    case_decide; [|done].
    destruct (shared_node !! _); simplify_eq/=. eauto.
Qed.


(** ** Keyword mismatch reports *)

Lemma KeywordArgumentMismatch_first src user_args args k :
  k ∈ user_args → k ∉ args →
  ∃ key pre post,
    user_args = pre ++ key :: post ∧ Forall (λ y, y ∈ args) pre ∧
    (key ∉ args) ∧
    KeywordArgumentMismatch src user_args args
      = Fail (UnmatchedKeyword src key args).
Proof.
  intros Hin Hout. unfold KeywordArgumentMismatch.
  destruct (find_some_exists (λ key, negb (bool_decide (key ∈ args)))
              user_args k Hin) as [key Hkey].
  { by rewrite bool_decide_eq_false_2. }
  rewrite Hkey.
  apply find_first_split in Hkey as (pre & post & -> & Hk & Hpre).
  exists key, pre, post. split_and!; [done| | |done].
  - eapply Forall_impl; [exact Hpre|]. simpl. intros y Hy.
    apply negb_false_iff, bool_decide_eq_true in Hy. done.
  - apply negb_true_iff, bool_decide_eq_false in Hk. done.
Qed.

(** C4 (as written, refuted).  Two supplied keys are not candidates of the
    operator; the failure names only the first of them. *)
Lemma Compose_kwargs_reports_first_key_only :
  let fc := mkOp "FullyConnected" ["data"; "weight"] ["output"] 1 in
  let '(h0, s) := Create ∅ fc in
  let '(h1, y) := CreateVariable h0 "y" in
  let r := Compose_kwargs h1 s [("alpha", y); ("beta", y)] "fc" in
  r.2 = Fail (UnmatchedKeyword "Symbol.Compose" "alpha" ["data"; "weight"]) ∧
  ¬ reports_all_unmatched ["alpha"; "beta"] ["data"; "weight"] r.2.
Proof.
  vm_compute. split; [reflexivity|]. intros [H _]. discriminate H.
Qed.

(** ** Allocation and the name of the head *)

Lemma fresh_ptr_unused (h : gmap nat Node) : h !! fresh_ptr h = None.
Proof. apply not_elem_of_dom. unfold fresh_ptr. apply is_fresh. Qed.

Lemma alloc_extends (h : gmap nat Node) n : h ⊆ (alloc h n).1.
Proof. apply insert_subseteq, fresh_ptr_unused. Qed.

Section rename.
Context (h : gmap nat Node) (p0 : nat) (n0 : Node) (nm : string).
Hypothesis Hp0 : h !! p0 = Some n0.

Lemma rename_lookup p :
  <[p0 := set_name nm n0]> h !! p
    = (if decide (p = p0) then set_name nm else id) <$> h !! p.
Proof.
  destruct (decide (p = p0)) as [->|Hne].
  - by rewrite lookup_insert_eq, Hp0.
  - rewrite lookup_insert_ne by done. by destruct (h !! p).
Qed.

Lemma rename_same_edges : same_edges h (<[p0 := set_name nm n0]> h).
Proof.
  intros p. rewrite rename_lookup.
  destruct (h !! p) as [n|]; [|done]. simpl. by case_decide.
Qed.

Lemma rename_variable p :
  is_variable_at (<[p0 := set_name nm n0]> h) p = is_variable_at h p.
Proof.
  unfold is_variable_at. rewrite rename_lookup.
  destruct (h !! p) as [n|]; [|done]. simpl. by case_decide.
Qed.
End rename.

Lemma same_edges_closed h h' : same_edges h h' → closed h → closed h'.
Proof.
  intros He Hcl p n e Hp Hin.
  pose proof (He p) as Hp'. rewrite Hp in Hp'.
  destruct (h !! p) as [m|] eqn:Hm; [|done]. injection Hp' as Hp'.
  destruct (Hcl p m e Hm) as [k Hk]; [by rewrite Hp'|].
  pose proof (He (source e)) as Hs. rewrite Hk in Hs.
  destruct (h' !! source e); [by eexists|done].
Qed.

Lemma same_edges_heads_in h h' s :
  same_edges h h' → heads_in h s → heads_in h' s.
Proof.
  intros He Hin e Hs. destruct (Hin e Hs) as [k Hk].
  pose proof (He (source e)) as Hs'. rewrite Hk in Hs'.
  destruct (h' !! source e); [by eexists|done].
Qed.

Lemma same_edges_reachable h h' s p :
  same_edges h h' → reachable h s p → reachable h' s p.
Proof.
  intros He. induction 1 as [e Hs|q n e _ IH Hn Hin].
  - by apply reachable_head.
  - pose proof (He q) as Hq. rewrite Hn in Hq.
    destruct (h' !! q) as [m|] eqn:Hm; [|done]. injection Hq as Hq.
    eapply reachable_input; [exact IH|exact Hm|by rewrite <-Hq].
Qed.

Lemma same_edges_sym h h' : same_edges h h' → same_edges h' h.
Proof. intros He p. by rewrite He. Qed.

Lemma is_atomic_single h hd n :
  h !! source hd = Some n →
  is_atomic h (mkSymbol [hd]) = node_is_atomic n.
Proof. intros Hn. unfold is_atomic. simpl. by rewrite Hn. Qed.

Lemma node_is_atomic_inputs n : node_is_atomic n = true → inputs n = [].
Proof.
  unfold node_is_atomic. intros [Hl _]%andb_true_iff.
  apply Nat.eqb_eq in Hl. by destruct (inputs n).
Qed.

(** ** [Copy] *)

Lemma Copy_visit_inv h tr hn old_new :
  (∀ p n, (p, n) ∈ tr → h !! p = Some n) →
  run_visitor Copy_visit (h, ∅) tr = (hn, old_new) →
  copy_inv h hn old_new.
Proof.
  revert hn old_new. induction tr as [|[p n] tr IH] using rev_ind;
    intros hn old_new Htr.
  - intros [= <- <-]. split_and!; [done| |].
    + intros p q Hp. by rewrite lookup_empty in Hp.
    + intros q n Hq Hn. congruence.
  - rewrite run_visitor_snoc.
    destruct (run_visitor Copy_visit (h, ∅) tr) as [hn0 old_new0].
    destruct (IH hn0 old_new0) as (Hsub & Hval & Hnew); [|done|].
    { intros p' n' Hp'. apply Htr, elem_of_app. by left. }
    assert (h !! p = Some n) as Hpn.
    { apply Htr, elem_of_app. right. by left. }
    unfold Copy_visit, alloc.
    pose proof (fresh_ptr_unused hn0) as Hfresh.
    assert (h !! fresh_ptr hn0 = None) as Hfresh'.
    { destruct (h !! fresh_ptr hn0) as [m|] eqn:Hm; [|done].
      eapply lookup_weaken in Hm; [|exact Hsub]. congruence. }
    set (m := match op n with
              | None => mkNode None None (name n) []
              | Some o => mkNode None (Some (op_Copy o)) (name n) []
              end).
    assert (name m = name n ∧ op m = op_Copy <$> op n ∧
            backward_source_node m = None) as (Hname & Hop & Hbsn).
    { unfold m. by destruct (op n). }
    assert (run_visitor_state :
              (let '(hn', q) :=
                 match op n with
                 | None => (<[fresh_ptr hn0 := mkNode None None (name n) []]> hn0,
                            fresh_ptr hn0)
                 | Some o =>
                     (<[fresh_ptr hn0 :=
                          mkNode None (Some (op_Copy o)) (name n) []]> hn0,
                      fresh_ptr hn0)
                 end in (hn', <[p := q]> old_new0))
              = (<[fresh_ptr hn0 := m]> hn0, <[p := fresh_ptr hn0]> old_new0)).
    { unfold m. by destruct (op n). }
    rewrite run_visitor_state. intros [= <- <-]. split_and!.
    + etrans; [exact Hsub|by apply insert_subseteq].
    + intros p' q Hq. destruct (decide (p' = p)) as [->|Hne].
      * rewrite lookup_insert_eq in Hq. injection Hq as <-.
        split; [done|]. exists n, m. by rewrite lookup_insert_eq.
      * rewrite lookup_insert_ne in Hq by done.
        destruct (Hval p' q Hq) as (Hq1 & n' & m' & Hn' & Hm' & Hnm).
        split; [done|]. exists n', m'. split_and!; [done| |apply Hnm..].
        eapply lookup_weaken; [exact Hm'|by apply insert_subseteq].
    + intros q k Hq Hk. destruct (decide (q = fresh_ptr hn0)) as [->|Hne].
      * rewrite lookup_insert_eq in Hq. by injection Hq as <-.
      * rewrite lookup_insert_ne in Hq by done. by eapply Hnew.
Qed.

Lemma Copy_connect_none old_new l :
  foldl (Copy_connect old_new) None l = None.
Proof. induction l as [|kv l IH]; [done|]. exact IH. Qed.

Lemma Copy_connect_inv h old_new om l hn hn' :
  foldl (Copy_connect om) (Some hn) l = Some hn' →
  (∀ kv, kv ∈ l → h !! kv.2 = None) →
  copy_inv h hn old_new →
  copy_inv h hn' old_new.
Proof.
  revert hn. induction l as [|[p q] l IH]; intros hn Hfold Hl Hinv.
  - by injection Hfold as <-.
  - simpl in Hfold.
    destruct (hn !! p) as [n|] eqn:Hn; simpl in Hfold;
      [|by rewrite Copy_connect_none in Hfold].
    destruct (mapM (remap om) (inputs n)) as [ins|]; simpl in Hfold;
      [|by rewrite Copy_connect_none in Hfold].
    apply IH in Hfold; [done|intros kv Hkv; apply Hl; by right|].
    destruct Hinv as (Hsub & Hval & Hnew).
    assert (h !! q = None) as Hq by (apply (Hl (p, q)); by left).
    split_and!.
    + apply map_subseteq_spec. intros r m Hr.
      rewrite lookup_alter_ne by congruence. by eapply lookup_weaken.
    + intros p' q' Hp'.
      destruct (Hval p' q' Hp') as (H1 & n' & m' & Hn' & Hm' & Hnm).
      split; [done|]. destruct (decide (q' = q)) as [->|Hne].
      * exists n', (set_inputs (inputs m' ++ ins) m').
        rewrite lookup_alter_eq, Hm'. done.
      * exists n', m'. by rewrite lookup_alter_ne.
    + intros r m Hr Hr'. destruct (decide (r = q)) as [->|Hne].
      * rewrite lookup_alter_eq in Hr.
        destruct (hn !! q) as [m0|] eqn:Hm0; [|done].
        injection Hr as <-. simpl. by eapply Hnew.
      * rewrite lookup_alter_ne in Hr by done. by eapply Hnew.
Qed.

Lemma Copy_inv h s h' s' :
  Copy h s = Some (h', s') →
  ∃ old_new, copy_inv h h' old_new ∧
    mapM (remap old_new) (heads_ s) = Some (heads_ s').
Proof.
  unfold Copy. rewrite DFSVisit_trace.
  destruct (DFS_trace h s) as [tr|] eqn:Htr; [|done]. simpl.
  destruct (run_visitor Copy_visit (h, ∅) tr) as [hn old_new] eqn:Hrun.
  apply Copy_visit_inv in Hrun;
    [|intros p n Hp; by eapply DFS_trace_lookup].
  destruct (foldl _ _ _) as [hn'|] eqn:Hfold; [|done]. simpl.
  destruct (mapM _ (heads_ s)) as [hs|] eqn:Hheads; [|done].
  intros [= <- <-]. exists old_new. split; [|done].
  eapply Copy_connect_inv; [exact Hfold| |exact Hrun].
  intros [p q] Hkv%elem_of_map_to_list.
  by destruct Hrun as (_ & Hval & _), (Hval p q Hkv).
Qed.

(** C2 (the source departs from the claim).  [Copy] leaves the nodes of the
    source heap as they are and creates no node with a backward source.  The
    heads of the copy are, in order and with the same indices, new nodes
    with the names and the cloned operators of the source heads, so the copy
    of a gradient head, which has a backward source and no operator, has no
    backward source and has become a variable.  Lines 124-128 build the new
    node from the operator and the name alone, where [ToStaticGraph], lines
    508-513, carries the link over. *)
Theorem Copy_drops_backward_source h s h' s' :
  Copy h s = Some (h', s') →
  h ⊆ h' ∧
  (∀ q n, h' !! q = Some n → h !! q = None → backward_source_node n = None) ∧
  Forall2 (λ e e',
      index e' = index e ∧ h !! source e' = None ∧
      ∃ n n', h !! source e = Some n ∧ h' !! source e' = Some n' ∧
        name n' = name n ∧ op n' = op_Copy <$> op n ∧
        backward_source_node n' = None ∧
        (op n = None → node_is_variable n' = true))
    (heads_ s) (heads_ s').
Proof.
  intros (old_new & (Hsub & Hval & Hnew) & Hheads)%Copy_inv.
  split_and!; [done|done|].
  apply mapM_Some in Hheads. eapply Forall2_impl; [exact Hheads|].
  intros e e' He. unfold remap in He.
  destruct (old_new !! source e) as [q|] eqn:Hq; [|done].
  injection He as <-. simpl.
  destruct (Hval _ _ Hq) as (Hfresh & n & n' & Hn & Hn' & Hname & Hop).
  split_and!; [done..|]. exists n, n'.
  pose proof (Hnew q n' Hn' Hfresh) as Hbsn.
  split_and!; [done..|].
  intros Hnone. unfold node_is_variable.
  by rewrite Hop, Hnone, Hbsn.
Qed.

Lemma Copy_drops_backward_source_witness :
  let mul := mkOp "Mul" ["lhs"; "rhs"] ["output"] 1 in
  let g := mkNode (Some 0) None "z_backward" [mkEntry 0 0; mkEntry 2 0] in
  let h : gmap nat Node :=
    {[ 0 := mkNode None (Some mul) "z" [mkEntry 1 0; mkEntry 2 0];
       1 := mkNode None None "x" [];
       2 := mkNode None None "y" [];
       3 := g ]} in
  let s := mkSymbol [mkEntry 3 0] in
  h !! 3 = Some g ∧ node_is_variable g = false ∧
  ∃ (h' : gmap nat Node) e' n',
    Copy h s = Some (h', mkSymbol [e']) ∧
    h' !! source e' = Some n' ∧ name n' = "z_backward"%string ∧
    backward_source_node n' = None ∧ node_is_variable n' = true.
Proof.
  intros mul g h s. split_and!; [vm_compute; reflexivity..|].
  destruct (Copy h s) as [[h' s']|] eqn:Hc; [|vm_compute in Hc; discriminate].
  destruct (Copy_drops_backward_source h s h' s' Hc) as (_ & _ & Hheads).
  destruct s' as [hs']. simpl in Hheads.
  apply Forall2_cons_inv_l in Hheads as (e' & tl & He' & Htl & ->).
  apply Forall2_nil_inv_l in Htl as ->.
  destruct He' as (_ & _ & n & n' & Hn & Hn' & Hname & _ & Hbsn & Hvar).
  assert (n = g) as -> by (vm_compute in Hn; by injection Hn as <-).
  exists h', e', n'. split_and!; [reflexivity|exact Hn'|exact Hname|exact Hbsn|].
  apply Hvar. reflexivity.
Defined.

(** C6 (the source departs from the claim).  The symbol is the gradient
    head that [Grad] attaches to [z = Mul(x, y)].  Its copy shares no node
    with it, but the copied head has lost its backward source and counts as
    a variable: [ListArguments()] gains the name of the gradient node, and
    [ListReturns()], undefined on the source, returns that name on the
    copy. *)
Theorem Copy_gradient_symbol_lists_differ :
  let mul := mkOp "Mul" ["lhs"; "rhs"] ["output"] 1 in
  let h : gmap nat Node :=
    {[ 0 := mkNode None (Some mul) "z" [mkEntry 1 0; mkEntry 2 0];
       1 := mkNode None None "x" [];
       2 := mkNode None None "y" [];
       3 := mkNode (Some 0) None "z_backward" [mkEntry 0 0; mkEntry 2 0] ]} in
  let s := mkSymbol [mkEntry 3 0] in
  closed h ∧ heads_in h s ∧
  ListArguments h s = Some ["x"; "y"] ∧
  (Copy h s ≫= λ c, ListArguments c.1 c.2) = Some ["z_backward"; "x"; "y"] ∧
  ListReturns h s = None ∧
  (Copy h s ≫= λ c, ListReturns c.1 c.2) = Some ["z_backward"] ∧
  (heads_ <$> (snd <$> Copy h s)) = Some [mkEntry 4 0].
Proof.
  intros mul h s. split_and!.
  - apply closedb_closed. vm_compute. reflexivity.
  - apply heads_inb_heads_in. vm_compute. reflexivity.
  - vm_compute. reflexivity.
  - vm_compute. reflexivity.
  - vm_compute. reflexivity.
  - vm_compute. reflexivity.
  - vm_compute. reflexivity.
Qed.

(** ** Positional composition *)

(** C1 (the source departs from the claim).  Once the target passed its own
    two checks, positional [Compose] fails with [UnsupportedTupleArgument]
    exactly when some supplied argument has exactly one return: line 232
    reads [CHECK_NE] where the keyword overload, line 290, reads
    [CHECK_EQ]. *)
Theorem Compose_tuple_check_inverted h s args nm hd n0 :
  heads_ s = [hd] →
  h !! source hd = Some n0 →
  node_is_variable n0 = false →
  (∃ i, (Compose h s args nm).2 = Fail (UnsupportedTupleArgument i)) ↔
  (∃ a, a ∈ args ∧ NumReturns a = 1).
Proof.
  intros Hs Hhd Hvar. destruct s as [hs]. simpl in Hs. subst hs.
  unfold Compose. simpl. rewrite Hhd, Hvar.
  destruct (list_find _ args) as [[i a]|] eqn:Hfind.
  - apply list_find_Some in Hfind as (Hi & Ha & _). simpl. split.
    + intros _. exists a. split; [by eapply list_elem_of_lookup_2|done].
    + intros _. by exists i.
  - apply list_find_None in Hfind. split.
    + intros [i Hi]. exfalso. revert Hi.
      repeat case_match; simpl; congruence.
    + intros (a & Ha & Hn). exfalso.
      rewrite Forall_forall in Hfind. by apply (Hfind a).
Qed.

Lemma Compose_tuple_check_inverted_witness :
  let fc := mkOp "Activation" ["data"] ["output"] 1 in
  let h0 := (Create ∅ fc).1 in
  let s := (Create ∅ fc).2 in
  let h1 := (CreateVariable h0 "x").1 in
  let x := (CreateVariable h0 "x").2 in
  NumReturns x = 1 ∧
  ∃ i, (Compose h1 s [x] "act").2 = Fail (UnsupportedTupleArgument i).
Proof.
  intros fc h0 s h1 x. split; [reflexivity|].
  apply (Compose_tuple_check_inverted h1 s [x] "act"
           (mkEntry 0 0) (mkNode None (Some fc) EmptyString [])).
  - reflexivity.
  - vm_compute. reflexivity.
  - reflexivity.
  - exists x. split; [apply list_elem_of_here|reflexivity].
Defined.

(** C7 (the source departs from the claim).  The graph is [f = Mul(x, x)]:
    one variable used at two edges.  Composed with the one single-return
    argument [a], the call fails at line 232 and both edges still point at
    [x].  Composed with an argument of two returns, which that line lets
    through, both edges are rewritten to the first head of the argument. *)
Theorem Compose_shared_variable_single_argument :
  let mul := mkOp "Mul" ["lhs"; "rhs"] ["output"] 1 in
  let h : gmap nat Node :=
    {[ 0 := mkNode None (Some mul) "f" [mkEntry 1 0; mkEntry 1 0];
       1 := mkNode None None "x" [];
       2 := mkNode None None "a" [];
       3 := mkNode None None "b" [] ]} in
  let s := mkSymbol [mkEntry 0 0] in
  let a := mkSymbol [mkEntry 2 0] in
  let ab := CreateGroup [a; mkSymbol [mkEntry 3 0]] in
  is_atomic h s = false ∧ NumReturns s = 1 ∧ NumReturns a = 1 ∧
  (Compose h s [a] "g").2 = Fail (UnsupportedTupleArgument 0) ∧
  inputs <$> (Compose h s [a] "g").1 !! 0 = Some [mkEntry 1 0; mkEntry 1 0] ∧
  NumReturns ab = 2 ∧
  (Compose h s [ab] "g").2 = Done ∧
  inputs <$> (Compose h s [ab] "g").1 !! 0 = Some [mkEntry 2 0; mkEntry 2 0].
Proof. vm_compute. split_and!; reflexivity. Qed.

(** ** Keyword composition on an atomic symbol *)

Lemma Compose_atomic_slot_none kwargs nm reqs :
  foldl (Compose_atomic_slot kwargs nm) None reqs = None.
Proof. induction reqs as [|req reqs IH]; [done|]. exact IH. Qed.

Lemma Compose_atomic_slots_spec kwargs nm reqs h1 ins0 k0 h2 ins k :
  foldl (Compose_atomic_slot kwargs nm) (Some (h1, ins0, k0)) reqs
    = Some (h2, ins, k) →
  h1 ⊆ h2 ∧
  (∀ p n, h2 !! p = Some n → h1 !! p = None →
     inputs n = [] ∧ node_is_variable n = true) ∧
  k = k0 + matched_slots kwargs reqs ∧
  ∃ new, ins = ins0 ++ new ∧ Forall2 (slot_bound kwargs nm h1 h2) reqs new.
Proof.
  revert h1 ins0 k0. induction reqs as [|req reqs IH]; intros h1 ins0 k0.
  - intros [= <- <- <-]. split_and!; [done| |cbn; lia|].
    + intros p n Hp Hn. congruence.
    + exists []. by rewrite app_nil_r.
  - simpl. unfold matched_slots. rewrite filter_cons.
    destruct (kwargs_find kwargs req) as [a|] eqn:Hfind; simpl.
    + destruct (heads_ a !! 0) as [d|] eqn:Hd; simpl;
        [|by rewrite Compose_atomic_slot_none].
      intros (Hsub & Hnew & -> & new & -> & Hall)%IH.
      split_and!; [done|done|unfold matched_slots; simpl; lia|].
      exists (d :: new). rewrite <-app_assoc. split; [done|].
      constructor; [|done]. unfold slot_bound. by rewrite Hfind.
    + intros (Hsub & Hnew & -> & new & -> & Hall)%IH.
      pose proof (fresh_ptr_unused h1) as Hfresh.
      assert (h1 ⊆ h2) as Hsub'.
      { etrans; [|exact Hsub]. by apply insert_subseteq. }
      split_and!; [done| |unfold matched_slots; lia|].
      * intros p n Hp Hn.
        destruct (decide (p = fresh_ptr h1)) as [->|Hne].
        -- pose proof (lookup_weaken _ _ _ _
                         (lookup_insert_eq h1 (fresh_ptr h1) _) Hsub) as Hl.
           rewrite Hp in Hl. by injection Hl as ->.
        -- apply (Hnew p n Hp). by rewrite lookup_insert_ne.
      * exists (mkEntry (fresh_ptr h1) 0 :: new). rewrite <-app_assoc.
        split; [done|]. constructor.
        -- unfold slot_bound. rewrite Hfind. simpl. split_and!; [done..|].
           eapply lookup_weaken; [|exact Hsub]. apply lookup_insert_eq.
        -- eapply Forall2_impl; [exact Hall|]. intros r d.
           unfold slot_bound. destruct (kwargs_find kwargs r); [done|].
           intros (? & Hn & ?). split_and!; [done| |done].
           destruct (h1 !! source d) as [m|] eqn:Hm; [|done].
           eapply lookup_weaken in Hm;
             [|by apply (insert_subseteq h1 (fresh_ptr h1)
                          (mkNode None None (placeholder_name nm req) []))].
           congruence.
Qed.

(** With arguments that all have a head, the loop runs through. *)
Lemma Compose_atomic_slots_total kwargs nm reqs h1 ins0 k0 :
  Forall (λ kv : string * Symbol, NumReturns kv.2 = 1) kwargs →
  is_Some (foldl (Compose_atomic_slot kwargs nm) (Some (h1, ins0, k0)) reqs).
Proof.
  intros Hkw. revert h1 ins0 k0.
  induction reqs as [|req reqs IH]; intros h1 ins0 k0; [by eexists|].
  simpl. destruct (kwargs_find kwargs req) as [a|] eqn:Hfind; simpl; [|apply IH].
  unfold kwargs_find in Hfind.
  destruct (List.find _ kwargs) as [[k b]|] eqn:Hf; [|done].
  injection Hfind as ->.
  apply find_first_split in Hf as (pre & post & -> & _ & _).
  apply Forall_app in Hkw as [_ Hkw]. apply Forall_cons in Hkw as [Ha _].
  simpl in Ha. unfold NumReturns in Ha.
  destruct (heads_ a) as [|d [|]]; simplify_eq/=. apply IH.
Qed.

Lemma kwargs_find_Some kwargs key a :
  kwargs_find kwargs key = Some a → (key, a) ∈ kwargs.
Proof.
  unfold kwargs_find.
  destruct (List.find _ kwargs) as [[k b]|] eqn:Hf; [|done].
  intros [= <-].
  apply find_first_split in Hf as (pre & post & -> & Hk & _).
  simpl in Hk. apply bool_decide_eq_true in Hk as ->.
  apply elem_of_app. right. by left.
Qed.

(** With required names and keys that do not repeat, every key is matched
    exactly when every key is a required name. *)
Lemma matched_slots_all_keys (kwargs : list (string * Symbol)) reqs :
  NoDup reqs → NoDup kwargs.*1 →
  (∀ key, key ∈ kwargs.*1 → key ∈ reqs) →
  matched_slots kwargs reqs = length kwargs.
Proof.
  intros Hreqs Hkeys Hsub. unfold matched_slots.
  rewrite <-(length_fmap fst kwargs). apply Permutation_length.
  apply NoDup_Permutation; [by apply NoDup_filter|done|].
  intros key. rewrite list_elem_of_filter. split.
  - intros [[a Ha] _]. apply kwargs_find_Some in Ha.
    apply list_elem_of_fmap. by exists (key, a).
  - intros Hkey. split; [|by apply Hsub].
    apply list_elem_of_fmap in Hkey as ([k a] & -> & Hin). simpl.
    unfold kwargs_find.
    destruct (find_some_exists (λ kv : string * Symbol, bool_decide (kv.1 = k))
                kwargs (k, a) Hin) as [kv ->]; [|by eexists].
    by apply bool_decide_eq_true.
Qed.

Lemma placeholder_name_bare req : placeholder_name EmptyString req = req.
Proof. reflexivity. Qed.

Lemma placeholder_name_group nm req :
  nm ≠ EmptyString → placeholder_name nm req = nm +:+ "_" +:+ req.
Proof. intros Hnm. unfold placeholder_name. by destruct nm. Qed.

Lemma find_tuple_kwarg_none (kwargs : list (string * Symbol)) :
  Forall (λ kv, NumReturns kv.2 = 1) kwargs →
  List.find (λ kv : string * Symbol, negb (Nat.eqb (NumReturns kv.2) 1)) kwargs
    = None.
Proof.
  induction 1 as [|kv kwargs Hkv _ IH]; [done|]. simpl.
  by rewrite Hkv, IH.
Qed.

(** The atomic branch of keyword [Compose] when every key is matched. *)
Lemma Compose_kwargs_atomic_result h hd n0 o kwargs nm :
  closed h →
  h !! source hd = Some n0 →
  op n0 = Some o →
  inputs n0 = [] →
  Forall (λ kv, NumReturns kv.2 = 1 ∧ heads_in h kv.2) kwargs →
  matched_slots kwargs (op_ListArguments o) = length kwargs →
  ∃ h' ins,
    Compose_kwargs h (mkSymbol [hd]) kwargs nm = (h', Done) ∧
    h' !! source hd = Some (set_inputs ins (set_name nm n0)) ∧
    Forall2 (slot_bound kwargs nm h h') (op_ListArguments o) ins ∧
    closed h' ∧
    (∀ p n, p ≠ source hd → h !! p = Some n → h' !! p = Some n).
Proof.
  intros Hcl Hhd Hop Hin Hkw Hmatch.
  assert (Forall (λ kv : string * Symbol, NumReturns kv.2 = 1) kwargs) as Hkw1.
  { eapply Forall_impl; [exact Hkw|]. by intros kv [? _]. }
  assert (node_is_variable n0 = false) as Hvar.
  { unfold node_is_variable. by rewrite Hop. }
  unfold Compose_kwargs. simpl. rewrite Hhd, Hvar.
  rewrite find_tuple_kwarg_none by done.
  set (h1 := <[source hd := set_name nm n0]> h).
  assert (h1 !! source hd = Some (set_name nm n0)) as Hh1
    by apply lookup_insert_eq.
  rewrite (is_atomic_single h1 hd _ Hh1).
  assert (node_is_atomic (set_name nm n0) = true) as ->.
  { unfold node_is_atomic. simpl. by rewrite Hin, Hop. }
  rewrite Hop.
  destruct (Compose_atomic_slots_total kwargs nm (op_ListArguments o) h1 [] 0
              Hkw1) as [[[h2 ins] k] Hfold].
  rewrite Hfold.
  apply Compose_atomic_slots_spec in Hfold
    as (Hsub & Hnew & -> & new & -> & Hall).
  simpl in *. rewrite Hmatch. rewrite decide_True by done.
  unfold Compose_kw_report. rewrite decide_True by done.
  assert (∀ p n, p ≠ source hd → h !! p = Some n → h2 !! p = Some n) as Hold.
  { intros p n Hp Hn. eapply lookup_weaken; [|exact Hsub].
    unfold h1. by rewrite lookup_insert_ne. }
  assert (∀ p, is_Some (h !! p) → is_Some (h2 !! p)) as Hdom.
  { intros p [n Hn]. destruct (decide (p = source hd)) as [->|Hp].
    - exists (set_name nm n0). by eapply lookup_weaken.
    - exists n. by apply Hold. }
  assert (∀ p, is_Some (h2 !! p) →
            is_Some (alter (set_inputs new) (source hd) h2 !! p)) as Halt.
  { intros p [n Hn]. destruct (decide (p = source hd)) as [->|Hp].
    - rewrite lookup_alter_eq, Hn. by eexists.
    - rewrite lookup_alter_ne by done. by eexists. }
  exists (alter (set_inputs new) (source hd) h2), new.
  split_and!; [done| | | |].
  - by rewrite lookup_alter_eq, (lookup_weaken _ _ _ _ Hh1 Hsub).
  - eapply Forall2_impl; [exact Hall|]. intros req d. unfold slot_bound.
    destruct (kwargs_find kwargs req); [done|].
    intros (Hi & Hnone & Hsome). split_and!; [done| |].
    + unfold h1 in Hnone. rewrite (rename_lookup h _ n0 nm Hhd) in Hnone.
      by destruct (h !! source d).
    + rewrite lookup_alter_ne; [done|]. intros Heq. congruence.
  - intros p n e Hp He.
    destruct (decide (p = source hd)) as [->|Hne].
    + rewrite lookup_alter_eq, (lookup_weaken _ _ _ _ Hh1 Hsub) in Hp.
      injection Hp as <-. simpl in He.
      apply list_elem_of_lookup in He as [i Hi].
      destruct (Forall2_lookup_r _ _ _ _ _ Hall Hi) as (req & _ & Hb).
      apply Halt. unfold slot_bound in Hb.
      destruct (kwargs_find kwargs req) as [a|] eqn:Hfind.
      * apply Hdom. apply kwargs_find_Some in Hfind.
        rewrite Forall_forall in Hkw. destruct (Hkw _ Hfind) as [_ Hheads].
        apply Hheads. eapply list_elem_of_lookup_2. exact Hb.
      * destruct Hb as (_ & _ & Hb). by eexists.
    + rewrite lookup_alter_ne in Hp by done. apply Halt.
      destruct (h1 !! p) as [m|] eqn:Hm.
      * assert (m = n) as ->.
        { pose proof (lookup_weaken _ _ _ _ Hm Hsub). congruence. }
        unfold h1 in Hm. rewrite lookup_insert_ne in Hm by done.
        apply Hdom. by eapply Hcl.
      * destruct (Hnew p n Hp Hm) as [Hnil _]. rewrite Hnil in He.
        by apply elem_of_nil in He.
  - intros p n Hp Hn. rewrite lookup_alter_ne by done. by apply Hold.
Qed.

(** C8 (as written, refuted).  The operator declares ["data"; "weight"] and
    [x] is the variable [x]: after the composition under the name [fc] the
    arguments are [x] and the placeholder, not the placeholder alone. *)
Lemma Compose_kwargs_partial_binding_keeps_argument :
  let fc := mkOp "FullyConnected" ["data"; "weight"] ["output"] 1 in
  let '(h0, s) := Create ∅ fc in
  let '(h1, x) := CreateVariable h0 "x" in
  let r := Compose_kwargs h1 s [("data", x)] "fc" in
  r.2 = Done ∧
  ListArguments r.1 s = Some ["x"; "fc_weight"] ∧
  ListArguments r.1 s ≠ Some ["fc_weight"].
Proof. vm_compute. split_and!; [reflexivity..|discriminate]. Qed.

(** C8 (amended).  On an atomic symbol, with supplied arguments of exactly
    one return and every key among the required names, keyword [Compose]
    returns and leaves in the head node one input per required name, in
    declared order: the head of the supplied symbol when the name is a key,
    and otherwise a new variable without inputs, at an address that was not
    in use, named by the bare required name when the group name is empty and
    by the group name, an underscore and the required name otherwise.  For
    the operator with arguments ["data"; "weight"], the keywords
    [{"data": x}] and the group name [fc], [ListArguments()] of the result is
    the list of the variable names met by the traversal under the head of
    [x], followed by ["fc_weight"]; when [x] is a variable it is the name of
    [x] followed by ["fc_weight"]. *)
Theorem Compose_kwargs_atomic_placeholders h s kwargs nm hd n0 o :
  closed h →
  heads_ s = [hd] →
  h !! source hd = Some n0 →
  op n0 = Some o →
  inputs n0 = [] →
  Forall (λ kv, NumReturns kv.2 = 1 ∧ heads_in h kv.2) kwargs →
  matched_slots kwargs (op_ListArguments o) = length kwargs →
  ∃ h' ins,
    Compose_kwargs h s kwargs nm = (h', Done) ∧
    h' !! source hd = Some (set_inputs ins (set_name nm n0)) ∧
    Forall2 (slot_bound kwargs nm h h') (op_ListArguments o) ins ∧
    (∀ req, placeholder_name EmptyString req = req) ∧
    (nm ≠ EmptyString → ∀ req, placeholder_name nm req = nm +:+ "_" +:+ req) ∧
    (∀ x xh,
       op_ListArguments o = ["data"; "weight"]%string →
       kwargs = [("data"%string, x)] →
       nm = "fc"%string →
       heads_ x = [xh] →
       source xh ≠ source hd →
       ∃ w tr_x,
         ins = [xh; mkEntry w 0] ∧
         dfs_list h' (size h') [source xh] {[source hd; source xh; w]}
           = Some tr_x ∧
         ListArguments h' s = Some (arg_names tr_x ++ ["fc_weight"%string]) ∧
         (∀ nx, h !! source xh = Some nx → node_is_variable nx = true →
            inputs nx = [] →
            ListArguments h' s = Some [name nx; "fc_weight"%string])).
Proof.
  intros Hcl Hs Hhd Hop Hin Hkw Hmatch.
  destruct s as [hs]. simpl in Hs. subst hs.
  destruct (Compose_kwargs_atomic_result h hd n0 o kwargs nm
              Hcl Hhd Hop Hin Hkw Hmatch)
    as (h' & ins & Hc & Hhead & Hslots & Hcl' & Hframe).
  exists h', ins. split_and!; [done..| | |].
  - apply placeholder_name_bare.
  - intros Hnm req. by apply placeholder_name_group.
  - intros x xh Hreqs -> -> Hx Hne.
    rewrite Hreqs in Hslots.
    apply Forall2_cons_inv_l in Hslots as (d1 & ins1 & Hd1 & Hslots & ->).
    apply Forall2_cons_inv_l in Hslots as (d2 & ins2 & Hd2 & Hslots & ->).
    apply Forall2_nil_inv_l in Hslots as ->.
    unfold slot_bound in Hd1, Hd2. simpl in Hd1, Hd2. rewrite Hx in Hd1.
    injection Hd1 as <-. destruct Hd2 as (Hidx & Hnone & Hsome).
    destruct d2 as [w i]. simpl in *. subst i.
    assert (is_Some (h !! source xh)) as [nx Hnx].
    { rewrite Forall_forall in Hkw.
      destruct (Hkw ("data"%string, x)) as [_ Hheads]; [by left|].
      apply Hheads. simpl. rewrite Hx. by left. }
    assert (h' !! source xh = Some nx) as Hnx' by (by apply Hframe).
    destruct (ListArguments_two_inputs h' (mkSymbol [hd]) hd
                (set_inputs [xh; mkEntry w 0] (set_name "fc" n0)) xh w 0
                (mkNode None None (placeholder_name "fc" "weight") []))
      as (tr_x & Htr & Hargs); try done.
    { unfold node_is_variable. simpl. by rewrite Hop. }
    { intros ->. congruence. }
    { intros ->. congruence. }
    exists w, tr_x. split_and!; [done..|].
    intros nx' Hnx'' Hvar Hnil.
    assert (nx' = nx) as -> by congruence.
    apply (dfs_list_leaf h' _ _ nx) in Htr as ->; [|done..].
    rewrite Hargs. unfold arg_names. rewrite filter_cons. simpl.
    by rewrite decide_True by done.
Qed.

Lemma Compose_kwargs_atomic_placeholders_witness :
  let fc := mkOp "FullyConnected" ["data"; "weight"] ["output"] 1 in
  let h0 := (Create ∅ fc).1 in
  let s := (Create ∅ fc).2 in
  let h1 := (CreateVariable h0 "x").1 in
  let x := (CreateVariable h0 "x").2 in
  ∃ h' ins,
    Compose_kwargs h1 s [("data", x)] "fc" = (h', Done) ∧
    h' !! 0 = Some (mkNode None (Some fc) "fc" ins) ∧
    ListArguments h' s = Some ["x"; "fc_weight"].
Proof.
  intros fc h0 s h1 x.
  destruct (Compose_kwargs_atomic_placeholders h1 s [("data", x)] "fc"
              (mkEntry 0 0) (mkNode None (Some fc) EmptyString []) fc)
    as (h' & ins & Hc & Hhead & _ & _ & _ & Hex).
  - apply closedb_closed. vm_compute. reflexivity.
  - reflexivity.
  - vm_compute. reflexivity.
  - reflexivity.
  - reflexivity.
  - repeat constructor. apply heads_inb_heads_in. vm_compute. reflexivity.
  - vm_compute. reflexivity.
  - exists h', ins. split_and!; [exact Hc|exact Hhead|].
    destruct (Hex x (mkEntry 1 0)) as (w & tr_x & _ & _ & _ & Hvar);
      [reflexivity..|discriminate|].
    apply (Hvar (mkNode None None "x" [])); [vm_compute|..]; reflexivity.
Defined.

(** ** Keyword composition on a graph with a repeated argument name *)

Lemma var_count_snoc key tr p n :
  var_count key (tr ++ [(p, n)])
    = var_count key tr
      + (if decide (node_is_variable n = true ∧ name n = key) then 1 else 0).
Proof.
  unfold var_count. rewrite filter_app, length_app. f_equal.
  rewrite filter_cons. simpl. by case_decide.
Qed.

(** What [FindDuplicateArgs] has counted after the traversal. *)
Lemma FindDuplicateArgs_counts tr out max_dup :
  run_visitor FindDuplicateArgs_visit (∅, 1) tr = (out, max_dup) →
  (∀ key, out !! key
          = if decide (var_count key tr = 0) then None
            else Some (var_count key tr)) ∧
  (∀ key, var_count key tr ≤ max_dup) ∧
  1 ≤ max_dup.
Proof.
  revert out max_dup. induction tr as [|[p n] tr IH] using rev_ind;
    intros out max_dup.
  - intros [= <- <-]. split_and!; [|intros key; cbn; lia|lia]. intros key.
    by rewrite lookup_empty.
  - rewrite run_visitor_snoc.
    destruct (run_visitor FindDuplicateArgs_visit (∅, 1) tr) as [out0 max0].
    destruct (IH out0 max0 eq_refl) as (Hout & Hmax & Hone).
    unfold FindDuplicateArgs_visit.
    destruct (node_is_variable n) eqn:Hvar.
    + pose proof (Hout (name n)) as Hn.
      destruct (out0 !! name n) as [c|] eqn:Hc; intros [= <- <-].
      * case_decide as Hz; [done|]. injection Hn as ->.
        split_and!; [| |lia].
        -- intros key. rewrite var_count_snoc.
           destruct (decide (key = name n)) as [->|Hne].
           ++ rewrite lookup_insert_eq.
              rewrite (decide_True (P := _ ∧ _)) by done.
              rewrite decide_False by lia. f_equal. lia.
           ++ rewrite lookup_insert_ne by done.
              rewrite (decide_False (P := _ ∧ name n = key)) by naive_solver.
              rewrite Nat.add_0_r. apply Hout.
        -- intros key. rewrite var_count_snoc. specialize (Hmax key).
           case_decide as Hk; [|lia]. destruct Hk as [_ <-]. lia.
      * case_decide as Hz; [|done].
        split_and!; [| |lia].
        -- intros key. rewrite var_count_snoc.
           destruct (decide (key = name n)) as [->|Hne].
           ++ rewrite lookup_insert_eq.
              rewrite (decide_True (P := _ ∧ _)) by done.
              rewrite decide_False by lia. f_equal. lia.
           ++ rewrite lookup_insert_ne by done.
              rewrite (decide_False (P := _ ∧ name n = key)) by naive_solver.
              rewrite Nat.add_0_r. apply Hout.
        -- intros key. rewrite var_count_snoc. specialize (Hmax key).
           case_decide as Hk; [|lia]. destruct Hk as [_ <-]. lia.
    + intros [= <- <-]. split_and!; [| |lia].
      * intros key. rewrite var_count_snoc.
        rewrite (decide_False (P := _ ∧ _)) by (intros [? _]; congruence).
        rewrite Nat.add_0_r. apply Hout.
      * intros key. rewrite var_count_snoc.
        rewrite (decide_False (P := _ ∧ _)) by (intros [? _]; congruence).
        rewrite Nat.add_0_r. apply Hmax.
Qed.

(** Two different visited variables of one name are counted twice. *)
Lemma var_count_two tr p q np nq :
  NoDup tr.*1 →
  (p, np) ∈ tr → (q, nq) ∈ tr → p ≠ q →
  node_is_variable np = true → node_is_variable nq = true →
  name np = name nq →
  2 ≤ var_count (name np) tr.
Proof.
  intros Hnd Hp Hq Hne Hvp Hvq Hname. unfold var_count.
  assert (NoDup tr) as Hnd' by (by eapply NoDup_fmap_1).
  assert ([(p, np); (q, nq)] ⊆+
            filter (λ pn, node_is_variable pn.2 = true ∧ name pn.2 = name np) tr)
    as Hsub.
  { apply NoDup_submseteq.
    - apply NoDup_cons. split; [|apply NoDup_singleton].
      intros Hx%list_elem_of_singleton. congruence.
    - intros x Hx. apply list_elem_of_filter.
      apply elem_of_cons in Hx as [->|Hx]; [done|].
      apply list_elem_of_singleton in Hx as ->. simpl. by rewrite Hname. }
  apply submseteq_length in Hsub. simpl in Hsub. lia.
Qed.

(** With a name counted twice the check of lines 323-331 fails, and the
    entry it names has a count above 1. *)
Lemma check_dup_args_fails tr out max_dup key0 :
  run_visitor FindDuplicateArgs_visit (∅, 1) tr = (out, max_dup) →
  2 ≤ var_count key0 tr →
  ∃ key count, check_dup_args out max_dup
                 = Some (DuplicateArgumentName key count) ∧
    count = var_count key tr ∧ 1 < count.
Proof.
  intros (Hout & Hmax & _)%FindDuplicateArgs_counts Hkey0.
  unfold check_dup_args. rewrite decide_True by (specialize (Hmax key0); lia).
  assert ((key0, var_count key0 tr) ∈ map_to_list out) as Hin.
  { apply elem_of_map_to_list. rewrite Hout. by rewrite decide_False by lia. }
  destruct (find_some_exists (λ kv : string * nat, negb (Nat.eqb kv.2 1))
              _ _ Hin) as [[key count] Hfind].
  { simpl. apply negb_true_iff, Nat.eqb_neq. lia. }
  rewrite Hfind. exists key, count. split; [done|].
  apply find_first_split in Hfind as (pre & post & Heq & Hbad & _).
  simpl in Hbad. apply negb_true_iff, Nat.eqb_neq in Hbad.
  assert ((key, count) ∈ map_to_list out) as Hk.
  { rewrite Heq. apply elem_of_app. right. by left. }
  apply elem_of_map_to_list in Hk. rewrite Hout in Hk.
  case_decide; [done|]. injection Hk as <-. lia.
Qed.

(** C9 (as written, refuted).  The graph holds two variables named [x], but
    a supplied argument has two returns: lines 289-292 come first and the
    call fails on the tuple, not on the repeated name. *)
Lemma Compose_kwargs_tuple_before_duplicate :
  let mul := mkOp "Mul" ["lhs"; "rhs"] ["output"] 1 in
  let h : gmap nat Node :=
    {[ 0 := mkNode None (Some mul) "f" [mkEntry 1 0; mkEntry 2 0];
       1 := mkNode None None "x" [];
       2 := mkNode None None "x" [];
       3 := mkNode None None "u" [];
       4 := mkNode None None "v" [] ]} in
  let s := mkSymbol [mkEntry 0 0] in
  let pair := CreateGroup [mkSymbol [mkEntry 3 0]; mkSymbol [mkEntry 4 0]] in
  is_atomic h s = false ∧ NumReturns s = 1 ∧
  ListArguments h s = Some ["x"; "x"] ∧
  (Compose_kwargs h s [("w", pair)] "g").2 = Fail (UnsupportedTupleKeyword "w").
Proof. vm_compute. split_and!; reflexivity. Qed.

(** C9 (amended).  On a composite single-return symbol that is not a bare
    variable, with supplied arguments that all have exactly one return, a
    keyword [Compose] fails with [DuplicateArgumentName] as soon as two
    different reachable variables carry the same name, whatever the keys
    are; the reported name is counted more than once and no input edge of
    the heap has changed. *)
Theorem Compose_kwargs_duplicate_name h s kwargs nm hd n0 p q np nq :
  closed h →
  heads_ s = [hd] →
  h !! source hd = Some n0 →
  node_is_variable n0 = false →
  node_is_atomic n0 = false →
  Forall (λ kv, NumReturns kv.2 = 1) kwargs →
  reachable h s p → reachable h s q → p ≠ q →
  h !! p = Some np → h !! q = Some nq →
  node_is_variable np = true → node_is_variable nq = true →
  name np = name nq →
  ∃ key count,
    (Compose_kwargs h s kwargs nm).2 = Fail (DuplicateArgumentName key count) ∧
    1 < count ∧
    same_edges h (Compose_kwargs h s kwargs nm).1.
Proof.
  intros Hcl Hs Hhd Hvar Hat Hkw Hrp Hrq Hne Hp Hq Hvp Hvq Hname.
  destruct s as [hs]. simpl in Hs. subst hs.
  set (s := mkSymbol [hd]).
  set (h1 := <[source hd := set_name nm n0]> h).
  assert (same_edges h h1) as He by (by apply rename_same_edges).
  assert (closed h1) as Hcl1 by (by eapply same_edges_closed).
  assert (heads_in h1 s) as Hin1.
  { intros e ->%list_elem_of_singleton. unfold h1.
    rewrite lookup_insert_eq. by eexists. }
  destruct (DFS_trace_total h1 s Hcl1 Hin1) as [tr Htr].
  assert (∀ r nr, reachable h s r → h !! r = Some nr →
            node_is_variable nr = true → (r, nr) ∈ tr) as Hvis.
  { intros r nr Hr Hnr Hv.
    assert (r ∈ tr.*1) as Hin.
    { eapply DFS_trace_reachable; [done..|]. by eapply same_edges_reachable. }
    apply list_elem_of_fmap in Hin as ([r' nr'] & -> & Hin). simpl in *.
    pose proof (DFS_trace_lookup _ _ _ _ _ Htr Hin) as Hl.
    unfold h1 in Hl. rewrite (rename_lookup h _ n0 nm Hhd), Hnr in Hl.
    simpl in Hl. case_decide as Heq; [|by simplify_eq].
    subst r'. congruence. }
  assert (2 ≤ var_count (name np) tr) as Hcount.
  { apply (var_count_two tr p q np nq); [|by apply Hvis|by apply Hvis|done..].
    by eapply DFS_trace_NoDup. }
  unfold Compose_kwargs. simpl. rewrite Hhd, Hvar.
  rewrite find_tuple_kwarg_none by done. fold h1.
  assert (is_atomic h1 s = false) as ->.
  { unfold is_atomic, h1. simpl. by rewrite lookup_insert_eq. }
  unfold FindDuplicateArgs. rewrite DFSVisit_trace, Htr. simpl.
  destruct (run_visitor FindDuplicateArgs_visit (∅, 1) tr)
    as [out max_dup] eqn:Hrun.
  destruct (check_dup_args_fails _ _ _ _ Hrun Hcount)
    as (key & count & -> & _ & Hc).
  exists key, count. done.
Qed.

Lemma Compose_kwargs_duplicate_name_witness :
  let mul := mkOp "Mul" ["lhs"; "rhs"] ["output"] 1 in
  let f := mkNode None (Some mul) "f" [mkEntry 1 0; mkEntry 2 0] in
  let x1 := mkNode None None "x" [] in
  let x2 := mkNode None None "x" [] in
  let h : gmap nat Node :=
    {[ 0 := f; 1 := x1; 2 := x2; 3 := mkNode None None "u" [] ]} in
  let s := mkSymbol [mkEntry 0 0] in
  (Compose_kwargs h s [("w", mkSymbol [mkEntry 3 0])] "g").2
    = Fail (DuplicateArgumentName "x" 2) ∧
  ∃ key count,
    (Compose_kwargs h s [("w", mkSymbol [mkEntry 3 0])] "g").2
      = Fail (DuplicateArgumentName key count) ∧ 1 < count.
Proof.
  intros mul f x1 x2 h s. split; [vm_compute; reflexivity|].
  destruct (Compose_kwargs_duplicate_name h s
              [("w", mkSymbol [mkEntry 3 0])] "g" (mkEntry 0 0) f 1 2 x1 x2)
    as (key & count & Hc & Hlt & _).
  - apply closedb_closed. vm_compute. reflexivity.
  - reflexivity.
  - vm_compute. reflexivity.
  - reflexivity.
  - reflexivity.
  - repeat constructor.
  - apply (reachable_input h s 0 f (mkEntry 1 0)).
    + apply (reachable_head h s (mkEntry 0 0)). apply list_elem_of_here.
    + vm_compute. reflexivity.
    + apply list_elem_of_here.
  - apply (reachable_input h s 0 f (mkEntry 2 0)).
    + apply (reachable_head h s (mkEntry 0 0)). apply list_elem_of_here.
    + vm_compute. reflexivity.
    + apply list_elem_of_further, list_elem_of_here.
  - discriminate.
  - vm_compute. reflexivity.
  - vm_compute. reflexivity.
  - reflexivity.
  - reflexivity.
  - reflexivity.
  - exists key, count. split; [exact Hc|exact Hlt].
Defined.

(** ** The heap after a failed composition *)

Lemma Compose_positional_failure h hd n0 args nm e :
  h !! source hd = Some n0 →
  node_is_variable n0 = false →
  (Compose h (mkSymbol [hd]) args nm).2 = Fail e →
  (Compose h (mkSymbol [hd]) args nm).1 = <[source hd := set_name nm n0]> h.
Proof.
  intros Hhd Hvar. unfold Compose. simpl. rewrite Hhd, Hvar.
  repeat case_match; simpl; congruence.
Qed.

Lemma Compose_kwargs_failure h hd n0 kwargs nm e :
  h !! source hd = Some n0 →
  node_is_variable n0 = false →
  (Compose_kwargs h (mkSymbol [hd]) kwargs nm).2 = Fail e →
  (Compose_kwargs h (mkSymbol [hd]) kwargs nm).1 !! source hd
    = Some (set_name nm n0) ∧
  ∀ p, p ≠ source hd → is_Some (h !! p) →
    (Compose_kwargs h (mkSymbol [hd]) kwargs nm).1 !! p = h !! p.
Proof.
  intros Hhd Hvar. unfold Compose_kwargs. simpl. rewrite Hhd, Hvar.
  set (h1 := <[source hd := set_name nm n0]> h).
  assert (h1 !! source hd = Some (set_name nm n0)) as Hh1
    by apply lookup_insert_eq.
  assert (∀ p, p ≠ source hd → h1 !! p = h !! p) as Hother
    by (intros p Hp; by apply lookup_insert_ne).
  assert (h1 !! source hd = Some (set_name nm n0) ∧
          ∀ p, p ≠ source hd → is_Some (h !! p) → h1 !! p = h !! p) as Hbase.
  { split; [done|]. intros p Hp _. by apply Hother. }
  destruct (List.find _ kwargs) as [[key a]|]; [by intros _|].
  rewrite (is_atomic_single h1 hd _ Hh1).
  destruct (node_is_atomic (set_name nm n0)) eqn:Hat.
  - destruct (op n0) as [o|]; [|done].
    destruct (foldl _ _ _) as [[[h2 ins] nmatched]|] eqn:Hfold; [|done].
    apply Compose_atomic_slots_spec in Hfold as (Hsub & _).
    simpl. case_decide as Hm.
    { unfold Compose_kw_report. by rewrite decide_True. }
    intros _. split.
    + rewrite lookup_alter_eq, (lookup_weaken _ _ _ _ Hh1 Hsub). simpl.
      f_equal. apply node_is_atomic_inputs in Hat. simpl in Hat.
      destruct n0; simpl in *. by subst.
    + intros p Hp [n Hn]. rewrite lookup_alter_ne by done.
      rewrite <-Hother in Hn by done.
      rewrite (lookup_weaken _ _ _ _ Hn Hsub), <-Hn. by apply Hother.
  - destruct (FindDuplicateArgs h1 _) as [[dup_args max_dup]|]; [|done].
    destruct (check_dup_args dup_args max_dup); [by intros _|].
    destruct (DFSVisit h1 _ _ _) as [[[nmatched visited] plan]|]; [|done].
    case_decide; [|by intros _].
    destruct (run_plan h1 _ plan); done.
Qed.

(** C3 (the source departs from the claim).  When a [Compose] of either
    overload fails after the two checks on the target, every node of the heap
    is as before except the head node, whose name has been overwritten with
    the supplied name: lines 230 and 288 assign it before the remaining
    checks run. *)
Theorem Compose_failure_renames_head h s args kwargs nm hd n0 r :
  heads_ s = [hd] →
  h !! source hd = Some n0 →
  node_is_variable n0 = false →
  r = Compose h s args nm ∨ r = Compose_kwargs h s kwargs nm →
  (∃ e, r.2 = Fail e) →
  r.1 !! source hd = Some (set_name nm n0) ∧
  ∀ p, p ≠ source hd → is_Some (h !! p) → r.1 !! p = h !! p.
Proof.
  intros Hs Hhd Hvar Hr [e He]. destruct s as [hs]. simpl in Hs. subst hs.
  destruct Hr as [-> | ->].
  - rewrite (Compose_positional_failure h hd n0 args nm e) by done.
    split; [apply lookup_insert_eq|].
    intros p Hp _. by apply lookup_insert_ne.
  - by eapply Compose_kwargs_failure.
Qed.

Lemma Compose_failure_renames_head_witness :
  let fc := mkOp "FullyConnected" ["data"; "weight"] ["output"] 1 in
  let h0 := (Create ∅ fc).1 in
  let s := (Create ∅ fc).2 in
  let h1 := (CreateVariable h0 "y").1 in
  let y := (CreateVariable h0 "y").2 in
  name <$> h1 !! 0 = Some EmptyString ∧
  (Compose_kwargs h1 s [("bogus", y)] "fc").2
    = Fail (UnmatchedKeyword "Symbol.Compose" "bogus" ["data"; "weight"]) ∧
  name <$> (Compose_kwargs h1 s [("bogus", y)] "fc").1 !! 0 = Some "fc"%string.
Proof.
  intros fc h0 s h1 y. split_and!; [vm_compute; reflexivity..|].
  destruct (Compose_failure_renames_head h1 s [] [("bogus", y)] "fc"
              (mkEntry 0 0) (mkNode None (Some fc) EmptyString [])
              (Compose_kwargs h1 s [("bogus", y)] "fc")) as [Hhead _].
  - reflexivity.
  - vm_compute. reflexivity.
  - reflexivity.
  - right. reflexivity.
  - eexists. vm_compute. reflexivity.
  - simpl in Hhead. rewrite Hhead. reflexivity.
Defined.

(** * Further properties of the code *)

(** ** Indexing and grouping *)

Lemma mapM_app_Some {A B} (f : A → option B) l1 l2 :
  mapM f (l1 ++ l2)
    = k1 ← mapM f l1; k2 ← mapM f l2; Some (k1 ++ k2).
Proof.
  induction l1 as [|x l1 IH]; simpl.
  - by destruct (mapM f l2).
  - destruct (f x) as [y|]; simpl; [|done]. rewrite IH.
    destruct (mapM f l1) as [k1|]; simpl; [|done].
    by destruct (mapM f l2).
Qed.

Lemma single_return_heads (symbols : list Symbol) :
  Forall (λ s, NumReturns s = 1) symbols →
  ∃ es, symbols = (λ e, mkSymbol [e]) <$> es ∧
    concat (heads_ <$> symbols) = es.
Proof.
  induction 1 as [|[hs] symbols Hs _ (es & -> & IH)].
  - by exists [].
  - unfold NumReturns in Hs. simpl in Hs.
    destruct hs as [|e [|]]; simplify_eq/=.
    exists (e :: es). simpl. by rewrite IH.
Qed.

(** X1.  [operator[]] returns exactly when the index is below the number of
    returns.  What it returns has a single head, the head at that index, and
    its [ListReturns()] is the entry of the symbol's [ListReturns()] at that
    index. *)
Theorem Index_selects_return h s i :
  (is_Some (Index s i) ↔ i < NumReturns s) ∧
  (∀ s', Index s i = Some s' →
     ∃ e, heads_ s !! i = Some e ∧ heads_ s' = [e]) ∧
  (∀ s' l, Index s i = Some s' → ListReturns h s = Some l →
     ∃ r, l !! i = Some r ∧ ListReturns h s' = Some [r]).
Proof.
  assert (∀ s', Index s i = Some s' →
            ∃ e, heads_ s !! i = Some e ∧ heads_ s' = [e]) as Hsel.
  { intros s'. unfold Index, NumReturns.
    case_decide as Hlt; [|done]. case_decide as Hone.
    - intros [= <-]. destruct (heads_ s) as [|e [|]]; simplify_eq/=.
      assert (i = 0) as -> by lia. by exists e.
    - destruct (heads_ s !! i) as [e|]; [|done]. intros [= <-]. by exists e. }
  split_and!; [|done|].
  - unfold Index, NumReturns. split.
    + intros [s' Hs']. by case_decide.
    + intros Hlt. rewrite decide_True by done. case_decide; [by eexists|].
      destruct (lookup_lt_is_Some_2 (heads_ s) i Hlt) as [e ->]. by eexists.
  - intros s' l (e & He & Hs')%Hsel Hl. unfold ListReturns in *.
    apply mapM_Some in Hl.
    destruct (Forall2_lookup_l _ _ _ _ _ Hl He) as (r & Hr & Hre).
    exists r. split; [done|]. rewrite Hs'. simpl. by rewrite Hre.
Qed.

(** X2.  Grouping single-return symbols and indexing the group gives the
    symbols back: the entry at an index is the symbol grouped at that
    position, and an index past the last symbol fails. *)
Theorem CreateGroup_Index symbols i :
  Forall (λ s, NumReturns s = 1) symbols →
  Index (CreateGroup symbols) i = symbols !! i.
Proof.
  intros (es & -> & Hes)%single_return_heads.
  unfold Index, CreateGroup, NumReturns. simpl. rewrite Hes.
  rewrite list_lookup_fmap. case_decide as Hlt.
  - case_decide as Hone; [|done].
    destruct es as [|e [|]]; simplify_eq/=.
    by assert (i = 0) as -> by lia.
  - rewrite lookup_ge_None_2; [done|lia].
Qed.

Lemma CreateGroup_Index_witness :
  Index (CreateGroup [mkSymbol [mkEntry 0 0]; mkSymbol [mkEntry 1 0]]) 1
    = Some (mkSymbol [mkEntry 1 0]).
Proof.
  apply (CreateGroup_Index [mkSymbol [mkEntry 0 0]; mkSymbol [mkEntry 1 0]] 1).
  repeat constructor.
Defined.

(** X3.  A group has the returns of its members, in the order of the
    members: [NumReturns()] is the sum of theirs and [ListReturns()] the
    concatenation of theirs, undefined exactly when it is undefined on some
    member. *)
Theorem CreateGroup_returns h symbols :
  NumReturns (CreateGroup symbols) = sum_list (NumReturns <$> symbols) ∧
  ListReturns h (CreateGroup symbols)
    = (λ ls, concat ls) <$> mapM (ListReturns h) symbols.
Proof.
  unfold NumReturns, ListReturns, CreateGroup. simpl. split.
  - induction symbols as [|s symbols IH]; [done|]. simpl.
    rewrite length_app. f_equal. exact IH.
  - induction symbols as [|s symbols IH]; [done|].
    rewrite fmap_cons. cbn [concat mapM]. rewrite mapM_app_Some, IH.
    destruct (mapM (ListReturns_head h) (heads_ s)) as [k1|]; simpl; [|done].
    by destruct (mapM _ symbols).
Qed.

(** ** Construction *)

Lemma push_new_same p (l : list nat) stack (visited : gset nat) :
  (∀ q, q ∈ l → q = p) → p ∈ visited →
  push_new l stack visited = (stack, visited).
Proof.
  induction l as [|q l IH]; intros Hl Hp; [done|]. simpl.
  assert (q = p) as -> by (apply Hl; by left).
  rewrite decide_True by done. apply IH; [|done].
  intros q Hq. apply Hl. by right.
Qed.

(** The traversal from heads that all point to one node without inputs. *)
Lemma DFSVisit_single_leaf {S} (h : gmap nat Node) s p n
    (fvisit : nat → Node → S → S) st :
  heads_ s ≠ [] → (∀ e, e ∈ heads_ s → source e = p) →
  h !! p = Some n → inputs n = [] →
  DFSVisit h s fvisit st = Some (fvisit p n st).
Proof.
  intros Hne Hall Hp Hin. unfold DFSVisit.
  destruct (heads_ s) as [|e es]; [done|]. simpl.
  assert (source e = p) as -> by (apply Hall; by left).
  rewrite decide_False by apply not_elem_of_empty.
  rewrite (push_new_same p); cycle 1.
  { intros q (e' & -> & He')%list_elem_of_fmap. apply Hall. by right. }
  { set_solver. }
  destruct (size h) as [|fuel] eqn:Hsz.
  { apply map_size_empty_inv in Hsz. subst h. by rewrite lookup_empty in Hp. }
  simpl. rewrite Hp, Hin. simpl. by destruct fuel.
Qed.

Lemma mapM_fmap_ext {A B C} (f : B → option C) (f' : A → option C)
    (g : A → B) (l : list A) :
  (∀ x, f (g x) = f' x) → mapM f (g <$> l) = mapM f' l.
Proof.
  intros Hfg. induction l as [|x l IH]; [done|]. simpl.
  rewrite Hfg. destruct (f' x); simpl; [|done]. fold (g <$> l). by rewrite IH.
Qed.

Lemma mapM_lookup_seq {A} (l : list A) n :
  mapM (λ i, l !! i) (seq 0 n)
    = if decide (n ≤ length l) then Some (take n l) else None.
Proof.
  induction n as [|n IH]; [done|].
  rewrite seq_S, mapM_app_Some, IH. simpl.
  destruct (decide (n ≤ length l)) as [Hle|Hgt]; simpl.
  - destruct (l !! n) as [x|] eqn:Hx; simpl.
    + apply lookup_lt_Some in Hx as Hlt.
      rewrite decide_True by lia. f_equal. by erewrite take_S_r.
    + apply lookup_ge_None in Hx. by rewrite decide_False by lia.
  - by rewrite decide_False by lia.
Qed.

(** X4.  [CreateVariable] leaves every node of the heap as it is and returns
    a symbol that is its own argument and its own return: [ListArguments()]
    and [ListReturns()] are the one-element list of the given name.  Both
    overloads of [Compose] refuse it and leave the heap as it is. *)
Theorem CreateVariable_lists_itself h nm :
  let h' := (CreateVariable h nm).1 in
  let s := (CreateVariable h nm).2 in
  h ⊆ h' ∧
  ListArguments h' s = Some [nm] ∧
  ListReturns h' s = Some [nm] ∧
  (∀ args nm', Compose h' s args nm' = (h', Fail VariableNotComposable)) ∧
  (∀ kwargs nm',
     Compose_kwargs h' s kwargs nm' = (h', Fail VariableNotComposable)).
Proof.
  intros h' s. unfold CreateVariable, alloc in h', s. simpl in h', s.
  set (n := mkNode None None nm []).
  assert (h' !! fresh_ptr h = Some n) as Hn by apply lookup_insert_eq.
  split_and!.
  - apply insert_subseteq, fresh_ptr_unused.
  - unfold ListArguments, is_atomic. simpl. rewrite Hn. simpl.
    rewrite (DFSVisit_single_leaf h' s (fresh_ptr h) n); try done.
    by intros e ->%list_elem_of_singleton.
  - unfold ListReturns, ListReturns_head. simpl. by rewrite Hn.
  - intros args nm'. unfold Compose. simpl. by rewrite Hn.
  - intros kwargs nm'. unfold Compose_kwargs. simpl. by rewrite Hn.
Qed.

(** X5.  [Create] leaves every node of the heap as it is and returns a symbol
    with one head per visible return of the operator.  [ListArguments()] of
    that symbol is the argument list of the operator only when the operator
    has exactly one visible return; with any other number the symbol is not
    atomic, the traversal finds no variable and the list is empty.
    [ListReturns()] is the list of the first return names of the operator,
    and is undefined when the operator declares fewer names than visible
    returns. *)
Theorem Create_arguments_and_returns h o :
  let h' := (Create h o).1 in
  let s := (Create h o).2 in
  h ⊆ h' ∧
  NumReturns s = op_NumVisibleReturns o ∧
  ListArguments h' s
    = Some (if decide (op_NumVisibleReturns o = 1) then op_ListArguments o
            else []) ∧
  ListReturns h' s
    = (if decide (op_NumVisibleReturns o ≤ length (op_ListReturns o))
       then Some (take (op_NumVisibleReturns o) (op_ListReturns o))
       else None).
Proof.
  intros h' s. unfold Create, alloc in h', s. simpl in h', s.
  set (n := mkNode None (Some o) EmptyString []).
  set (p := fresh_ptr h) in *.
  assert (h' !! p = Some n) as Hn by apply lookup_insert_eq.
  split_and!.
  - apply insert_subseteq, fresh_ptr_unused.
  - unfold NumReturns, s. simpl. by rewrite length_fmap, length_seq.
  - unfold ListArguments, is_atomic, s. simpl.
    destruct (op_NumVisibleReturns o) as [|[|k]] eqn:Hk.
    + cbn. unfold DFSVisit. cbn. by destruct (size h').
    + cbn. rewrite Hn. reflexivity.
    + rewrite decide_False by lia.
      change (mkEntry p <$> seq 0 (S (S k)))
        with (mkEntry p 0 :: mkEntry p 1 :: (mkEntry p <$> seq 2 k)).
      cbv iota beta.
      rewrite (DFSVisit_single_leaf h' _ p n); try done.
      simpl. intros e He.
      repeat (apply elem_of_cons in He as [->|He]; [done|]).
      by apply list_elem_of_fmap in He as (j & -> & _).
  - unfold ListReturns, s. simpl. rewrite <-mapM_lookup_seq.
    apply mapM_fmap_ext. intros j. unfold ListReturns_head. simpl.
    rewrite Hn. simpl. by destruct (op_ListReturns o !! j).
Qed.

(** ** The order of the heads in the traversal *)

Lemma new_of_distinct srcs (visited : gset nat) :
  NoDup srcs → (∀ p, p ∈ srcs → p ∉ visited) → new_of srcs visited = srcs.
Proof.
  intros Hnd. revert visited.
  induction Hnd as [|p srcs Hp _ IH]; intros visited Hfresh; [done|]. simpl.
  rewrite decide_False by (apply Hfresh; by left). f_equal. apply IH.
  intros q Hq [->%elem_of_singleton|Hv]%elem_of_union; [done|].
  by apply (Hfresh q); [right|].
Qed.

(** Nodes without inputs on the stack are visited in stack order and
    nothing else is. *)
Lemma dfs_list_leaves h fuel stack visited tr :
  (∀ p n, p ∈ stack → h !! p = Some n → inputs n = []) →
  dfs_list h fuel stack visited = Some tr → tr.*1 = stack.
Proof.
  revert stack visited tr.
  induction fuel as [|fuel IH]; intros [|back stack] visited tr Hleaf Htr;
    try done.
  - by injection Htr as <-.
  - by injection Htr as <-.
  - apply dfs_list_inv in Htr as (f & n & tr' & [= <-] & Hn & -> & Htr).
    rewrite (Hleaf back n) in Htr by (done || by left).
    simpl. f_equal. eapply IH; [|exact Htr].
    intros p m Hp. apply Hleaf. by right.
Qed.

(** X6.  [DFSVisit] takes the heads from the last to the first.  With heads
    on different nodes of a closed heap, the first node visited is the node
    of the last head, the nodes of the heads are visited in the reverse of
    the order of the heads, and when no head node has an input the visit
    order is exactly the reversed list of the heads. *)
Theorem DFSVisit_heads_last_to_first h s :
  closed h → heads_in h s → NoDup (source <$> heads_ s) →
  ∃ order, visit_order h s = Some order ∧
    head order = last (source <$> heads_ s) ∧
    sublist (reverse (source <$> heads_ s)) order ∧
    ((∀ e n, e ∈ heads_ s → h !! source e = Some n → inputs n = []) →
     order = reverse (source <$> heads_ s)).
Proof.
  intros Hcl Hin Hnd.
  destruct (DFS_trace_total h s Hcl Hin) as [tr Htr].
  exists tr.*1. rewrite visit_order_trace, Htr. split; [done|].
  rewrite DFS_trace_unfold in Htr.
  rewrite new_of_distinct in Htr
    by (done || intros p _; apply not_elem_of_empty).
  split_and!.
  - rewrite <-head_reverse.
    destruct (reverse (source <$> heads_ s)) as [|back stack].
    + destruct (size h); by injection Htr as <-.
    + by apply dfs_list_inv in Htr as (f & n & tr' & _ & _ & -> & _).
  - by eapply dfs_list_sublist.
  - intros Hleaf. eapply dfs_list_leaves; [|exact Htr].
    intros p n Hp Hn. rewrite elem_of_reverse in Hp.
    apply list_elem_of_fmap in Hp as (e & -> & He). by eapply Hleaf.
Qed.

Lemma DFSVisit_heads_last_to_first_witness :
  let mul := mkOp "Mul" ["lhs"; "rhs"] ["output"] 1 in
  let h : gmap nat Node :=
    {[ 0 := mkNode None (Some mul) "f" [mkEntry 1 0; mkEntry 2 0];
       1 := mkNode None None "x" [];
       2 := mkNode None None "y" [];
       3 := mkNode None None "z" [] ]} in
  let s := mkSymbol [mkEntry 3 0; mkEntry 0 0] in
  visit_order h s = Some [0; 1; 2; 3] ∧
  ∃ order, visit_order h s = Some order ∧ head order = Some 0 ∧
    sublist [0; 3] order.
Proof.
  intros mul h s. split; [vm_compute; reflexivity|].
  destruct (DFSVisit_heads_last_to_first h s) as (order & Ho & Hhd & Hsub & _).
  - apply closedb_closed. vm_compute. reflexivity.
  - apply heads_inb_heads_in. vm_compute. reflexivity.
  - vm_compute. repeat constructor; set_solver.
  - exists order. split_and!; [exact Ho|exact Hhd|exact Hsub].
Defined.

(** The traversal of a stack of nodes without inputs. *)
Lemma dfs_list_variables h (node : nat * string → Node) fuel
    (l : list (nat * string)) visited :
  length l ≤ fuel →
  (∀ v, v ∈ l → h !! v.1 = Some (node v) ∧ inputs (node v) = []) →
  dfs_list h fuel l.*1 visited = Some ((λ v, (v.1, node v)) <$> l).
Proof.
  revert fuel visited. induction l as [|v l IH]; intros fuel visited Hlen Hl.
  - by destruct fuel.
  - destruct fuel as [|fuel]; [simpl in Hlen; lia|].
    destruct (Hl v) as [Hv Hin]; [by left|].
    rewrite fmap_cons, (dfs_list_step h _ _ _ _ _ Hv), Hin. simpl.
    change (discovered [] visited) with (@nil nat). simpl.
    rewrite IH; [done|simpl in Hlen; lia|].
    intros w Hw. apply Hl. by right.
Qed.

Lemma arg_names_variables (l : list (nat * string)) :
  arg_names ((λ v, (v.1, mkNode None None v.2 [])) <$> l) = l.*2.
Proof.
  unfold arg_names. induction l as [|v l IH]; [done|].
  rewrite !fmap_cons, filter_cons. simpl. f_equal. exact IH.
Qed.

(** X7.  For a group of variables on different nodes, [ListArguments()]
    lists the names from the last variable to the first, while
    [ListReturns()] lists them from the first to the last. *)
Theorem CreateGroup_variables_order h (vars : list (nat * string)) :
  NoDup vars.*1 →
  (∀ p nm, (p, nm) ∈ vars → h !! p = Some (mkNode None None nm [])) →
  let s := CreateGroup ((λ v, mkSymbol [mkEntry v.1 0]) <$> vars) in
  ListArguments h s = Some (reverse vars.*2) ∧
  ListReturns h s = Some vars.*2.
Proof.
  intros Hnd Hvars s.
  assert (heads_ s = (λ v, mkEntry v.1 0) <$> vars) as Hheads.
  { unfold s, CreateGroup. simpl. clear.
    induction vars as [|v vars IH]; [done|]. simpl. f_equal. exact IH. }
  assert (source <$> heads_ s = vars.*1) as Hsrc.
  { rewrite Hheads, <-list_fmap_compose. done. }
  split.
  - assert (is_atomic h s = false) as Hat.
    { unfold is_atomic. rewrite Hheads.
      destruct vars as [|[p nm] [|]]; try done. simpl.
      by rewrite (Hvars p nm) by (by left). }
    rewrite (ListArguments_composite h s Hat), DFS_trace_unfold, Hsrc.
    rewrite new_of_distinct by (done || intros p _; apply not_elem_of_empty).
    rewrite <-fmap_reverse.
    rewrite (dfs_list_variables h (λ v, mkNode None None v.2 [])).
    + simpl. f_equal. rewrite arg_names_variables. by rewrite fmap_reverse.
    + rewrite length_reverse, <-(length_fmap fst).
      apply NoDup_length_size; [done|].
      intros p ([q nm] & -> & Hq)%list_elem_of_fmap. simpl.
      rewrite (Hvars q nm Hq). by eexists.
    + intros [p nm] Hv. rewrite elem_of_reverse in Hv.
      split; [|done]. by apply Hvars.
  - unfold ListReturns. rewrite Hheads. clear Hheads Hsrc Hnd s.
    assert (∀ p nm, (p, nm) ∈ vars →
              ListReturns_head h (mkEntry p 0) = Some nm) as Hhead.
    { intros p nm Hp. unfold ListReturns_head. simpl.
      by rewrite (Hvars p nm Hp). }
    clear Hvars. induction vars as [|[p nm] vars IH]; [done|].
    rewrite !fmap_cons. cbn [mapM]. simpl.
    rewrite (Hhead p nm) by (by left). simpl.
    rewrite IH; [done|]. intros q nm' Hq. apply Hhead. by right.
Qed.

Lemma CreateGroup_variables_order_witness :
  let h0 := (CreateVariable ∅ "a").1 in
  let h1 := (CreateVariable h0 "b").1 in
  let s := CreateGroup [(CreateVariable ∅ "a").2; (CreateVariable h0 "b").2] in
  ListArguments h1 s = Some ["b"; "a"] ∧ ListReturns h1 s = Some ["a"; "b"].
Proof.
  intros h0 h1 s.
  apply (CreateGroup_variables_order h1 [(0, "a"%string); (1, "b"%string)]).
  - vm_compute. repeat constructor; set_solver.
  - intros p nm Hp.
    apply elem_of_cons in Hp as [[= -> ->]|Hp]; [vm_compute; reflexivity|].
    apply list_elem_of_singleton in Hp as [= -> ->]. vm_compute. reflexivity.
Defined.

(** ** [FindDuplicateArgs] and [ListArguments] *)

Lemma var_count_arg_names key tr :
  var_count key tr = occurrences key (arg_names tr).
Proof.
  unfold var_count, occurrences, arg_names.
  induction tr as [|[p n] tr IH]; [done|].
  rewrite !filter_cons. simpl.
  destruct (decide (node_is_variable n = true)) as [Hv|Hv].
  - rewrite fmap_cons, filter_cons. simpl.
    destruct (decide (name n = key)) as [Hk|Hk].
    + rewrite decide_True by done. simpl. by rewrite IH.
    + rewrite decide_False by tauto. exact IH.
  - rewrite decide_False by tauto. exact IH.
Qed.

Lemma occurrences_elem_of key l : key ∈ l ↔ occurrences key l ≠ 0.
Proof.
  unfold occurrences. induction l as [|a l IH].
  - split; [by intros ?%elem_of_nil|done].
  - rewrite filter_cons, elem_of_cons. destruct (decide (a = key)) as [->|Hne].
    + simpl. split; [lia|by left].
    + rewrite IH. split; [by intros [|]|by right].
Qed.

Lemma NoDup_occurrences l : NoDup l ↔ ∀ key, occurrences key l ≤ 1.
Proof.
  induction l as [|a l IH].
  - split; [intros _ key; cbn; lia|constructor].
  - rewrite NoDup_cons, IH. split.
    + intros [Ha Hl] key. unfold occurrences. rewrite filter_cons.
      destruct (decide (a = key)) as [->|Hne]; [|apply Hl].
      simpl. rewrite occurrences_elem_of in Ha. unfold occurrences in Ha. lia.
    + intros Hl. split.
      * rewrite occurrences_elem_of. specialize (Hl a).
        unfold occurrences in *. rewrite filter_cons, decide_True in Hl by done.
        simpl in Hl. lia.
      * intros key. specialize (Hl key). unfold occurrences in *.
        rewrite filter_cons in Hl.
        destruct (decide (a = key)); simpl in Hl; lia.
Qed.

(** The maximum that [FindDuplicateArgs] returns is 1 or the count of some
    name. *)
Lemma FindDuplicateArgs_max tr out max_dup :
  run_visitor FindDuplicateArgs_visit (∅, 1) tr = (out, max_dup) →
  max_dup = 1 ∨ ∃ key, var_count key tr = max_dup.
Proof.
  revert out max_dup. induction tr as [|[p n] tr IH] using rev_ind;
    intros out max_dup.
  - intros [= <- <-]. by left.
  - rewrite run_visitor_snoc.
    destruct (run_visitor FindDuplicateArgs_visit (∅, 1) tr)
      as [out0 max0] eqn:Hrun.
    destruct (FindDuplicateArgs_counts _ _ _ Hrun) as (Hout & Hmax & Hone).
    specialize (IH out0 max0 eq_refl).
    unfold FindDuplicateArgs_visit.
    destruct (node_is_variable n) eqn:Hvar.
    + pose proof (Hout (name n)) as Hn.
      destruct (out0 !! name n) as [c|] eqn:Hc; intros [= <- <-].
      * case_decide as Hz; [done|]. injection Hn as ->.
        destruct (Nat.max_spec max0 (S (var_count (name n) tr)))
          as [[Hlt ->]|[Hle ->]].
        -- right. exists (name n). rewrite var_count_snoc.
           rewrite decide_True by done. lia.
        -- destruct IH as [->|[key Hkey]]; [by left|]. right.
           destruct (decide (key = name n)) as [->|Hne].
           ++ lia.
           ++ exists key. rewrite var_count_snoc.
              rewrite decide_False by naive_solver. lia.
      * case_decide as Hz; [|done].
        destruct IH as [->|[key Hkey]]; [by left|]. right.
        destruct (decide (key = name n)) as [->|Hne].
        -- specialize (Hmax (name n)). lia.
        -- exists key. rewrite var_count_snoc.
           rewrite decide_False by naive_solver. lia.
    + intros [= <- <-]. destruct IH as [->|[key Hkey]]; [by left|]. right.
      exists key. rewrite var_count_snoc.
      rewrite decide_False by (intros [? _]; congruence). lia.
Qed.

(** X8.  On a closed heap and a symbol that is not atomic,
    [FindDuplicateArgs] returns and counts the entries of [ListArguments()]:
    the map sends a name to the number of times it is listed and holds no
    other name, the returned maximum bounds every count and, when above 1,
    is the count of some name; it is 1 exactly when no name is listed
    twice. *)
Theorem FindDuplicateArgs_counts_arguments h s :
  closed h → heads_in h s → is_atomic h s = false →
  ∃ out max_dup args,
    FindDuplicateArgs h s = Some (out, max_dup) ∧
    ListArguments h s = Some args ∧
    (∀ key, out !! key
            = if decide (key ∈ args) then Some (occurrences key args)
              else None) ∧
    (∀ key, occurrences key args ≤ max_dup) ∧
    (1 < max_dup → ∃ key, out !! key = Some max_dup) ∧
    (max_dup = 1 ↔ NoDup args).
Proof.
  intros Hcl Hin Hat. rewrite (ListArguments_composite h s Hat).
  unfold FindDuplicateArgs. rewrite DFSVisit_trace.
  destruct (DFS_trace_total h s Hcl Hin) as [tr ->]. simpl.
  destruct (run_visitor FindDuplicateArgs_visit (∅, 1) tr)
    as [out max_dup] eqn:Hrun.
  exists out, max_dup, (arg_names tr). split; [done|]. split; [done|].
  destruct (FindDuplicateArgs_counts _ _ _ Hrun) as (Hout & Hmax & Hone).
  pose proof (FindDuplicateArgs_max _ _ _ Hrun) as Hwit.
  assert (∀ key, out !! key
            = if decide (key ∈ arg_names tr)
              then Some (occurrences key (arg_names tr)) else None) as Hout'.
  { intros key. rewrite Hout, var_count_arg_names.
    destruct (decide (key ∈ arg_names tr)) as [Hin'|Hin'].
    - apply occurrences_elem_of in Hin'. by rewrite decide_False.
    - rewrite decide_True; [done|].
      destruct (decide (occurrences key (arg_names tr) = 0)); [done|].
      exfalso. by apply Hin', occurrences_elem_of. }
  split_and!; [done| | |].
  - intros key. rewrite <-var_count_arg_names. apply Hmax.
  - intros Hgt. destruct Hwit as [->|[key Hkey]]; [lia|].
    exists key. rewrite Hout, decide_False by lia. by rewrite Hkey.
  - rewrite NoDup_occurrences. split.
    + intros -> key. rewrite <-var_count_arg_names. apply Hmax.
    + intros Hnd. destruct Hwit as [->|[key Hkey]]; [done|].
      specialize (Hnd key). rewrite <-var_count_arg_names in Hnd. lia.
Qed.

Lemma FindDuplicateArgs_counts_arguments_witness :
  let mul := mkOp "Mul" ["lhs"; "rhs"] ["output"] 1 in
  let h : gmap nat Node :=
    {[ 0 := mkNode None (Some mul) "f" [mkEntry 1 0; mkEntry 2 0];
       1 := mkNode None None "x" [];
       2 := mkNode None None "x" [] ]} in
  let s := mkSymbol [mkEntry 0 0] in
  ListArguments h s = Some ["x"; "x"] ∧
  ∃ out, FindDuplicateArgs h s = Some (out, 2) ∧
    out !! "x"%string = Some 2 ∧ ¬ NoDup ["x"%string; "x"%string].
Proof.
  intros mul h s. split; [vm_compute; reflexivity|].
  destruct (FindDuplicateArgs_counts_arguments h s)
    as (out & max_dup & args & Hf & Hargs & Hout & _ & _ & Hnd).
  - apply closedb_closed. vm_compute. reflexivity.
  - apply heads_inb_heads_in. vm_compute. reflexivity.
  - vm_compute. reflexivity.
  - assert (args = ["x"; "x"]%string) as ->.
    { vm_compute in Hargs. by injection Hargs as <-. }
    assert (max_dup = 2) as ->.
    { vm_compute in Hf. by injection Hf as _ <-. }
    exists out. split_and!; [exact Hf| |].
    + rewrite Hout. reflexivity.
    + intros Hx. apply Hnd in Hx. discriminate Hx.
Defined.

(** ** [ToStaticGraph] *)

Lemma var_positions_snoc tr p n :
  var_positions (tr ++ [(p, n)])
    = var_positions tr ++ (if node_is_variable n then [length tr] else []).
Proof.
  unfold var_positions. rewrite imap_app, filter_app, fmap_app. f_equal.
  simpl. rewrite filter_cons. simpl. rewrite Nat.add_0_r.
  destruct (node_is_variable n); [by rewrite decide_True|].
  by rewrite decide_False.
Qed.

Lemma var_positions_lt tr i : i ∈ var_positions tr → i < length tr.
Proof.
  induction tr as [|[p n] tr IH] using rev_ind.
  - by intros ?%elem_of_nil.
  - rewrite var_positions_snoc, length_app, elem_of_app. simpl.
    intros [Hi%IH|Hi]; [lia|].
    destruct (node_is_variable n); [|by apply elem_of_nil in Hi].
    apply list_elem_of_singleton in Hi as ->. lia.
Qed.

Lemma mapM_ext_in {A B} (f g : A → option B) (l : list A) :
  (∀ x, x ∈ l → f x = g x) → mapM f l = mapM g l.
Proof.
  induction l as [|x l IH]; intros Hfg; [done|]. simpl.
  rewrite (Hfg x) by (by left). destruct (g x); simpl; [|done].
  rewrite IH; [done|]. intros y Hy. apply Hfg. by right.
Qed.

Lemma arg_names_singleton p n :
  arg_names [(p, n)] = if node_is_variable n then [name n] else [].
Proof.
  unfold arg_names. rewrite filter_cons. simpl.
  destruct (node_is_variable n); [by rewrite decide_True|].
  by rewrite decide_False.
Qed.

(** The names read at the positions of the variables are the names that
    [ListArguments] collects. *)
Lemma var_positions_names (f : nat * Node → StaticGraphNode) tr :
  (∀ pn, sn_name (sg_node (f pn)) = name pn.2) →
  mapM (λ id, (λ n, sn_name (sg_node n)) <$> (f <$> tr) !! id)
    (var_positions tr) = Some (arg_names tr).
Proof.
  intros Hf. induction tr as [|[p n] tr IH] using rev_ind; [done|].
  rewrite var_positions_snoc, mapM_app_Some, arg_names_app.
  rewrite (mapM_ext_in _
             (λ id, (λ n, sn_name (sg_node n)) <$> (f <$> tr) !! id)
             (var_positions tr)).
  - rewrite IH, arg_names_singleton. destruct (node_is_variable n); simpl.
    + rewrite fmap_app, lookup_app_r by (by rewrite length_fmap).
      rewrite length_fmap, Nat.sub_diag. simpl. by rewrite Hf.
    + done.
  - intros i Hi%var_positions_lt.
    by rewrite fmap_app, lookup_app_l by (by rewrite length_fmap).
Qed.

(** What the visitor of [ToStaticGraph] has built after the traversal. *)
Lemma ToStaticGraph_visit_spec tr node_order node_index arg_ns :
  NoDup tr.*1 →
  run_visitor ToStaticGraph_visit ([], ∅, []) tr
    = (node_order, node_index, arg_ns) →
  node_order = tr.*1 ∧
  size node_index = length tr ∧
  (∀ p i, node_index !! p = Some i ↔ tr.*1 !! i = Some p) ∧
  arg_ns = var_positions tr.
Proof.
  revert node_order node_index arg_ns.
  induction tr as [|[p n] tr IH] using rev_ind;
    intros node_order node_index arg_ns Hnd.
  - intros [= <- <- <-]. split_and!; done.
  - rewrite run_visitor_snoc.
    destruct (run_visitor ToStaticGraph_visit ([], ∅, []) tr)
      as [[order0 index0] args0].
    rewrite fmap_app in Hnd. apply NoDup_app in Hnd as (Hnd & Hp & _).
    destruct (IH order0 index0 args0 Hnd eq_refl)
      as (-> & Hsize & Hidx & ->).
    assert (p ∉ tr.*1) as Hfresh.
    { intros Hin. apply (Hp p Hin). simpl. by left. }
    assert (index0 !! p = None) as Hnone.
    { destruct (index0 !! p) as [i|] eqn:Hi; [|done].
      exfalso. apply Hfresh. apply Hidx in Hi.
      by eapply list_elem_of_lookup_2. }
    unfold ToStaticGraph_visit. intros [= <- <- <-]. split_and!.
    + by rewrite fmap_app.
    + rewrite map_size_insert_None by done. rewrite length_app. simpl. lia.
    + intros q i. rewrite fmap_app. simpl.
      destruct (decide (q = p)) as [->|Hne].
      * rewrite lookup_insert_eq, Hsize. split.
        -- intros [= <-]. rewrite lookup_app_r by (by rewrite length_fmap).
           by rewrite length_fmap, Nat.sub_diag.
        -- intros Hi. destruct (decide (i < length tr.*1)) as [Hlt|Hge].
           ++ rewrite lookup_app_l in Hi by done. exfalso.
              apply Hfresh. by eapply list_elem_of_lookup_2.
           ++ apply lookup_lt_Some in Hi as Hlt.
              rewrite length_app in Hlt. rewrite length_fmap in *. simpl in Hlt.
              f_equal. lia.
      * rewrite lookup_insert_ne by done. rewrite Hidx. split.
        -- intros Hi. rewrite lookup_app_l; [done|].
           by eapply lookup_lt_Some.
        -- intros Hi. destruct (decide (i < length tr.*1)) as [Hlt|Hge].
           ++ by rewrite lookup_app_l in Hi.
           ++ rewrite lookup_app_r in Hi by lia.
              destruct (i - length tr.*1) as [|k]; simpl in Hi; [|done].
              congruence.
    + rewrite var_positions_snoc, Hsize.
      destruct (node_is_variable n); [done|by rewrite app_nil_r].
Qed.

(** On a closed heap [ToStaticGraph] returns, and its result is read off the
    sequence of visited nodes. *)
Lemma ToStaticGraph_spec h s :
  closed h → heads_in h s →
  ∃ tr node_index,
    DFS_trace h s = Some tr ∧
    (∀ p i, node_index !! p = Some i ↔ tr.*1 !! i = Some p) ∧
    ToStaticGraph h s
      = Some (mkStaticGraph
                ((λ pn, ToStaticGraph_node node_index pn.2) <$> tr)
                (var_positions tr)
                (static_entry node_index <$> heads_ s)).
Proof.
  intros Hcl Hin. destruct (DFS_trace_total h s Hcl Hin) as [tr Htr].
  pose proof (DFS_trace_NoDup h s tr Hcl Hin Htr) as Hnd.
  unfold ToStaticGraph. rewrite DFSVisit_trace, Htr. simpl.
  destruct (run_visitor ToStaticGraph_visit ([], ∅, []) tr)
    as [[node_order node_index] arg_ns] eqn:Hrun.
  destruct (ToStaticGraph_visit_spec _ _ _ _ Hnd Hrun)
    as (-> & Hsize & Hidx & ->).
  exists tr, node_index. split_and!; [done..|].
  rewrite decide_True by (rewrite length_fmap; lia).
  assert (mapM (λ p, ToStaticGraph_node node_index <$> h !! p) tr.*1
          = Some ((λ pn, ToStaticGraph_node node_index pn.2) <$> tr)) as ->;
    [|done].
  assert (∀ p n, (p, n) ∈ tr → h !! p = Some n) as Hlook.
  { intros p n. by eapply DFS_trace_lookup. }
  clear Htr Hnd Hrun Hsize Hidx.
  induction tr as [|[p n] tr IH]; [done|].
  rewrite !fmap_cons. cbn [mapM]. simpl.
  rewrite (Hlook p n) by (by left). simpl.
  rewrite IH; [done|]. intros q m Hq. apply Hlook. by right.
Qed.

Lemma node_index_at_visited (node_index : gmap nat nat) (order : list nat) p :
  (∀ q i, node_index !! q = Some i ↔ order !! i = Some q) →
  p ∈ order → order !! node_index_at node_index p = Some p.
Proof.
  intros Hidx [i Hi]%list_elem_of_lookup. unfold node_index_at.
  by rewrite (proj2 (Hidx p i) Hi).
Qed.

Lemma node_index_at_unvisited (node_index : gmap nat nat) (order : list nat) p :
  (∀ q i, node_index !! q = Some i ↔ order !! i = Some q) →
  p ∉ order → node_index_at node_index p = 0.
Proof.
  intros Hidx Hp. unfold node_index_at.
  destruct (node_index !! p) as [i|] eqn:Hi; [|done].
  exfalso. apply Hp. apply Hidx in Hi. by eapply list_elem_of_lookup_2.
Qed.

(** X9.  On a closed heap [ToStaticGraph] returns a graph with one node per
    reachable node, in the order of the traversal: the node with id [i] has
    the name and the cloned operator of the [i]-th visited node.  The
    argument nodes are the ids of the variables, in increasing order, and the
    names found at these ids are, in order, the names that the traversal
    collects from the variables: [ListArguments()] when the symbol is not
    atomic. *)
Theorem ToStaticGraph_nodes_in_visit_order h s :
  closed h → heads_in h s →
  ∃ g tr, ToStaticGraph h s = Some g ∧ DFS_trace h s = Some tr ∧
    Forall2 (λ pn sn, sg_op sn = op_Copy <$> op pn.2 ∧
                      sn_name (sg_node sn) = name pn.2) tr (nodes g) ∧
    arg_nodes g = var_positions tr ∧
    mapM (λ id, (λ n, sn_name (sg_node n)) <$> nodes g !! id) (arg_nodes g)
      = Some (arg_names tr) ∧
    (is_atomic h s = false → ListArguments h s = Some (arg_names tr)).
Proof.
  intros Hcl Hin.
  destruct (ToStaticGraph_spec h s Hcl Hin) as (tr & idx & Htr & Hidx & Hg).
  eexists _, tr. split_and!; [exact Hg|exact Htr| |done| |].
  - simpl. apply Forall2_fmap_r, Forall_Forall2_diag, Forall_forall. done.
  - simpl. by apply var_positions_names.
  - intros Hat. by rewrite (ListArguments_composite h s Hat), Htr.
Qed.

Lemma ToStaticGraph_nodes_in_visit_order_witness :
  let mul := mkOp "Mul" ["lhs"; "rhs"] ["output"] 1 in
  let h : gmap nat Node :=
    {[ 5 := mkNode None (Some mul) "f" [mkEntry 7 0; mkEntry 9 0];
       7 := mkNode None None "x" [];
       9 := mkNode None None "y" [] ]} in
  let s := mkSymbol [mkEntry 5 0] in
  ∃ g, ToStaticGraph h s = Some g ∧ arg_nodes g = [1; 2] ∧
    (λ n, sn_name (sg_node n)) <$> nodes g = ["f"; "x"; "y"]%string ∧
    ListArguments h s = Some ["x"; "y"]%string.
Proof.
  intros mul h s.
  destruct (ToStaticGraph_nodes_in_visit_order h s)
    as (g & tr & Hg & Htr & _ & _ & _ & Hargs).
  - apply closedb_closed. vm_compute. reflexivity.
  - apply heads_inb_heads_in. vm_compute. reflexivity.
  - exists g. vm_compute in Hg. injection Hg as <-.
    split_and!; [reflexivity..|]. vm_compute. reflexivity.
Defined.

(** X10.  The edges of the static graph stand for the edges of the graph.
    On a closed heap the node with id [i] has one input per input of the
    [i]-th visited node, in the same order, with the same output index and
    with the id at which the source of the input was visited; the heads are
    rewritten in the same way.  Every id of the static graph therefore
    addresses one of its nodes. *)
Theorem ToStaticGraph_edges h s g order :
  closed h → heads_in h s →
  ToStaticGraph h s = Some g → visit_order h s = Some order →
  length (nodes g) = length order ∧
  (∀ i p n, order !! i = Some p → h !! p = Some n →
     ∃ sn, nodes g !! i = Some sn ∧
       Forall2 (edge_at order) (inputs n) (sn_inputs (sg_node sn))) ∧
  Forall2 (edge_at order) (heads_ s) (heads g).
Proof.
  intros Hcl Hin Hg Ho.
  destruct (ToStaticGraph_spec h s Hcl Hin) as (tr & idx & Htr & Hidx & Hg').
  rewrite Hg in Hg'. injection Hg' as ->.
  rewrite visit_order_trace, Htr in Ho. injection Ho as <-. simpl.
  assert (∀ e, reachable h s (source e) →
            edge_at tr.*1 e (static_entry idx e)) as Hedge.
  { intros e He. split; [|done]. simpl.
    apply (node_index_at_visited idx tr.*1); [done|].
    by eapply DFS_trace_reachable. }
  split_and!.
  - by rewrite !length_fmap.
  - intros i p n Hi Hn.
    rewrite list_lookup_fmap in Hi.
    destruct (tr !! i) as [[q m]|] eqn:Hq; [|done]. injection Hi as ->.
    assert (m = n) as ->.
    { apply list_elem_of_lookup_2 in Hq.
      pose proof (DFS_trace_lookup _ _ _ _ _ Htr Hq). congruence. }
    eexists. rewrite list_lookup_fmap, Hq. split; [done|]. simpl.
    apply Forall2_fmap_r, Forall_Forall2_diag, Forall_forall.
    intros e He. apply Hedge. eapply reachable_input; [|exact Hn|exact He].
    eapply DFS_trace_reachable; [done..|].
    apply list_elem_of_fmap. exists (p, n). split; [done|].
    by eapply list_elem_of_lookup_2.
  - apply Forall2_fmap_r, Forall_Forall2_diag, Forall_forall.
    intros e He. apply Hedge. by apply reachable_head.
Qed.

Lemma ToStaticGraph_edges_witness :
  let mul := mkOp "Mul" ["lhs"; "rhs"] ["output"] 1 in
  let h : gmap nat Node :=
    {[ 5 := mkNode None (Some mul) "f" [mkEntry 7 0; mkEntry 9 0];
       7 := mkNode None None "x" [];
       9 := mkNode None None "y" [] ]} in
  let s := mkSymbol [mkEntry 5 0] in
  ∃ g, ToStaticGraph h s = Some g ∧ length (nodes g) = 3 ∧
    Forall2 (edge_at [5; 7; 9]) (heads_ s) (heads g).
Proof.
  intros mul h s.
  destruct (ToStaticGraph h s) as [g|] eqn:Hg; [|vm_compute in Hg; discriminate].
  destruct (ToStaticGraph_edges h s g [5; 7; 9]) as (Hlen & _ & Hheads).
  - apply closedb_closed. vm_compute. reflexivity.
  - apply heads_inb_heads_in. vm_compute. reflexivity.
  - exact Hg.
  - vm_compute. reflexivity.
  - exists g. split_and!; [reflexivity|exact Hlen|exact Hheads].
Defined.

(** X11.  The backward-source id of a node of the static graph is -1 when
    the node has no backward source, and the id at which the backward source
    was visited when the traversal reached it.  The traversal follows input
    edges only: a backward source that is not reachable through inputs is
    looked up in [node_index] all the same, line 510, and gets the id 0,
    which is the id of the first visited node. *)
Theorem ToStaticGraph_backward_source_id h s g order i p n sn :
  closed h → heads_in h s →
  ToStaticGraph h s = Some g → visit_order h s = Some order →
  order !! i = Some p → h !! p = Some n → nodes g !! i = Some sn →
  match backward_source_node n with
  | None => sn_backward_source_id (sg_node sn) = (-1)%Z
  | Some b =>
      (∀ j, order !! j = Some b →
         sn_backward_source_id (sg_node sn) = Z.of_nat j) ∧
      (b ∉ order → sn_backward_source_id (sg_node sn) = 0%Z)
  end.
Proof.
  intros Hcl Hin Hg Ho Hi Hn Hsn.
  destruct (ToStaticGraph_spec h s Hcl Hin) as (tr & idx & Htr & Hidx & Hg').
  rewrite Hg in Hg'. injection Hg' as ->.
  rewrite visit_order_trace, Htr in Ho. injection Ho as <-.
  pose proof (DFS_trace_NoDup h s tr Hcl Hin Htr) as Hnd.
  cbn [nodes] in Hsn. rewrite list_lookup_fmap in Hi.
  rewrite list_lookup_fmap in Hsn.
  destruct (tr !! i) as [[q m]|] eqn:Hq; [|done].
  injection Hi as ->. injection Hsn as <-.
  assert (m = n) as ->.
  { apply list_elem_of_lookup_2 in Hq.
    pose proof (DFS_trace_lookup _ _ _ _ _ Htr Hq). congruence. }
  simpl. destruct (backward_source_node n) as [b|]; [|done]. split.
  - intros j Hj. f_equal.
    pose proof (node_index_at_visited idx tr.*1 b Hidx
                  (list_elem_of_lookup_2 _ _ _ Hj)) as Hb.
    by eapply NoDup_lookup.
  - intros Hb. by rewrite (node_index_at_unvisited idx tr.*1 b Hidx Hb).
Qed.

Lemma ToStaticGraph_backward_source_id_witness :
  let mul := mkOp "Mul" ["lhs"; "rhs"] ["output"] 1 in
  let gx := mkNode (Some 5) None "x_grad" [mkEntry 9 0] in
  let h : gmap nat Node :=
    {[ 5 := mkNode None (Some mul) "f" [mkEntry 7 0; mkEntry 9 0];
       7 := mkNode None None "x" [];
       9 := mkNode None None "y" [];
       11 := gx ]} in
  let s := mkSymbol [mkEntry 11 0] in
  visit_order h s = Some [11; 9] ∧
  ∃ g sn, ToStaticGraph h s = Some g ∧ nodes g !! 0 = Some sn ∧
    sn_backward_source_id (sg_node sn) = 0%Z.
Proof.
  intros mul gx h s. split; [vm_compute; reflexivity|].
  destruct (ToStaticGraph h s) as [g|] eqn:Hg; [|vm_compute in Hg; discriminate].
  destruct (nodes g !! 0) as [sn|] eqn:Hsn;
    [|vm_compute in Hg; injection Hg as <-; discriminate].
  exists g, sn. split_and!; [reflexivity|exact Hsn|].
  pose proof (ToStaticGraph_backward_source_id h s g [11; 9] 0 11 gx sn)
    as Hb.
  simpl in Hb. apply Hb.
  - apply closedb_closed. vm_compute. reflexivity.
  - apply heads_inb_heads_in. vm_compute. reflexivity.
  - exact Hg.
  - vm_compute. reflexivity.
  - reflexivity.
  - vm_compute. reflexivity.
  - exact Hsn.
  - intros Hin. repeat (apply elem_of_cons in Hin as [Hin|Hin]; [done|]).
    by apply elem_of_nil in Hin.
Defined.

(** ** [InferShape] with known shapes *)

Section InferShape_properties.
Context {TShape : Type} (TShape_unset : TShape).
Context (StaticGraph_InferShape :
  StaticGraph → list TShape → list TShape → bool * list TShape * list TShape).

Lemma shapes_find_Some (known : list (string * TShape)) key shape :
  shapes_find known key = Some shape → key ∈ known.*1.
Proof.
  unfold shapes_find.
  destruct (List.find _ known) as [[k b]|] eqn:Hf; [|done].
  intros [= <-].
  apply find_first_split in Hf as (pre & post & -> & Hk & _).
  simpl in Hk. apply bool_decide_eq_true in Hk as ->.
  rewrite fmap_app, fmap_cons. apply elem_of_app. right. by left.
Qed.

(** The loop of lines 442-449 fills the slot of every argument whose name is
    a key and counts these slots. *)
Lemma InferShape_match_loop (known : list (string * TShape)) names k
    (filled : list TShape) c :
  length filled = k →
  foldl (InferShape_match known)
    (filled ++ replicate (length names) TShape_unset, c)
    (imap (λ i, pair (k + i)) names)
  = (filled ++ ((λ nm, default TShape_unset (shapes_find known nm)) <$> names),
     c + length (filter (λ nm, is_Some (shapes_find known nm)) names)).
Proof.
  revert k filled c. induction names as [|nm names IH]; intros k filled c Hk.
  - simpl. by rewrite Nat.add_0_r.
  - cbn [imap foldl length replicate]. rewrite Nat.add_0_r.
    rewrite (imap_ext _ (λ i, pair (S k + i)))
      by (intros; simpl; f_equal; lia).
    rewrite filter_cons, fmap_cons.
    unfold InferShape_match at 2. cbn [fst snd].
    destruct (shapes_find known nm) as [shape|] eqn:Hfind.
    + rewrite decide_True by eauto.
      rewrite insert_app_r_alt by lia. rewrite Hk, Nat.sub_diag. simpl.
      rewrite (cons_middle shape filled), (assoc (++)).
      etrans; [apply (IH (S k) (filled ++ [shape]) (S c));
               rewrite length_app; simpl; lia|].
      rewrite <-(assoc (++)). simpl. f_equal. lia.
    + rewrite decide_False by (by intros [??]).
      rewrite (cons_middle TShape_unset filled), (assoc (++)).
      etrans; [apply (IH (S k) (filled ++ [TShape_unset]) c);
               rewrite length_app; simpl; lia|].
      rewrite <-(assoc (++)). done.
Qed.

(** [InferShape] with known shapes on a closed heap, up to the report. *)
Lemma InferShape_known_spec h s (known : list (string * TShape)) out_shapes :
  closed h → heads_in h s →
  ∃ g tr, ToStaticGraph h s = Some g ∧ DFS_trace h s = Some tr ∧
    InferShape_known TShape_unset StaticGraph_InferShape h s known out_shapes
    = match
        (if decide (length (filter (λ nm, is_Some (shapes_find known nm))
                              (arg_names tr)) = length known)
         then Done
         else match ListArguments h s with
              | None => Undefined
              | Some candidates =>
                  KeywordArgumentMismatch "Symbol.InterShape" known.*1
                    candidates
              end)
      with
      | Done =>
          Returns
            (StaticGraph_InferShape g
               ((λ nm, default TShape_unset (shapes_find known nm))
                  <$> arg_names tr)
               out_shapes)
      | Fail e => Fails e
      | Undefined => Undef
      end.
Proof.
  intros Hcl Hin.
  destruct (ToStaticGraph_spec h s Hcl Hin) as (tr & idx & Htr & Hidx & Hg).
  eexists _, tr. split_and!; [exact Hg|exact Htr|].
  unfold InferShape_known. rewrite Hg. cbn [nodes arg_nodes].
  rewrite var_positions_names by done.
  assert (length (var_positions tr) = length (arg_names tr)) as ->.
  { pose proof (var_positions_names
                  (λ pn, ToStaticGraph_node idx pn.2) tr (λ _, eq_refl)) as Hm.
    by apply mapM_Some, Forall2_length in Hm. }
  pose proof (InferShape_match_loop known (arg_names tr) 0 [] 0 eq_refl)
    as Hloop.
  change (foldl (InferShape_match known)
            (replicate (length (arg_names tr)) TShape_unset, 0)
            (imap pair (arg_names tr))
          = ((λ nm, default TShape_unset (shapes_find known nm))
               <$> arg_names tr,
             length (filter (λ nm, is_Some (shapes_find known nm))
                       (arg_names tr)))) in Hloop.
  rewrite Hloop. done.
Qed.

(** X12.  On a closed heap and a symbol that is not atomic, when every key
    of the known shapes is a name of [ListArguments()], [InferShape] passes
    to the static graph one shape per argument, in the order of
    [ListArguments()]: the known shape when the name of the argument is a
    key, and the unset shape otherwise. *)
Theorem InferShape_known_delegates h s (known : list (string * TShape))
    out_shapes args :
  closed h → heads_in h s → is_atomic h s = false →
  ListArguments h s = Some args →
  (∀ key, key ∈ known.*1 → key ∈ args) →
  ∃ g, ToStaticGraph h s = Some g ∧
    InferShape_known TShape_unset StaticGraph_InferShape h s known out_shapes
    = Returns
        (StaticGraph_InferShape g
           ((λ nm, default TShape_unset (shapes_find known nm)) <$> args)
           out_shapes).
Proof.
  intros Hcl Hin Hat Hargs Hkeys.
  destruct (InferShape_known_spec h s known out_shapes Hcl Hin)
    as (g & tr & Hg & Htr & ->).
  exists g. split; [done|].
  rewrite (ListArguments_composite h s Hat), Htr in Hargs.
  injection Hargs as <-.
  rewrite (ListArguments_composite h s Hat), Htr. simpl.
  case_decide; [done|].
  unfold KeywordArgumentMismatch.
  destruct (List.find _ known.*1) as [key|] eqn:Hfind; [|done].
  apply find_first_split in Hfind as (pre & post & Heq & Hk & _).
  apply negb_true_iff, bool_decide_eq_false in Hk.
  exfalso. apply Hk, Hkeys. rewrite Heq. apply elem_of_app. right. by left.
Qed.

(** X13.  On a closed heap and a symbol that is not atomic whose argument
    names do not repeat, [InferShape] with a key that is not a name of
    [ListArguments()] fails before the static graph is asked: the failure
    names the first such key and carries [ListArguments()]. *)
Theorem InferShape_known_unmatched h s (known : list (string * TShape))
    out_shapes args key :
  closed h → heads_in h s → is_atomic h s = false →
  ListArguments h s = Some args →
  NoDup args → NoDup known.*1 →
  key ∈ known.*1 → key ∉ args →
  ∃ key' pre post,
    known.*1 = pre ++ key' :: post ∧ Forall (λ k, k ∈ args) pre ∧
    (key' ∉ args) ∧
    InferShape_known TShape_unset StaticGraph_InferShape h s known out_shapes
    = Fails (UnmatchedKeyword "Symbol.InterShape" key' args).
Proof.
  intros Hcl Hin Hat Hargs Hnd Hndk Hkey Hout.
  destruct (InferShape_known_spec h s known out_shapes Hcl Hin)
    as (g & tr & Hg & Htr & ->).
  rewrite (ListArguments_composite h s Hat), Htr in Hargs.
  injection Hargs as <-.
  rewrite (ListArguments_composite h s Hat), Htr. simpl.
  rewrite decide_False.
  - destruct (KeywordArgumentMismatch_first "Symbol.InterShape" known.*1
                (arg_names tr) key Hkey Hout)
      as (key' & pre & post & Heq & Hpre & Hk & ->).
    by exists key', pre, post.
  - set (l := filter (λ nm, is_Some (shapes_find known nm)) (arg_names tr)).
    assert (key :: l ⊆+ known.*1) as Hsub.
    { apply NoDup_submseteq.
      - apply NoDup_cons. split; [|by apply NoDup_filter].
        intros [_ Hk]%list_elem_of_filter. done.
      - intros k [->|[[sh Hsh] _]%list_elem_of_filter]%elem_of_cons; [done|].
        by eapply shapes_find_Some. }
    apply submseteq_length in Hsub. rewrite length_fmap in Hsub.
    simpl in Hsub. lia.
Qed.

(** X14.  An atomic symbol has no argument node in its static graph, so
    [InferShape] matches none of the known shapes.  When every key is an
    argument name of the operator the call passes an empty shape vector to
    the static graph; the known shapes are dropped. *)
Theorem InferShape_known_atomic h hd n0 o (known : list (string * TShape))
    out_shapes :
  h !! source hd = Some n0 → op n0 = Some o → inputs n0 = [] →
  (∀ key, key ∈ known.*1 → key ∈ op_ListArguments o) →
  ∃ g, ToStaticGraph h (mkSymbol [hd]) = Some g ∧ arg_nodes g = [] ∧
    InferShape_known TShape_unset StaticGraph_InferShape h (mkSymbol [hd])
      known out_shapes
    = Returns (StaticGraph_InferShape g [] out_shapes).
Proof.
  intros Hhd Hop Hin Hkeys.
  assert (node_is_variable n0 = false) as Hvar.
  { unfold node_is_variable. by rewrite Hop. }
  assert (ToStaticGraph h (mkSymbol [hd])
          = Some (mkStaticGraph [ToStaticGraph_node {[source hd := 0]} n0] []
                    [static_entry {[source hd := 0]} hd])) as Hg.
  { unfold ToStaticGraph.
    rewrite (DFSVisit_single_leaf h _ (source hd) n0); try done.
    - unfold ToStaticGraph_visit. rewrite Hvar. simpl.
      rewrite insert_empty, map_size_singleton.
      rewrite decide_True by done. simpl. by rewrite Hhd.
    - by intros e ->%list_elem_of_singleton. }
  eexists. split_and!; [exact Hg|done|].
  unfold InferShape_known. rewrite Hg. simpl.
  case_decide; [done|].
  assert (ListArguments h (mkSymbol [hd]) = Some (op_ListArguments o)) as ->.
  { unfold ListArguments, is_atomic. simpl. rewrite Hhd.
    unfold node_is_atomic. rewrite Hin, Hop. simpl. by rewrite ?Hhd, ?Hop. }
  unfold KeywordArgumentMismatch.
  destruct (List.find _ known.*1) as [key|] eqn:Hfind; [|done].
  apply find_first_split in Hfind as (pre & post & Heq & Hk & _).
  apply negb_true_iff, bool_decide_eq_false in Hk.
  exfalso. apply Hk, Hkeys. rewrite Heq. apply elem_of_app. right. by left.
Qed.

End InferShape_properties.

Lemma InferShape_known_delegates_witness :
  let mul := mkOp "Mul" ["lhs"; "rhs"] ["output"] 1 in
  let h : gmap nat Node :=
    {[ 0 := mkNode None (Some mul) "f" [mkEntry 1 0; mkEntry 2 0];
       1 := mkNode None None "x" [];
       2 := mkNode None None "y" [] ]} in
  let s := mkSymbol [mkEntry 0 0] in
  let infer := λ (g : StaticGraph) (a o : list (list nat)), (true, a, o) in
  InferShape_known [] infer h s [("y"%string, [3; 4])] []
    = Returns (true, [[]; [3; 4]], []).
Proof.
  intros mul h s infer.
  destruct (InferShape_known_delegates [] infer h s [("y"%string, [3; 4])] []
              ["x"; "y"]%string) as (g & _ & ->).
  - apply closedb_closed. vm_compute. reflexivity.
  - apply heads_inb_heads_in. vm_compute. reflexivity.
  - vm_compute. reflexivity.
  - vm_compute. reflexivity.
  - intros key ->%list_elem_of_singleton. set_solver.
  - reflexivity.
Defined.

Lemma InferShape_known_unmatched_witness :
  let mul := mkOp "Mul" ["lhs"; "rhs"] ["output"] 1 in
  let h : gmap nat Node :=
    {[ 0 := mkNode None (Some mul) "f" [mkEntry 1 0; mkEntry 2 0];
       1 := mkNode None None "x" [];
       2 := mkNode None None "y" [] ]} in
  let s := mkSymbol [mkEntry 0 0] in
  let infer := λ (g : StaticGraph) (a o : list (list nat)), (true, a, o) in
  InferShape_known [] infer h s [("y"%string, [3; 4]); ("w"%string, [5])] []
    = Fails (UnmatchedKeyword "Symbol.InterShape" "w" ["x"; "y"]) ∧
  ∃ key', InferShape_known [] infer h s
            [("y"%string, [3; 4]); ("w"%string, [5])] []
          = Fails (UnmatchedKeyword "Symbol.InterShape" key' ["x"; "y"]).
Proof.
  intros mul h s infer. split; [vm_compute; reflexivity|].
  destruct (InferShape_known_unmatched [] infer h s
              [("y"%string, [3; 4]); ("w"%string, [5])] []
              ["x"; "y"]%string "w"%string)
    as (key' & _ & _ & _ & _ & _ & Hf).
  - apply closedb_closed. vm_compute. reflexivity.
  - apply heads_inb_heads_in. vm_compute. reflexivity.
  - vm_compute. reflexivity.
  - vm_compute. reflexivity.
  - repeat constructor; set_solver.
  - repeat constructor; set_solver.
  - set_solver.
  - set_solver.
  - exists key'. exact Hf.
Defined.

Lemma InferShape_known_atomic_witness :
  let fc := mkOp "FullyConnected" ["data"; "weight"] ["output"] 1 in
  let h := (Create ∅ fc).1 in
  let s := (Create ∅ fc).2 in
  let infer := λ (g : StaticGraph) (a o : list (list nat)), (true, a, o) in
  InferShape_known [] infer h s [("data"%string, [3; 4])] []
    = Returns (true, [], []).
Proof.
  intros fc h s infer.
  destruct (InferShape_known_atomic [] infer h (mkEntry 0 0)
              (mkNode None (Some fc) EmptyString []) fc
              [("data"%string, [3; 4])] [])
    as (g & _ & _ & Hr).
  - vm_compute. reflexivity.
  - reflexivity.
  - reflexivity.
  - intros key ->%list_elem_of_singleton. set_solver.
  - exact Hr.
Defined.

(** ** The traversal in a larger heap *)

Lemma dfs_list_subseteq h h' fuel stack visited tr :
  h ⊆ h' →
  dfs_list h fuel stack visited = Some tr →
  dfs_list h' fuel stack visited = Some tr.
Proof.
  intros Hsub. revert stack visited tr.
  induction fuel as [|fuel IH]; intros [|back stack] visited tr Htr; try done.
  apply dfs_list_inv in Htr as (f & n & tr' & [= <-] & Hn & -> & Htr).
  rewrite (dfs_list_step h' _ _ _ _ n) by (by eapply lookup_weaken).
  by rewrite (IH _ _ _ Htr).
Qed.

(** Nodes added to the heap do not change the traversal of a symbol. *)
Lemma DFS_trace_subseteq h h' s tr :
  h ⊆ h' → DFS_trace h s = Some tr → DFS_trace h' s = Some tr.
Proof.
  intros Hsub. rewrite !DFS_trace_unfold. intros Htr.
  eapply dfs_list_fuel; [by eapply dfs_list_subseteq|].
  by apply map_subseteq_size.
Qed.

Lemma DFS_trace_head h s e tr :
  DFS_trace h s = Some tr → e ∈ heads_ s → is_Some (h !! source e).
Proof.
  intros Htr He.
  assert (source e ∈ tr.*1) as Hin.
  { rewrite DFS_trace_unfold in Htr.
    eapply elem_of_sublist; [by apply heads_on_stack|].
    by eapply dfs_list_sublist. }
  apply list_elem_of_fmap in Hin as ([p n] & -> & Hin).
  exists n. by eapply DFS_trace_lookup.
Qed.

Lemma ListArguments_subseteq h h' s tr :
  h ⊆ h' → DFS_trace h s = Some tr →
  ListArguments h' s = ListArguments h s ∧ is_Some (ListArguments h s).
Proof.
  intros Hsub Htr.
  assert (∀ e, e ∈ heads_ s → ∃ n, h !! source e = Some n ∧
            h' !! source e = Some n) as Hheads.
  { intros e He. destruct (DFS_trace_head h s e tr Htr He) as [n Hn].
    exists n. split; [done|]. by eapply lookup_weaken. }
  unfold ListArguments, is_atomic.
  destruct (heads_ s) as [|e [|]] eqn:Hs.
  - rewrite !DFSVisit_trace, Htr, (DFS_trace_subseteq h h' s tr); eauto.
  - destruct (Hheads e) as (n & Hn & Hn'); [by left|]. simpl.
    rewrite Hn, Hn'. destruct (node_is_atomic n) eqn:Hat.
    + simpl. split; [done|]. unfold node_is_atomic in Hat.
      apply andb_true_iff in Hat as [_ Hop%bool_decide_eq_true].
      destruct Hop as [o ->]. by eexists.
    + rewrite !DFSVisit_trace, Htr, (DFS_trace_subseteq h h' s tr); eauto.
  - rewrite !DFSVisit_trace, Htr, (DFS_trace_subseteq h h' s tr); eauto.
Qed.

(** ** [Grad] *)

Lemma Grad_attach_None l : foldl Grad_attach None l = None.
Proof. induction l as [|it l IH]; [done|]. exact IH. Qed.

Lemma Grad_attach_step h shared it h' shared' :
  Grad_attach (Some (h, shared)) it = Some (h', shared') →
  ∃ p n, shared' = shared ++ [p] ∧ h !! p = None ∧ h' = <[p := n]> h ∧
    op n = None ∧ name n = sn_name it.
Proof.
  unfold Grad_attach. simpl.
  destruct (if decide _ then _ else _) as [bsn|]; simpl; [|done].
  destruct (mapM _ _) as [ins|]; simpl; [|done].
  intros [= <- <-].
  exists (fresh_ptr h), (set_inputs ins (mkNode bsn None (sn_name it) [])).
  split_and!; try done.
  - apply fresh_ptr_unused.
  - by rewrite alter_insert_eq.
Qed.

(** The loop of lines 394-406 adds one node per new node of the static
    graph and touches no node of the heap. *)
Lemma Grad_attach_fold new h shared h' shared' :
  foldl Grad_attach (Some (h, shared)) new = Some (h', shared') →
  h ⊆ h' ∧
  (∀ p n, h' !! p = Some n → h !! p = None → op n = None) ∧
  ∃ ps, shared' = shared ++ ps ∧
    Forall2 (λ it p, h !! p = None ∧
               ∃ n, h' !! p = Some n ∧ op n = None ∧ name n = sn_name it)
      new ps.
Proof.
  revert h shared. induction new as [|it new IH]; intros h shared.
  - intros [= <- <-]. split_and!; [done|intros; congruence|].
    exists []. by rewrite app_nil_r.
  - cbn [foldl].
    destruct (Grad_attach (Some (h, shared)) it) as [[h1 shared1]|]
      eqn:Hstep; [|by rewrite Grad_attach_None].
    apply Grad_attach_step in Hstep as (p & n & -> & Hp & -> & Hop & Hname).
    intros (Hsub & Hnew & ps & -> & Hall)%IH.
    assert (h ⊆ <[p := n]> h) as Hsub1 by (by apply insert_subseteq).
    assert (h' !! p = Some n) as Hpn.
    { eapply lookup_weaken; [|exact Hsub]. apply lookup_insert_eq. }
    split_and!.
    + by etrans.
    + intros q m Hq Hnone. destruct (decide (q = p)) as [->|Hne].
      * congruence.
      * apply (Hnew q m Hq). by rewrite lookup_insert_ne.
    + exists (p :: ps). rewrite <-app_assoc. split; [done|].
      constructor; [by eauto|].
      eapply Forall2_impl; [exact Hall|]. intros it' q [Hq Hn]. split; [|done].
      destruct (h !! q) as [m|] eqn:Hm; [|done].
      eapply lookup_weaken in Hm; [|exact Hsub1]. congruence.
Qed.

(** With a well-formed backward pass the loop runs through. *)
Lemma Grad_attach_fold_total num_nodes new arg_grads nargs h shared k :
  backward_ok num_nodes new arg_grads nargs →
  ∀ rest, drop k new = rest → length shared = num_nodes + k →
  is_Some (foldl Grad_attach (Some (h, shared)) rest).
Proof.
  intros (Hok & _ & _) rest. revert h shared k.
  induction rest as [|it rest IH]; intros h shared k Hdrop Hlen;
    [by eexists|].
  assert (new !! k = Some it) as Hit.
  { rewrite <-(Nat.add_0_r k), <-lookup_drop, Hdrop. done. }
  destruct (Hok k it Hit) as [Hbs Hins].
  cbn [foldl].
  assert (∃ bsn,
            (if decide (sn_backward_source_id it = (-1)%Z) then Some None
             else if decide (0 ≤ sn_backward_source_id it)%Z
             then Some <$> shared !! Z.to_nat (sn_backward_source_id it)
             else None) = Some bsn) as [bsn Hbsn].
  { case_decide; [by eexists|]. destruct Hbs as [?|[H0 Hlt]]; [done|].
    rewrite decide_True by done.
    destruct (lookup_lt_is_Some_2 shared
                (Z.to_nat (sn_backward_source_id it))) as [b ->]; [lia|].
    by eexists. }
  assert (∃ ins,
            mapM (λ e : nat * nat,
                    (λ q, mkEntry q e.2)
                      <$> (shared ++ [fresh_ptr h]) !! e.1) (sn_inputs it)
            = Some ins) as [ins Hins'].
  { clear Hit IH Hbs. induction Hins as [|e es He _ IHes]; [by eexists|].
    destruct IHes as [ins Hes]. simpl. rewrite Hes.
    destruct (lookup_lt_is_Some_2 (shared ++ [fresh_ptr h]) e.1) as [q ->].
    { rewrite length_app. simpl. lia. }
    by eexists. }
  assert (∃ h1, Grad_attach (Some (h, shared)) it
                = Some (h1, shared ++ [fresh_ptr h])) as [h1 ->].
  { unfold Grad_attach. simpl. rewrite Hbsn. simpl. rewrite Hins'. simpl.
    by eexists. }
  apply (IH _ _ (S k)).
  - by rewrite (drop_S _ _ _ Hit) in Hdrop; injection Hdrop.
  - rewrite length_app. simpl. lia.
Qed.

Lemma Grad_arg_index_snoc args a :
  Grad_arg_index (args ++ [a])
    = <[a := length args]> (Grad_arg_index args).
Proof.
  unfold Grad_arg_index. rewrite imap_app, foldl_app. simpl.
  by rewrite Nat.add_0_r.
Qed.

(** [arg_index] holds the names of the argument list, each with its last
    position. *)
Lemma Grad_arg_index_spec args name :
  match Grad_arg_index args !! name with
  | Some index =>
      args !! index = Some name ∧ ∀ j, index < j → args !! j ≠ Some name
  | None => name ∉ args
  end.
Proof.
  induction args as [|a args IH] using rev_ind.
  - unfold Grad_arg_index. simpl. rewrite lookup_empty. apply not_elem_of_nil.
  - rewrite Grad_arg_index_snoc. destruct (decide (name = a)) as [->|Hne].
    + rewrite lookup_insert_eq. split.
      * rewrite lookup_app_r by done. by rewrite Nat.sub_diag.
      * intros j Hj. rewrite lookup_ge_None_2; [done|].
        rewrite length_app. simpl. lia.
    + rewrite lookup_insert_ne by done.
      destruct (Grad_arg_index args !! name) as [index|].
      * destruct IH as [Hi Hlast]. apply lookup_lt_Some in Hi as Hlt.
        split; [by rewrite lookup_app_l|].
        intros j Hj. destruct (decide (j < length args)).
        -- rewrite lookup_app_l by done. by apply Hlast.
        -- rewrite lookup_app_r by lia.
           destruct (j - length args) as [|k]; simpl; [congruence|].
           by rewrite lookup_nil.
      * rewrite elem_of_app, list_elem_of_singleton. tauto.
Qed.

Lemma Grad_head_stop arg_index arg_grads shared wrt args ret o l :
  o ≠ Done →
  foldl (Grad_head arg_index arg_grads shared wrt args) (ret, o) l = (ret, o).
Proof.
  intros Ho. induction l as [|name l IH]; [done|]. simpl.
  by destruct o.
Qed.

(** The loop of lines 415-423, started after the names [pre] were found. *)
Lemma Grad_head_fold arg_grads shared wrt args l pre ret0 :
  wrt = pre ++ l → Forall (λ k, k ∈ args) pre →
  match foldl (Grad_head (Grad_arg_index args) arg_grads shared wrt args)
          (ret0, Done) l with
  | (ret, Done) =>
      ∃ new, ret = ret0 ++ new ∧
        Forall2 (grad_head args arg_grads shared) l new
  | (_, Fail e) =>
      ∃ key pre' post, wrt = pre' ++ key :: post ∧
        Forall (λ k, k ∈ args) pre' ∧ (key ∉ args) ∧
        e = UnmatchedKeyword "Symbol.Grad " key args
  | (_, Undefined) => True
  end.
Proof.
  revert pre ret0. induction l as [|name l IH]; intros pre ret0 Hwrt Hpre.
  - simpl. exists []. by rewrite app_nil_r.
  - simpl. pose proof (Grad_arg_index_spec args name) as Hidx.
    destruct (Grad_arg_index args !! name) as [index|].
    + destruct Hidx as [Hi Hlast].
      destruct (arg_grads !! index) as [[source_id idx]|] eqn:Hag;
        [|by rewrite Grad_head_stop].
      destruct (shared !! source_id) as [p|] eqn:Hp;
        [|by rewrite Grad_head_stop].
      specialize (IH (pre ++ [name]) (ret0 ++ [mkEntry p idx])).
      destruct (foldl _ _ l) as [ret [|e|]].
      * destruct IH as (new & -> & Hall).
        { by rewrite <-app_assoc. }
        { apply Forall_app. split; [done|]. constructor; [|done].
          by eapply list_elem_of_lookup_2. }
        exists (mkEntry p idx :: new). rewrite <-app_assoc. split; [done|].
        constructor; [|done]. by exists index, source_id.
      * apply IH; [by rewrite <-app_assoc|].
        apply Forall_app. split; [done|]. constructor; [|done].
        by eapply list_elem_of_lookup_2.
      * done.
    + destruct (KeywordArgumentMismatch_first "Symbol.Grad " wrt args name)
        as (key & pre' & post & Heq & Hpre' & Hkey & ->); [|done|].
      { rewrite Hwrt. apply elem_of_app. right. by left. }
      rewrite Grad_head_stop by done. by exists key, pre', post.
Qed.

Section Grad_properties.
Context (MakeBackwardPass : StaticGraph → StaticGraph * list (nat * nat)).

(** X15.  Whatever the backward pass of the static graph yields, a [Grad]
    that returns has touched no node of the heap, has created only nodes
    without an operator, and returns one head per requested name; every
    requested name is then a name of [ListArguments()].  A [Grad] that fails
    fails on the first requested name that is not a name of
    [ListArguments()], and reports that name together with
    [ListArguments()]. *)
Theorem Grad_outcome h s wrt :
  match Grad MakeBackwardPass h s wrt with
  | Returns (h', g) =>
      h ⊆ h' ∧
      (∀ p n, h' !! p = Some n → h !! p = None → op n = None) ∧
      NumReturns g = length wrt ∧
      ∃ args, ListArguments h s = Some args ∧ Forall (λ k, k ∈ args) wrt
  | Fails e =>
      ∃ args key pre post, ListArguments h s = Some args ∧
        wrt = pre ++ key :: post ∧ Forall (λ k, k ∈ args) pre ∧
        (key ∉ args) ∧ e = UnmatchedKeyword "Symbol.Grad " key args
  | Undef => True
  end.
Proof.
  unfold Grad.
  destruct (ToStaticGraph h s) as [g|]; [|done].
  destruct (MakeBackwardPass g) as [g' arg_grads].
  destruct (visit_order h s) as [order|] eqn:Ho; [|done].
  case_decide; [|done].
  destruct (foldl Grad_attach _ _) as [[h' shared']|] eqn:Hfold; [|done].
  apply Grad_attach_fold in Hfold as (Hsub & Hnew & _).
  rewrite visit_order_trace in Ho.
  destruct (DFS_trace h s) as [tr|] eqn:Htr; [|done].
  destruct (ListArguments_subseteq h h' s tr Hsub Htr) as [-> [args Hargs]].
  rewrite Hargs.
  pose proof (Grad_head_fold arg_grads shared' wrt args wrt [] []
                eq_refl (Forall_nil_2 _)) as Hheads.
  destruct (foldl _ _ wrt) as [ret [|e|]]; [| |done].
  - destruct Hheads as (new & -> & Hall). split_and!; [done..| |].
    + unfold NumReturns. simpl. symmetry. by eapply Forall2_length.
    + exists args. split; [done|]. apply Forall_forall. intros name Hname.
      apply list_elem_of_lookup in Hname as [i Hi].
      destruct (Forall2_lookup_l _ _ _ _ _ Hall Hi)
        as (e & _ & index & _ & Hidx & _).
      by eapply list_elem_of_lookup_2.
  - destruct Hheads as (key & pre & post & Heq & Hpre & Hkey & ->).
    by exists args, key, pre, post.
Qed.

(** X16.  On a closed heap, with a backward pass that is well formed and
    requested names that are all names of [ListArguments()], [Grad] returns.
    The head for a requested name is the entry of [arg_grads] at the last
    position of that name in [ListArguments()].  An id below the number of
    nodes of the static graph stands for the node visited at that position,
    which the result shares with the symbol; a larger id stands for a node
    that was not in the heap, without operator and named like the static
    node of that id. *)
Theorem Grad_returns h s wrt :
  closed h → heads_in h s →
  ∃ g order args,
    ToStaticGraph h s = Some g ∧ visit_order h s = Some order ∧
    ListArguments h s = Some args ∧
    let new := sg_node <$> drop (length (nodes g))
                             (nodes (MakeBackwardPass g).1) in
    let arg_grads := (MakeBackwardPass g).2 in
    (length (nodes g) ≤ length (nodes (MakeBackwardPass g).1) →
     backward_ok (length (nodes g)) new arg_grads (length args) →
     Forall (λ k, k ∈ args) wrt →
     ∃ h' ret ps,
       Grad MakeBackwardPass h s wrt = Returns (h', mkSymbol ret) ∧
       Forall2 (grad_head args arg_grads (order ++ ps)) wrt ret ∧
       Forall2 (λ it p, h !! p = None ∧
                  ∃ n, h' !! p = Some n ∧ op n = None ∧ name n = sn_name it)
         new ps).
Proof.
  intros Hcl Hin.
  destruct (ToStaticGraph_spec h s Hcl Hin) as (tr & idx & Htr & Hidx & Hg).
  destruct (ListArguments_subseteq h h s tr (reflexivity h) Htr)
    as [_ [args Hargs]].
  eexists _, tr.*1, args. split_and!; [exact Hg| |exact Hargs|].
  { by rewrite visit_order_trace, Htr. }
  intros new arg_grads Hlen Hok Hwrt.
  unfold Grad. rewrite Hg.
  fold arg_grads. destruct (MakeBackwardPass _) as [g' ag] eqn:Hmbp.
  simpl in new, arg_grads, Hlen. subst arg_grads.
  rewrite visit_order_trace, Htr. simpl. cbn [nodes] in *.
  rewrite decide_True by done. fold new.
  destruct (Grad_attach_fold_total _ new ag (length args) h tr.*1 0 Hok new)
    as [[h' shared'] Hfold]; [done|rewrite !length_fmap; lia|].
  rewrite Hfold.
  apply Grad_attach_fold in Hfold as (Hsub & Hnew & ps & -> & Hps).
  destruct (ListArguments_subseteq h h' s tr Hsub Htr) as [-> _].
  rewrite Hargs.
  pose proof (Grad_head_fold ag (tr.*1 ++ ps) wrt args wrt [] []
                eq_refl (Forall_nil_2 _)) as Hheads.
  assert (∀ l ret0,
            Forall (λ k, k ∈ args) l →
            ∃ ret, foldl (Grad_head (Grad_arg_index args) ag (tr.*1 ++ ps)
                            wrt args) (ret0, Done) l = (ret, Done)) as Htot.
  { clear Hheads. induction l as [|name l IH]; intros ret0 Hl; [by eexists|].
    apply Forall_cons in Hl as [Hname Hl]. simpl.
    pose proof (Grad_arg_index_spec args name) as Hspec.
    destruct (Grad_arg_index args !! name) as [index|]; [|done].
    destruct Hspec as [Hi _]. apply lookup_lt_Some in Hi.
    destruct Hok as (_ & Hnargs & Hag).
    destruct (lookup_lt_is_Some_2 ag index) as [[sid i] Hsid]; [lia|].
    rewrite Hsid.
    rewrite Forall_forall in Hag.
    pose proof (Hag _ (list_elem_of_lookup_2 _ _ _ Hsid)) as Hlt.
    simpl in Hlt.
    destruct (lookup_lt_is_Some_2 (tr.*1 ++ ps) sid) as [p ->].
    { rewrite length_app, !length_fmap.
      rewrite <-(Forall2_length _ _ _ Hps). rewrite !length_fmap in Hlt.
      unfold new in *. rewrite length_fmap in *. lia. }
    apply IH. done. }
  destruct (Htot wrt [] Hwrt) as [ret Hret]. rewrite Hret in Hheads |- *.
  destruct Hheads as (new' & -> & Hall).
  exists h', new', ps. done.
Qed.

End Grad_properties.

Lemma Grad_returns_witness :
  let mul := mkOp "Mul" ["lhs"; "rhs"] ["output"] 1 in
  let h : gmap nat Node :=
    {[ 0 := mkNode None (Some mul) "z" [mkEntry 1 0; mkEntry 2 0];
       1 := mkNode None None "x" [];
       2 := mkNode None None "y" [] ]} in
  let s := mkSymbol [mkEntry 0 0] in
  let backward := λ g : StaticGraph,
    (mkStaticGraph
       (nodes g ++
        [mkStaticGraphNode None (mkStaticNode "z_backward" 0 [(0, 0); (1, 0); (2, 0)])])
       (arg_nodes g) (heads g),
     [(3, 0); (3, 1)]) in
  ∃ h', Grad backward h s ["y"%string] = Returns (h', mkSymbol [mkEntry 3 1]) ∧
    h' !! 3 = Some (mkNode (Some 0) None "z_backward"
                      [mkEntry 0 0; mkEntry 1 0; mkEntry 2 0]).
Proof.
  intros mul h s backward.
  destruct (Grad_returns backward h s ["y"%string])
    as (g & order & args & Hg & Ho & Hargs & Hret).
  - apply closedb_closed. vm_compute. reflexivity.
  - apply heads_inb_heads_in. vm_compute. reflexivity.
  - vm_compute in Hg. injection Hg as <-.
    vm_compute in Hargs. injection Hargs as <-.
    destruct Hret as (h' & ret & ps & Hgrad & _ & _).
    + vm_compute. lia.
    + split_and!.
      * intros [|[|]] it Hit; vm_compute in Hit; simplify_eq.
        split; [right; simpl; lia|]. simpl.
        repeat (constructor; [simpl; lia|]). constructor.
      * vm_compute. lia.
      * simpl. repeat (constructor; [simpl; lia|]). constructor.
    + repeat constructor.
    + exists h'. vm_compute in Hgrad. injection Hgrad as <- <-.
      split; reflexivity.
Defined.

(** ** [Copy] on a closed heap *)

(** The first pass of [Copy], lines 123-129. *)
Lemma Copy_visit_spec h tr hn old_new :
  NoDup tr.*1 →
  (∀ p n, (p, n) ∈ tr → h !! p = Some n) →
  run_visitor Copy_visit (h, ∅) tr = (hn, old_new) →
  h ⊆ hn ∧
  (∀ p, is_Some (old_new !! p) ↔ p ∈ tr.*1) ∧
  (∀ p q, old_new !! p = Some q →
     h !! q = None ∧
     ∃ n, h !! p = Some n ∧
       hn !! q = Some (mkNode None (op_Copy <$> op n) (name n) [])) ∧
  (∀ p1 p2 q, old_new !! p1 = Some q → old_new !! p2 = Some q → p1 = p2) ∧
  (∀ q, is_Some (hn !! q) → is_Some (h !! q) ∨ ∃ p, old_new !! p = Some q).
Proof.
  revert hn old_new. induction tr as [|[p n] tr IH] using rev_ind;
    intros hn old_new Hnd Htr.
  - intros [= <- <-]. split_and!; try done.
    + intros p. rewrite lookup_empty. split; [by intros [??]|].
      by intros ?%elem_of_nil.
    + intros q Hq. by left.
  - rewrite run_visitor_snoc.
    destruct (run_visitor Copy_visit (h, ∅) tr) as [hn0 on0].
    rewrite fmap_app in Hnd. apply NoDup_app in Hnd as (Hnd & Hp & _).
    destruct (IH hn0 on0 Hnd) as (Hsub & Hdom & Hval & Hinj & Himg); [|done|].
    { intros p' n' Hp'. apply Htr, elem_of_app. by left. }
    assert (h !! p = Some n) as Hpn.
    { apply Htr, elem_of_app. right. by left. }
    assert (on0 !! p = None) as Hfresh_p.
    { destruct (on0 !! p) as [q|] eqn:Hq; [|done]. exfalso.
      apply (Hp p); [apply Hdom; by eexists|by left]. }
    pose proof (fresh_ptr_unused hn0) as Hfresh.
    assert (h !! fresh_ptr hn0 = None) as Hfresh'.
    { destruct (h !! fresh_ptr hn0) as [m|] eqn:Hm; [|done].
      eapply lookup_weaken in Hm; [|exact Hsub]. congruence. }
    assert (Copy_visit p n (hn0, on0)
            = (<[fresh_ptr hn0 :=
                   mkNode None (op_Copy <$> op n) (name n) []]> hn0,
               <[p := fresh_ptr hn0]> on0)) as ->.
    { unfold Copy_visit, alloc. by destruct (op n). }
    intros [= <- <-]. split_and!.
    + etrans; [exact Hsub|by apply insert_subseteq].
    + intros p'. rewrite fmap_app, elem_of_app. simpl.
      rewrite list_elem_of_singleton, <-Hdom.
      destruct (decide (p' = p)) as [->|Hne].
      * rewrite lookup_insert_eq. split; [by right|by eexists].
      * rewrite lookup_insert_ne by done. split; [by left|].
        by intros [?|?].
    + intros p' q Hq. destruct (decide (p' = p)) as [->|Hne].
      * rewrite lookup_insert_eq in Hq. injection Hq as <-.
        split; [done|]. exists n. by rewrite lookup_insert_eq.
      * rewrite lookup_insert_ne in Hq by done.
        destruct (Hval p' q Hq) as (Hq1 & n' & Hn' & Hm').
        split; [done|]. exists n'. split; [done|].
        rewrite lookup_insert_ne; [done|]. congruence.
    + intros p1 p2 q H1 H2.
      destruct (decide (p1 = p)) as [->|Hne1];
        destruct (decide (p2 = p)) as [->|Hne2]; [done|..].
      * rewrite lookup_insert_eq in H1. injection H1 as <-.
        rewrite lookup_insert_ne in H2 by done.
        destruct (Hval _ _ H2) as (_ & n' & _ & Hm'). congruence.
      * rewrite lookup_insert_eq in H2. injection H2 as <-.
        rewrite lookup_insert_ne in H1 by done.
        destruct (Hval _ _ H1) as (_ & n' & _ & Hm'). congruence.
      * rewrite lookup_insert_ne in H1, H2 by done. by eapply Hinj.
    + intros q Hq. destruct (decide (q = fresh_ptr hn0)) as [->|Hne].
      * right. exists p. by rewrite lookup_insert_eq.
      * rewrite lookup_insert_ne in Hq by done.
        destruct (Himg q Hq) as [?|[p' Hp']]; [by left|]. right.
        exists p'. rewrite lookup_insert_ne; [done|]. congruence.
Qed.

Section Copy_connect.
Context (h : gmap nat Node) (old_new : gmap nat nat) (ρ : nat → nat).
Hypothesis Hnew : ∀ p q, old_new !! p = Some q → h !! q = None.
Hypothesis Hρ : ∀ p q, old_new !! p = Some q → ρ p = q.
Hypothesis Hclosed : ∀ p n e,
  is_Some (old_new !! p) → h !! p = Some n → e ∈ inputs n →
  is_Some (old_new !! source e).

Lemma remap_rename e :
  is_Some (old_new !! source e) → remap old_new e = Some (rename_entry ρ e).
Proof.
  intros [q Hq]. unfold remap, rename_entry. rewrite Hq. simpl.
  by rewrite (Hρ _ _ Hq).
Qed.

Lemma mapM_remap_rename (l : list DataEntry) :
  (∀ e, e ∈ l → is_Some (old_new !! source e)) →
  mapM (remap old_new) l = Some (rename_entry ρ <$> l).
Proof.
  induction l as [|e l IH]; intros Hl; [done|]. simpl.
  rewrite remap_rename by (apply Hl; by left). simpl.
  rewrite IH; [done|]. intros e' He'. apply Hl. by right.
Qed.

(** The second pass of [Copy], lines 131-136: every new node receives the
    renamed inputs of the node it copies, once. *)
Lemma Copy_connect_fold rest hcur :
  NoDup rest.*2 →
  (∀ p q, (p, q) ∈ rest → old_new !! p = Some q) →
  h ⊆ hcur →
  (∀ p q, (p, q) ∈ rest →
     ∃ n, h !! p = Some n ∧
       hcur !! q = Some (mkNode None (op_Copy <$> op n) (name n) [])) →
  ∃ hfin, foldl (Copy_connect old_new) (Some hcur) rest = Some hfin ∧
    (∀ r, r ∉ rest.*2 → hfin !! r = hcur !! r) ∧
    (∀ p q n, (p, q) ∈ rest → h !! p = Some n →
       hfin !! q = Some (copy_node ρ n)).
Proof.
  revert hcur. induction rest as [|[p q] rest IH]; intros hcur Hnd Hin Hsub Hini.
  - exists hcur. split_and!; [done..|]. by intros ??? ?%elem_of_nil.
  - rewrite fmap_cons in Hnd. apply NoDup_cons in Hnd as [Hq Hnd]. simpl in Hq.
    destruct (Hini p q) as (n & Hn & Hm); [by left|].
    assert (old_new !! p = Some q) as Hpq by (apply Hin; by left).
    assert (h !! q = None) as Hqnew by (by eapply Hnew).
    cbn [foldl]. unfold Copy_connect at 2. simpl.
    rewrite (lookup_weaken _ _ _ _ Hn Hsub). simpl.
    rewrite mapM_remap_rename by (intros e He; by eapply Hclosed). simpl.
    set (hcur' := alter _ q hcur).
    assert (hcur' !! q = Some (copy_node ρ n)) as Hq'.
    { unfold hcur'. rewrite lookup_alter_eq, Hm. done. }
    destruct (IH hcur') as (hfin & Hfold & Hother & Hcopy); [done| | | |].
    + intros p' q' Hp'. apply Hin. by right.
    + apply map_subseteq_spec. intros r m Hr. unfold hcur'.
      rewrite lookup_alter_ne by congruence. by eapply lookup_weaken.
    + intros p' q' Hp'. destruct (Hini p' q') as (n' & Hn' & Hm'); [by right|].
      exists n'. split; [done|]. unfold hcur'. rewrite lookup_alter_ne; [done|].
      intros <-. apply Hq. apply list_elem_of_fmap. by exists (p', q).
    + exists hfin. split_and!; [done| |].
      * intros r Hr. rewrite ?fmap_cons, not_elem_of_cons in Hr.
        destruct Hr as [Hr1 Hr2]. rewrite Hother by done.
        unfold hcur'. by rewrite lookup_alter_ne.
      * intros p' q' n' [[= -> ->]|Hp']%elem_of_cons Hn'.
        -- rewrite Hother by done. congruence.
        -- by eapply Hcopy.
Qed.
End Copy_connect.

Lemma NoDup_map_to_list_values (m : gmap nat nat) :
  (∀ p1 p2 q, m !! p1 = Some q → m !! p2 = Some q → p1 = p2) →
  NoDup (map_to_list m).*2.
Proof.
  intros Hinj. apply NoDup_fmap_2_strong; [|apply NoDup_map_to_list].
  intros [p1 q1] [p2 q2] H1%elem_of_map_to_list H2%elem_of_map_to_list Heq.
  simpl in Heq. subst q2. f_equal. by eapply Hinj.
Qed.

(** What [Copy] returns on a closed heap, in terms of the map [old_new] of
    lines 121-129. *)
Lemma Copy_spec h s :
  closed h → heads_in h s →
  ∃ (h' : gmap nat Node) tr (old_new : gmap nat nat),
    DFS_trace h s = Some tr ∧
    Copy h s
      = Some (h', mkSymbol (rename_entry (renaming old_new) <$> heads_ s)) ∧
    copied h s h' old_new.
Proof.
  intros Hcl Hin. destruct (DFS_trace_total h s Hcl Hin) as [tr Htr].
  pose proof (DFS_trace_NoDup h s tr Hcl Hin Htr) as Hnd.
  assert (∀ p n, (p, n) ∈ tr → h !! p = Some n) as Hlook.
  { intros p n. by eapply DFS_trace_lookup. }
  destruct (run_visitor Copy_visit (h, ∅) tr) as [hn old_new] eqn:Hrun.
  destruct (Copy_visit_spec h tr hn old_new Hnd Hlook Hrun)
    as (Hsub & Hdom & Hval & Hinj & Himg).
  assert (∀ p, is_Some (old_new !! p) ↔ reachable h s p) as Hdom'.
  { intros p. rewrite Hdom. by eapply DFS_trace_reachable. }
  set (ρ := renaming old_new).
  assert (∀ p q, old_new !! p = Some q → h !! q = None) as Hnew.
  { intros p q Hq. by destruct (Hval p q Hq). }
  assert (∀ p q, old_new !! p = Some q → ρ p = q) as Hρ.
  { intros p q Hq. unfold ρ, renaming. by rewrite Hq. }
  assert (∀ p n e, is_Some (old_new !! p) → h !! p = Some n →
            e ∈ inputs n → is_Some (old_new !! source e)) as Hclosed.
  { intros p n e Hp Hn He. apply Hdom'. apply Hdom' in Hp.
    by eapply reachable_input. }
  destruct (Copy_connect_fold h old_new ρ Hnew Hρ Hclosed
              (map_to_list old_new) hn)
    as (hfin & Hfold & Hother & Hcopy); [| |done| |].
  { by apply NoDup_map_to_list_values. }
  { by intros p q Hpq%elem_of_map_to_list. }
  { intros p q Hpq%elem_of_map_to_list.
    destruct (Hval p q Hpq) as (_ & n & Hn & Hm). by exists n. }
  assert (∀ r, r ∈ (map_to_list old_new).*2 ↔ ∃ p, old_new !! p = Some r)
    as Hvals.
  { intros r. rewrite list_elem_of_fmap. split.
    - intros ([p q] & -> & Hpq%elem_of_map_to_list). by exists p.
    - intros [p Hp]. exists (p, r). by rewrite elem_of_map_to_list. }
  exists hfin, tr, old_new. split_and!; [done| |split_and!; [|done..| |]].
  - unfold Copy. rewrite DFSVisit_trace, Htr. simpl. rewrite Hrun.
    simpl. rewrite Hfold. simpl.
    rewrite (mapM_remap_rename old_new ρ Hρ); [done|].
    intros e He. apply Hdom'. by apply reachable_head.
  - apply map_subseteq_spec. intros r n Hr.
    rewrite Hother; [by eapply lookup_weaken|].
    rewrite Hvals. intros [p Hp]. by rewrite (Hnew p r Hp) in Hr.
  - intros p q n Hq Hn. eapply Hcopy; [|done]. by apply elem_of_map_to_list.
  - intros r Hr.
    destruct (decide (r ∈ (map_to_list old_new).*2)) as [Hv|Hv].
    + right. by apply Hvals.
    + rewrite Hother in Hr by done. by apply Himg.
Qed.

Lemma copied_node h s h' old_new p :
  closed h → heads_in h s → copied h s h' old_new →
  reachable h s p →
  ∃ n, h !! p = Some n ∧ old_new !! p = Some (renaming old_new p) ∧
    h !! renaming old_new p = None ∧
    h' !! renaming old_new p = Some (copy_node (renaming old_new) n).
Proof.
  intros Hcl Hin (Hsub & Hdom & Hnew & Hinj & Hcopy & Himg) Hp.
  assert (is_Some (h !! p)) as [n Hn].
  { destruct Hp as [e He|q m e _ Hm He]; [by apply Hin|by eapply Hcl]. }
  apply Hdom in Hp as [q Hq].
  assert (renaming old_new p = q) as Hρ by (unfold renaming; by rewrite Hq).
  exists n. rewrite Hρ. split_and!; [done|done|by eapply Hnew|by eapply Hcopy].
Qed.

Lemma copied_inj h s h' old_new p q :
  closed h → heads_in h s → copied h s h' old_new →
  reachable h s p → reachable h s q →
  renaming old_new p = renaming old_new q → p = q.
Proof.
  intros Hcl Hin Hc Hp Hq Heq.
  destruct (copied_node h s h' old_new p Hcl Hin Hc Hp) as (_ & _ & Hp' & _).
  destruct (copied_node h s h' old_new q Hcl Hin Hc Hq) as (_ & _ & Hq' & _).
  destruct Hc as (_ & _ & _ & Hinj & _).
  rewrite Heq in Hp'. by eapply Hinj.
Qed.

(** The copy reaches the images of the reachable nodes and nothing else. *)
Lemma copied_reachable h s h' old_new q :
  closed h → heads_in h s → copied h s h' old_new →
  reachable h' (mkSymbol (rename_entry (renaming old_new) <$> heads_ s)) q
  ↔ ∃ p, reachable h s p ∧ q = renaming old_new p.
Proof.
  intros Hcl Hin Hc. set (ρ := renaming old_new).
  set (s' := mkSymbol (rename_entry ρ <$> heads_ s)). split.
  - induction 1 as [e' He'|q m e' _ (p & Hp & ->) Hm He'].
    + apply list_elem_of_fmap in He' as (e & -> & He).
      exists (source e). split; [by apply reachable_head|done].
    + destruct (copied_node h s h' old_new p Hcl Hin Hc Hp)
        as (n & Hn & _ & _ & Hn').
      fold ρ in Hn'. rewrite Hn' in Hm. injection Hm as <-.
      apply list_elem_of_fmap in He' as (e & -> & He).
      exists (source e). split; [by eapply reachable_input|done].
  - intros (p & Hp & ->).
    induction Hp as [e He|p n e Hp IH Hn He].
    + apply (reachable_head h' s' (rename_entry ρ e)).
      by apply list_elem_of_fmap_2.
    + destruct (copied_node h s h' old_new p Hcl Hin Hc Hp)
        as (n' & Hn' & _ & _ & Hcn).
      assert (n' = n) as -> by congruence.
      apply (reachable_input h' s' (ρ p) (copy_node ρ n) (rename_entry ρ e));
        [done|done|]. by apply list_elem_of_fmap_2.
Qed.

Lemma copied_closed h s h' old_new :
  closed h → heads_in h s → copied h s h' old_new → closed h'.
Proof.
  intros Hcl Hin Hc r m e Hr He.
  pose proof Hc as (Hsub & Hdom & Hnew & Hinj & Hcopy & Himg).
  destruct (Himg r) as [[n Hn]|[p Hp]]; [by eexists| |].
  - rewrite (lookup_weaken _ _ _ _ Hn Hsub) in Hr. injection Hr as <-.
    destruct (Hcl r n e Hn He) as [k Hk]. exists k. by eapply lookup_weaken.
  - assert (reachable h s p) as Hreach by (apply Hdom; by eexists).
    destruct (copied_node h s h' old_new p Hcl Hin Hc Hreach)
      as (n & Hn & Hq & _ & Hcn).
    assert (renaming old_new p = r) as Hρ by congruence.
    rewrite Hρ, Hr in Hcn. injection Hcn as ->.
    apply list_elem_of_fmap in He as (e0 & -> & He0).
    destruct (copied_node h s h' old_new (source e0) Hcl Hin Hc)
      as (k & _ & _ & _ & Hk); [by eapply reachable_input|]. by eexists.
Qed.

Lemma copied_heads_in h s h' old_new :
  closed h → heads_in h s → copied h s h' old_new →
  heads_in h' (mkSymbol (rename_entry (renaming old_new) <$> heads_ s)).
Proof.
  intros Hcl Hin Hc e' (e & -> & He)%list_elem_of_fmap.
  destruct (copied_node h s h' old_new (source e) Hcl Hin Hc)
    as (k & _ & _ & _ & Hk); [by apply reachable_head|]. by eexists.
Qed.

Lemma copied_same_structure h s h' old_new :
  closed h → heads_in h s → copied h s h' old_new →
  same_structure (renaming old_new) h s h'
    (mkSymbol (rename_entry (renaming old_new) <$> heads_ s)).
Proof.
  intros Hcl Hin Hc. split_and!.
  - intros p q. by eapply copied_inj.
  - simpl. rewrite <-!list_fmap_compose. done.
  - intros p n Hp Hn.
    destruct (copied_node h s h' old_new p Hcl Hin Hc Hp)
      as (n' & Hn' & _ & _ & Hcn).
    assert (n' = n) as -> by congruence.
    eexists. split; [exact Hcn|]. simpl. rewrite <-!list_fmap_compose. done.
Qed.

(** The copy is visited in the order of the source, node by node. *)
Lemma copied_trace h s h' old_new tr :
  closed h → heads_in h s → copied h s h' old_new →
  DFS_trace h s = Some tr →
  DFS_trace h' (mkSymbol (rename_entry (renaming old_new) <$> heads_ s))
    = Some ((λ pn, (renaming old_new pn.1, copy_node (renaming old_new) pn.2))
              <$> tr).
Proof.
  intros Hcl Hin Hc Htr. set (ρ := renaming old_new).
  destruct (visit_order_rename ρ h s h' _ Hcl Hin
              (copied_same_structure h s h' old_new Hcl Hin Hc))
    as (order & Ho & Ho').
  rewrite visit_order_trace, Htr in Ho. injection Ho as <-.
  rewrite visit_order_trace in Ho'. fold ρ.
  destruct (DFS_trace h' _) as [tr'|] eqn:Htr'; [|done].
  injection Ho' as Ho'. f_equal.
  apply list_eq. intros i. rewrite list_lookup_fmap.
  pose proof (f_equal (λ l, l !! i) Ho') as Hi. simpl in Hi.
  rewrite !list_lookup_fmap in Hi.
  destruct (tr' !! i) as [[q m]|] eqn:Hq;
    destruct (tr !! i) as [[p n]|] eqn:Hp; simplify_eq/=; [|done].
  do 2 f_equal.
  apply list_elem_of_lookup_2 in Hq, Hp.
  pose proof (DFS_trace_lookup _ _ _ _ _ Htr' Hq) as Hm.
  pose proof (DFS_trace_lookup _ _ _ _ _ Htr Hp) as Hn.
  destruct (copied_node h s h' old_new p Hcl Hin Hc) as (n' & Hn' & _ & _ & Hcn).
  { eapply DFS_trace_reachable; [done..|].
    apply list_elem_of_fmap. by exists (p, n). }
  fold ρ in Hcn. congruence.
Qed.

(** X17.  On a closed heap [Copy] returns, and the copy is the source under
    a renaming of addresses that tells the reachable nodes apart and sends
    them to addresses that were not in use.  No node of the source heap is
    changed.  The heads are the renamed heads with the same indices, the
    node at the image of a reachable node has its name, the clone of its
    operator, its inputs renamed and no backward source, and the copy
    reaches the images of the reachable nodes and nothing else, so it shares
    no node with the source.  The result is closed again and the copy is
    visited in the order of the source. *)
Theorem Copy_isomorphic h s :
  closed h → heads_in h s →
  ∃ h' s' ρ, Copy h s = Some (h', s') ∧
    h ⊆ h' ∧
    (∀ p q, reachable h s p → reachable h s q → ρ p = ρ q → p = q) ∧
    heads_ s' = rename_entry ρ <$> heads_ s ∧
    (∀ p n, reachable h s p → h !! p = Some n →
       h !! ρ p = None ∧ h' !! ρ p = Some (copy_node ρ n)) ∧
    (∀ q, reachable h' s' q ↔ ∃ p, reachable h s p ∧ q = ρ p) ∧
    closed h' ∧ heads_in h' s' ∧
    ∃ order, visit_order h s = Some order ∧
      visit_order h' s' = Some (ρ <$> order).
Proof.
  intros Hcl Hin.
  destruct (Copy_spec h s Hcl Hin) as (h' & tr & old_new & Htr & Hcopy & Hc).
  exists h', (mkSymbol (rename_entry (renaming old_new) <$> heads_ s)),
    (renaming old_new).
  split_and!; [exact Hcopy|by destruct Hc| |done| | | | |].
  - intros p q. by eapply copied_inj.
  - intros p n Hp Hn.
    destruct (copied_node h s h' old_new p Hcl Hin Hc Hp)
      as (n' & Hn' & _ & Hfresh & Hn'').
    split; [done|]. congruence.
  - intros q. by apply copied_reachable.
  - by eapply copied_closed.
  - by eapply copied_heads_in.
  - exists tr.*1. rewrite !visit_order_trace, Htr.
    rewrite (copied_trace h s h' old_new tr Hcl Hin Hc Htr).
    split; [done|]. simpl. f_equal. rewrite <-!list_fmap_compose. done.
Qed.

Lemma Copy_isomorphic_witness :
  let mul := mkOp "Mul" ["lhs"; "rhs"] ["output"] 1 in
  let h : gmap nat Node :=
    {[ 0 := mkNode None (Some mul) "f" [mkEntry 1 0; mkEntry 1 0];
       1 := mkNode None None "x" [] ]} in
  let s := mkSymbol [mkEntry 0 0] in
  ∃ h' s', Copy h s = Some (h', s') ∧ h ⊆ h' ∧ heads_ s' = [mkEntry 2 0] ∧
    h' !! 2 = Some (mkNode None (Some mul) "f" [mkEntry 3 0; mkEntry 3 0]) ∧
    visit_order h' s' = Some [2; 3].
Proof.
  intros mul h s.
  destruct (Copy_isomorphic h s) as (h' & s' & ρ & Hc & Hsub & _).
  - apply closedb_closed. vm_compute. reflexivity.
  - apply heads_inb_heads_in. vm_compute. reflexivity.
  - exists h', s'. split_and!; [exact Hc|exact Hsub|..];
      vm_compute in Hc; injection Hc as <- <-; vm_compute; reflexivity.
Defined.

Lemma node_is_variable_copy ρ n :
  (op n = None → backward_source_node n = None) →
  node_is_variable (copy_node ρ n) = node_is_variable n.
Proof.
  unfold node_is_variable, copy_node. simpl. intros Hgrad.
  destruct (op n) as [o|]; [done|]. simpl. by rewrite Hgrad.
Qed.

Lemma node_is_atomic_copy ρ n :
  node_is_atomic (copy_node ρ n) = node_is_atomic n.
Proof.
  unfold node_is_atomic, copy_node. simpl. rewrite length_fmap.
  by destruct (op n).
Qed.

Lemma ListReturns_head_copy h h' ρ e n :
  h !! source e = Some n →
  h' !! ρ (source e) = Some (copy_node ρ n) →
  (op n = None → backward_source_node n = None) →
  ListReturns_head h' (rename_entry ρ e) = ListReturns_head h e.
Proof.
  intros Hn Hn' Hgrad. unfold ListReturns_head. simpl.
  rewrite Hn, Hn'. simpl. rewrite node_is_variable_copy by done.
  by destruct (op n).
Qed.

Lemma arg_names_cons p n tr :
  arg_names ((p, n) :: tr)
    = (if node_is_variable n then [name n] else []) ++ arg_names tr.
Proof.
  by rewrite <-(arg_names_singleton p), <-arg_names_app.
Qed.

Lemma arg_names_copy ρ tr :
  (∀ p n, (p, n) ∈ tr → op n = None → backward_source_node n = None) →
  arg_names ((λ pn, (ρ pn.1, copy_node ρ pn.2)) <$> tr) = arg_names tr.
Proof.
  induction tr as [|[p n] tr IH]; intros Hgrad; [done|].
  rewrite fmap_cons, !arg_names_cons. simpl.
  rewrite node_is_variable_copy by (eapply Hgrad; by left).
  rewrite IH; [done|]. intros q m Hq. apply (Hgrad q). by right.
Qed.

(** X18.  A copy of a symbol without gradient nodes lists the same names:
    on a closed heap where no reachable node lacks an operator and has a
    backward source, [Copy] keeps [NumReturns()], [ListArguments()] and
    [ListReturns()]. *)
Theorem Copy_round_trip h s h' s' :
  closed h → heads_in h s →
  (∀ p n, reachable h s p → h !! p = Some n → op n = None →
     backward_source_node n = None) →
  Copy h s = Some (h', s') →
  NumReturns s' = NumReturns s ∧
  ListArguments h' s' = ListArguments h s ∧
  ListReturns h' s' = ListReturns h s.
Proof.
  intros Hcl Hin Hgrad Hcopy.
  destruct (Copy_spec h s Hcl Hin) as (h0 & tr & old_new & Htr & Hcopy' & Hc).
  rewrite Hcopy in Hcopy'. injection Hcopy' as -> ->.
  set (ρ := renaming old_new).
  assert (∀ e, e ∈ heads_ s → ∃ n, h !! source e = Some n ∧
            h0 !! ρ (source e) = Some (copy_node ρ n) ∧
            (op n = None → backward_source_node n = None)) as Hheads.
  { intros e He.
    destruct (copied_node h s h0 old_new (source e) Hcl Hin Hc)
      as (n & Hn & _ & _ & Hn'); [by apply reachable_head|].
    exists n. split_and!; [done..|].
    eapply Hgrad; [|done]. by apply reachable_head. }
  split_and!.
  - unfold NumReturns. simpl. by rewrite length_fmap.
  - assert (is_atomic h0 (mkSymbol (rename_entry ρ <$> heads_ s))
            = is_atomic h s) as Hat.
    { unfold is_atomic. simpl. destruct (heads_ s) as [|e [|]] eqn:Hs; try done.
      destruct (Hheads e) as (n & Hn & Hn' & _); [by left|]. simpl.
      by rewrite Hn, Hn', node_is_atomic_copy. }
    unfold ListArguments. rewrite Hat.
    destruct (is_atomic h s) eqn:Hat'.
    + unfold is_atomic in Hat'. simpl.
      destruct (heads_ s) as [|e [|]] eqn:Hs; try done.
      destruct (Hheads e) as (n & Hn & Hn' & _); [by left|]. simpl.
      rewrite Hn, Hn'. simpl. by destruct (op n).
    + rewrite !DFSVisit_trace, Htr.
      pose proof (copied_trace h s h0 old_new tr Hcl Hin Hc Htr) as Htr'.
      fold ρ in Htr'. rewrite Htr'. simpl.
      rewrite !run_visitor_ListArguments. simpl. f_equal.
      apply arg_names_copy. intros p n Hp.
      eapply Hgrad; [|by eapply DFS_trace_lookup].
      eapply DFS_trace_reachable; [done..|].
      apply list_elem_of_fmap. by exists (p, n).
  - unfold ListReturns. simpl.
    rewrite (mapM_fmap_ext _ (λ e, ListReturns_head h0 (rename_entry ρ e)))
      by done.
    apply mapM_ext_in. intros e He.
    destruct (Hheads e He) as (n & Hn & Hn' & Hg).
    by eapply ListReturns_head_copy.
Qed.

Lemma Copy_round_trip_witness :
  let mul := mkOp "Mul" ["lhs"; "rhs"] ["output"] 1 in
  let h : gmap nat Node :=
    {[ 0 := mkNode None (Some mul) "f" [mkEntry 1 0; mkEntry 2 0];
       1 := mkNode None None "x" [];
       2 := mkNode None None "y" [] ]} in
  let s := mkSymbol [mkEntry 0 0] in
  ∃ h' s', Copy h s = Some (h', s') ∧
    ListArguments h' s' = Some ["x"; "y"]%string ∧
    ListReturns h' s' = Some ["f_output"]%string.
Proof.
  intros mul h s.
  destruct (Copy h s) as [[h' s']|] eqn:Hc; [|vm_compute in Hc; discriminate].
  destruct (Copy_round_trip h s h' s') as (_ & Hargs & Hrets).
  - apply closedb_closed. vm_compute. reflexivity.
  - apply heads_inb_heads_in. vm_compute. reflexivity.
  - intros p n Hp Hn Hop.
    assert (p = 0 ∨ p = 1 ∨ p = 2) as [->|[->| ->]].
    { destruct (decide (p = 0)) as [|H0]; [by left|].
      destruct (decide (p = 1)) as [|H1]; [by auto|].
      destruct (decide (p = 2)) as [|H2]; [by auto|].
      exfalso. unfold h in Hn.
      rewrite !lookup_insert_ne, lookup_singleton_ne in Hn by done. done. }
    all: vm_compute in Hn; by injection Hn as <-.
  - exact Hc.
  - exists h', s'. split_and!; [reflexivity|..].
    + rewrite Hargs. vm_compute. reflexivity.
    + rewrite Hrets. vm_compute. reflexivity.
Defined.

(** ** What a composition leaves alone *)

Lemma apply_plan_frame plan (h h' : gmap nat Node) r :
  apply_plan h plan = Some h' →
  (∀ x, x ∈ plan → x.1.1 ≠ r) →
  h' !! r = h !! r.
Proof.
  revert h. induction plan as [|[[p i] [d|]] plan IH]; intros h Hrun Hr.
  - by injection Hrun as <-.
  - simpl in Hrun. rewrite (IH _ Hrun).
    + unfold set_input. rewrite lookup_alter_ne; [done|].
      apply (Hr (p, i, Some d)). by left.
    + intros x Hx. apply Hr. by right.
  - done.
Qed.

(** A plan that runs yields what its writes yield. *)
Lemma run_plan_apply plan (h h' : gmap nat Node) s :
  run_plan h s plan = Some h' → apply_plan h plan = Some h'.
Proof.
  revert h. induction plan as [|[[p i] [d|]] plan IH]; intros h; simpl;
    [done| |done].
  unfold write_input. destruct (holds h s p); [|done]. simpl. apply IH.
Qed.

(** A fold that only appends to a plan appends what its steps append. *)
Lemma foldl_plan_grows {A B X} (plan_of : A → list X) (Q : B → X → Prop)
    (f : A → B → A) l st :
  (∀ st b, ∃ new, plan_of (f st b) = plan_of st ++ new ∧ Forall (Q b) new) →
  ∃ new, plan_of (foldl f st l) = plan_of st ++ new ∧
    Forall (λ x, ∃ b, b ∈ l ∧ Q b x) new.
Proof.
  intros Hstep. revert st. induction l as [|b l IH]; intros st.
  - exists []. by rewrite app_nil_r.
  - simpl. destruct (Hstep st b) as (new1 & H1 & HQ1).
    destruct (IH (f st b)) as (new2 & H2 & HQ2).
    exists (new1 ++ new2). rewrite H2, H1, <-app_assoc. split; [done|].
    apply Forall_app. split.
    + eapply Forall_impl; [exact HQ1|]. intros x Hx. exists b.
      split; [by left|done].
    + eapply Forall_impl; [exact HQ2|]. intros x (b' & Hb' & Hx).
      exists b'. split; [by right|done].
Qed.

Lemma Compose_visit_plan h args tr st :
  ∃ new, (run_visitor (Compose_visit h args) st tr).2 = st.2 ++ new ∧
    Forall (λ x, x.1.1 ∈ tr.*1) new.
Proof.
  destruct (foldl_plan_grows snd (λ (pn : nat * Node) x, x.1.1 = pn.1)
              (λ st pn, Compose_visit h args pn.1 pn.2 st) tr st)
    as (new & Hnew & HQ).
  - clear st. intros st [p n]. simpl. unfold Compose_visit.
    destruct (foldl_plan_grows snd (λ (_ : nat * DataEntry) x, x.1.1 = p)
                (Compose_edge h args p) (imap pair (inputs n)) st)
      as (new & Hnew & HQ).
    + clear st. intros [[c m] plan] [i e]. unfold Compose_edge.
      destruct (is_variable_at h (source e));
        [|exists []; by rewrite app_nil_r].
      destruct (m !! source e); [|case_decide]; simpl;
        eexists [_]; (split; [done|]); by repeat constructor.
    + exists new. split; [done|].
      eapply Forall_impl; [exact HQ|]. by intros x (_ & _ & Hx).
  - exists new. split; [done|].
    eapply Forall_impl; [exact HQ|]. intros x ([p n] & Hpn & Hx).
    simpl in Hx. rewrite Hx. apply list_elem_of_fmap. by exists (p, n).
Qed.

Lemma Compose_kw_visit_plan h kwargs tr st :
  ∃ new, (run_visitor (Compose_kw_visit h kwargs) st tr).2 = st.2 ++ new ∧
    Forall (λ x, x.1.1 ∈ tr.*1) new.
Proof.
  destruct (foldl_plan_grows snd (λ (pn : nat * Node) x, x.1.1 = pn.1)
              (λ st pn, Compose_kw_visit h kwargs pn.1 pn.2 st) tr st)
    as (new & Hnew & HQ).
  - clear st. intros st [p n]. simpl. unfold Compose_kw_visit.
    destruct (foldl_plan_grows snd (λ (_ : nat * DataEntry) x, x.1.1 = p)
                (Compose_kw_edge h kwargs p) (imap pair (inputs n)) st)
      as (new & Hnew & HQ).
    + clear st. intros [[c m] plan] [i e]. unfold Compose_kw_edge.
      destruct (h !! source e) as [k|]; [|exists []; by rewrite app_nil_r].
      destruct (node_is_variable k); [|exists []; by rewrite app_nil_r].
      destruct (kwargs_find kwargs (name k));
        [|exists []; by rewrite app_nil_r].
      case_decide; simpl; eexists [_]; (split; [done|]);
        by repeat constructor.
    + exists new. split; [done|].
      eapply Forall_impl; [exact HQ|]. by intros x (_ & _ & Hx).
  - exists new. split; [done|].
    eapply Forall_impl; [exact HQ|]. intros x ([p n] & Hpn & Hx).
    simpl in Hx. rewrite Hx. apply list_elem_of_fmap. by exists (p, n).
Qed.

Lemma DFS_trace_sound h s tr p :
  DFS_trace h s = Some tr → p ∈ tr.*1 → reachable h s p.
Proof.
  rewrite DFS_trace_unfold.
  intros Htr ([q n] & -> & Hq)%list_elem_of_fmap. simpl.
  eapply (dfs_list_sound h (reachable h s)); [| |exact Htr|exact Hq].
  - intros. by eapply reachable_input.
  - intros q' Hq'. rewrite elem_of_reverse in Hq'.
    apply new_of_fresh in Hq' as [Hq' _].
    apply list_elem_of_fmap in Hq' as (e & -> & He).
    by apply reachable_head.
Qed.

(** Positional [Compose] changes no node that the symbol does not reach. *)
Lemma Compose_frame h s args nm r n :
  h !! r = Some n → ¬ reachable h s r →
  (Compose h s args nm).1 !! r = Some n.
Proof.
  intros Hr Hunreach. unfold Compose.
  case_decide; [|done].
  destruct (heads_ s !! 0) as [hd|] eqn:Hhd; [|done].
  destruct (h !! source hd) as [n0|] eqn:Hn0; [|done].
  destruct (node_is_variable n0); [done|].
  assert (r ≠ source hd) as Hne.
  { intros ->. apply Hunreach, reachable_head.
    by eapply list_elem_of_lookup_2. }
  set (h1 := <[source hd := set_name nm n0]> h).
  assert (h1 !! r = Some n) as Hr1 by (unfold h1; by rewrite lookup_insert_ne).
  destruct (list_find _ args) as [[i a]|]; [done|].
  destruct (is_atomic h1 s).
  - destruct (op n0); [|done]. case_decide; [|done].
    destruct (mapM _ args); [|done]. simpl. by rewrite lookup_alter_ne.
  - rewrite DFSVisit_trace.
    destruct (DFS_trace h1 s) as [tr|] eqn:Htr; [|done]. simpl.
    destruct (Compose_visit_plan h1 args tr (0, ∅, [])) as (new & Hnew & HQ).
    destruct (run_visitor _ _ tr) as [[c m] plan]. simpl in Hnew. subst plan.
    case_decide; [|done].
    destruct (run_plan h1 _ new) as [h2|] eqn:Hrun; [|done]. simpl.
    apply run_plan_apply in Hrun.
    rewrite (apply_plan_frame _ _ _ r Hrun); [done|].
    intros x Hx Heq. rewrite Forall_forall in HQ.
    apply Hunreach. rewrite <-Heq.
    eapply same_edges_reachable;
      [apply same_edges_sym, (rename_same_edges h _ n0 nm Hn0)|].
    eapply DFS_trace_sound; [exact Htr|]. by apply HQ.
Qed.

(** Keyword [Compose] changes no node that the symbol does not reach. *)
Lemma Compose_kwargs_frame h s kwargs nm r n :
  h !! r = Some n → ¬ reachable h s r →
  (Compose_kwargs h s kwargs nm).1 !! r = Some n.
Proof.
  intros Hr Hunreach. unfold Compose_kwargs.
  case_decide; [|done].
  destruct (heads_ s !! 0) as [hd|] eqn:Hhd; [|done].
  destruct (h !! source hd) as [n0|] eqn:Hn0; [|done].
  destruct (node_is_variable n0); [done|].
  assert (r ≠ source hd) as Hne.
  { intros ->. apply Hunreach, reachable_head.
    by eapply list_elem_of_lookup_2. }
  set (h1 := <[source hd := set_name nm n0]> h).
  assert (h1 !! r = Some n) as Hr1 by (unfold h1; by rewrite lookup_insert_ne).
  destruct (List.find _ kwargs) as [[key a]|]; [done|].
  destruct (is_atomic h1 s).
  - destruct (op n0); [|done].
    destruct (foldl _ _ _) as [[[h2 ins] nmatched]|] eqn:Hfold; [|done].
    apply Compose_atomic_slots_spec in Hfold as (Hsub & _).
    simpl. case_decide; rewrite lookup_alter_ne by done;
      by eapply lookup_weaken.
  - destruct (FindDuplicateArgs h1 s) as [[dup_args max_dup]|]; [|done].
    destruct (check_dup_args dup_args max_dup); [done|].
    rewrite DFSVisit_trace.
    destruct (DFS_trace h1 s) as [tr|] eqn:Htr; [|done]. simpl.
    destruct (Compose_kw_visit_plan h1 kwargs tr (0, ∅, []))
      as (new & Hnew & HQ).
    destruct (run_visitor _ _ tr) as [[c m] plan]. simpl in Hnew. subst plan.
    case_decide; [|done].
    destruct (run_plan h1 _ new) as [h2|] eqn:Hrun; [|done]. simpl.
    apply run_plan_apply in Hrun.
    rewrite (apply_plan_frame _ _ _ r Hrun); [done|].
    intros x Hx Heq. rewrite Forall_forall in HQ.
    apply Hunreach. rewrite <-Heq.
    eapply same_edges_reachable;
      [apply same_edges_sym, (rename_same_edges h _ n0 nm Hn0)|].
    eapply DFS_trace_sound; [exact Htr|]. by apply HQ.
Qed.

Lemma ListReturns_subseteq h h' s :
  h ⊆ h' → heads_in h s → ListReturns h' s = ListReturns h s.
Proof.
  intros Hsub Hin. unfold ListReturns. apply mapM_ext_in. intros e He.
  destruct (Hin e He) as [n Hn]. unfold ListReturns_head.
  by rewrite Hn, (lookup_weaken _ _ _ _ Hn Hsub).
Qed.

(** ** Running a replacement plan *)

Section plan_run.
Context (target : DataEntry → option DataEntry).

(** Running the plan of one node rewrites the inputs of that node. *)
Lemma apply_plan_node p ins done_ n (hc : gmap nat Node) :
  hc !! p = Some n → inputs n = done_ ++ ins →
  apply_plan hc (node_plan target p (length done_) ins)
    = Some (<[p := set_inputs (done_ ++ (rebind target <$> ins)) n]> hc).
Proof.
  revert done_ n hc. induction ins as [|e ins IH]; intros done_ n hc Hp Hin.
  - simpl. f_equal. rewrite <-Hin. destruct n. simpl.
    by rewrite insert_id.
  - cbn [node_plan]. unfold rebind at 1. rewrite fmap_cons.
    destruct (target e) as [d|] eqn:Ht; simpl.
    + unfold set_input. rewrite (alter_alt_Some _ _ _ _ Hp).
      set (n1 := set_inputs (<[length done_ := d]> (inputs n)) n).
      assert (inputs n1 = (done_ ++ [d]) ++ ins) as Hin1.
      { unfold n1. simpl. rewrite Hin, insert_app_r_alt by lia.
        rewrite Nat.sub_diag. simpl. by rewrite <-app_assoc. }
      pose proof (IH (done_ ++ [d]) n1 (<[p := n1]> hc)
                    (lookup_insert_eq _ _ _) Hin1) as Hrun.
      rewrite length_app in Hrun. simpl in Hrun.
      rewrite Nat.add_1_r in Hrun. rewrite Hrun. f_equal.
      rewrite insert_insert_eq. f_equal. unfold n1, set_inputs. simpl.
      by rewrite <-app_assoc.
    + pose proof (IH (done_ ++ [e]) n hc Hp) as Hrun.
      rewrite length_app in Hrun. simpl in Hrun.
      rewrite Nat.add_1_r in Hrun. rewrite Hrun by (by rewrite <-app_assoc).
      by rewrite <-app_assoc.
Qed.

Lemma apply_plan_app (hc : gmap nat Node) plan1 plan2 :
  apply_plan hc (plan1 ++ plan2)
    = apply_plan hc plan1 ≫= λ h', apply_plan h' plan2.
Proof.
  revert hc. induction plan1 as [|[[p i] [d|]] plan1 IH]; intros hc;
    simpl; [done| |done]. apply IH.
Qed.

(** Running the plan of the traversal rewrites the inputs of every visited
    node and nothing else. *)
Lemma apply_plan_trace tr (hc : gmap nat Node) :
  NoDup tr.*1 →
  (∀ p n, (p, n) ∈ tr → hc !! p = Some n) →
  ∃ hf, apply_plan hc (tr ≫= λ pn, node_plan target pn.1 0 (inputs pn.2))
        = Some hf ∧
    (∀ p n, (p, n) ∈ tr →
       hf !! p = Some (set_inputs (rebind target <$> inputs n) n)) ∧
    (∀ r, r ∉ tr.*1 → hf !! r = hc !! r).
Proof.
  revert hc. induction tr as [|[p n] tr IH]; intros hc Hnd Hlook.
  - exists hc. split_and!; [done| |done]. by intros ?? ?%elem_of_nil.
  - rewrite fmap_cons in Hnd. apply NoDup_cons in Hnd as [Hp Hnd].
    simpl in Hp. cbn [mbind list_bind fst snd]. rewrite apply_plan_app.
    assert (hc !! p = Some n) as Hpn by (apply Hlook; by left).
    pose proof (apply_plan_node p (inputs n) [] n hc Hpn eq_refl) as Hnode.
    cbn [length app] in Hnode. rewrite Hnode. simpl.
    set (n' := set_inputs (rebind target <$> inputs n) n).
    destruct (IH (<[p := n']> hc)) as (hf & Hrun & Hvis & Hother); [done| |].
    { intros q m Hq. rewrite lookup_insert_ne; [apply Hlook; by right|].
      intros <-. apply Hp. apply list_elem_of_fmap. by exists (p, m). }
    exists hf. split_and!; [done| |].
    + intros q m [[= -> ->]|Hq]%elem_of_cons; [|by apply Hvis].
      rewrite Hother by done. by rewrite lookup_insert_eq.
    + intros r Hr. rewrite ?fmap_cons, not_elem_of_cons in Hr.
      destruct Hr as [Hr1 Hr2]. rewrite Hother by done.
      by rewrite lookup_insert_ne.
Qed.
End plan_run.

(** ** Which writes of a plan are to live nodes *)

Lemma run_visitor_collect tr (acc : gset nat) :
  run_visitor (λ q (_ : Node) (acc : gset nat), {[q]} ∪ acc) acc tr
    = list_to_set tr.*1 ∪ acc.
Proof.
  revert acc. induction tr as [|[p n] tr IH]; intros acc.
  - simpl. by rewrite (left_id_L ∅ (∪)).
  - cbn [run_visitor foldl]. unfold run_visitor in IH. rewrite IH.
    rewrite fmap_cons. simpl. set_solver.
Qed.

(** On a closed heap a symbol holds exactly the nodes that it reaches. *)
Lemma holds_reachable h s p :
  closed h → heads_in h s → holds h s p = true ↔ reachable h s p.
Proof.
  intros Hcl Hin. unfold holds. rewrite DFSVisit_trace.
  destruct (DFS_trace_total h s Hcl Hin) as [tr Htr]. rewrite Htr. simpl.
  rewrite run_visitor_collect, bool_decide_eq_true, (right_id_L ∅ (∪)),
    elem_of_list_to_set.
  by apply DFS_trace_reachable.
Qed.

Lemma node_plan_entries (target : DataEntry → option DataEntry) p k ins x :
  x ∈ node_plan target p k ins →
  ∃ i e0 d,
    x = (p, k + i, Some d) ∧ ins !! i = Some e0 ∧ target e0 = Some d.
Proof.
  revert k. induction ins as [|e ins IH]; intros k; simpl.
  - by intros ?%elem_of_nil.
  - intros [Hx|Hx]%elem_of_app.
    + destruct (target e) as [d|] eqn:Ht; [|by apply elem_of_nil in Hx].
      apply list_elem_of_singleton in Hx as ->. exists 0, e, d.
      by rewrite Nat.add_0_r.
    + destruct (IH _ Hx) as (i & e0 & d & -> & Hi & Ht).
      exists (S i), e0, d. split_and!; [|done..]. do 2 f_equal. lia.
Qed.

Section plan_live.
Context (h0 : gmap nat Node) (s : Symbol).
Context (target : DataEntry → option DataEntry).
Hypothesis Hcl : closed h0.
Hypothesis Hin : heads_in h0 s.
Hypothesis Hleaf : variables_are_leaves h0 s.
Hypothesis Htarget : ∀ e d,
  target e = Some d →
  is_variable_at h0 (source e) = true ∧ is_Some (h0 !! source d).

Lemma rewritten_refl : rewritten target h0 h0.
Proof.
  split; [done|]. intros p n0 n Hn0 Hn. simplify_eq.
  apply Forall2_same_length_lookup_2; [done|].
  intros i e0 e H1 H2. left. congruence.
Qed.

Lemma rewritten_closed hc : rewritten target h0 hc → closed hc.
Proof.
  intros [Hdom Hedges] p n e Hn He. apply Hdom.
  destruct (proj1 (Hdom p) (mk_is_Some _ _ Hn)) as [n0 Hn0].
  pose proof (Hedges p n0 n Hn0 Hn) as Hall.
  apply list_elem_of_lookup in He as [i Hi].
  destruct (Forall2_lookup_r _ _ _ _ _ Hall Hi) as (e0 & Hi0 & [->|Ht]).
  - eapply Hcl; [exact Hn0|]. by eapply list_elem_of_lookup_2.
  - by destruct (Htarget e0 e Ht).
Qed.

Lemma rewritten_heads_in hc : rewritten target h0 hc → heads_in hc s.
Proof. intros [Hdom _] e He. apply Hdom. by apply Hin. Qed.

(** An edge between nodes that are not variables is never overwritten, so a
    node that is not a variable stays reachable. *)
Lemma rewritten_reachable hc p :
  rewritten target h0 hc →
  reachable h0 s p → is_variable_at h0 p = false → reachable hc s p.
Proof.
  intros [Hdom Hedges]. induction 1 as [e He|q n0 e Hq IH Hn0 He].
  - intros _. by apply reachable_head.
  - intros Hnv.
    assert (is_variable_at h0 q = false) as Hqv.
    { unfold is_variable_at. rewrite Hn0.
      destruct (node_is_variable n0) eqn:Hv; [|done].
      rewrite (Hleaf q n0 Hq Hn0 Hv) in He. by apply elem_of_nil in He. }
    destruct (proj2 (Hdom q) (mk_is_Some _ _ Hn0)) as [n Hn].
    pose proof (Hedges q n0 n Hn0 Hn) as Hall.
    apply list_elem_of_lookup in He as [i Hi].
    destruct (Forall2_lookup_l _ _ _ _ _ Hall Hi) as (e' & Hi' & [->|Ht]).
    + eapply reachable_input; [by apply IH|exact Hn|].
      by eapply list_elem_of_lookup_2.
    + destruct (Htarget e e' Ht) as [Hv _]. congruence.
Qed.

Lemma rewritten_step hc p n0 i e0 d :
  rewritten target h0 hc →
  h0 !! p = Some n0 → inputs n0 !! i = Some e0 → target e0 = Some d →
  rewritten target h0 (set_input hc p i d).
Proof.
  intros [Hdom Hedges] Hn0 Hi Ht. unfold set_input. split.
  - intros q. rewrite <-Hdom. destruct (decide (q = p)) as [->|Hne].
    + rewrite lookup_alter_eq. by rewrite fmap_is_Some.
    + by rewrite lookup_alter_ne.
  - intros q m0 m Hm0 Hm. destruct (decide (q = p)) as [->|Hne].
    + rewrite lookup_alter_eq in Hm.
      destruct (hc !! p) as [n|] eqn:Hn; [|done]. injection Hm as <-.
      assert (m0 = n0) as -> by congruence. simpl.
      rewrite <-(list_insert_id (inputs n0) i e0 Hi).
      apply Forall2_insert; [by eapply Hedges|by right].
    + rewrite lookup_alter_ne in Hm by done. by eapply Hedges.
Qed.

(** A plan whose entries overwrite edges to variables with their targets
    writes to live nodes only. *)
Lemma run_plan_live plan hc :
  rewritten target h0 hc →
  Forall (λ x, ∃ n0 e0 d,
            reachable h0 s x.1.1 ∧ h0 !! x.1.1 = Some n0 ∧
            inputs n0 !! x.1.2 = Some e0 ∧ target e0 = Some d ∧
            x.2 = Some d) plan →
  run_plan hc s plan = apply_plan hc plan.
Proof.
  intros Hrw Hplan. revert hc Hrw.
  induction Hplan as [|[[p i] t] plan (n0 & e0 & d & Hp & Hn0 & Hi & Ht & Hd)
                        _ IH]; intros hc Hrw; [done|].
  simpl in *. subst t. unfold write_input.
  assert (holds hc s p = true) as ->.
  { apply holds_reachable;
      [by apply rewritten_closed|by apply rewritten_heads_in|].
    apply rewritten_reachable; [done..|].
    unfold is_variable_at. rewrite Hn0.
    destruct (node_is_variable n0) eqn:Hv; [|done].
    by rewrite (Hleaf p n0 Hp Hn0 Hv) in Hi. }
  simpl. apply IH. by eapply rewritten_step.
Qed.

(** Running the plan of the traversal rewrites the inputs of every visited
    node and nothing else. *)
Lemma run_plan_trace tr :
  DFS_trace h0 s = Some tr →
  ∃ hf, run_plan h0 s (tr ≫= λ pn, node_plan target pn.1 0 (inputs pn.2))
        = Some hf ∧
    (∀ p n, (p, n) ∈ tr →
       hf !! p = Some (set_inputs (rebind target <$> inputs n) n)) ∧
    (∀ r, r ∉ tr.*1 → hf !! r = h0 !! r).
Proof.
  intros Htr. rewrite (run_plan_live _ h0 rewritten_refl).
  - apply apply_plan_trace; [by eapply DFS_trace_NoDup|].
    intros p n. by eapply DFS_trace_lookup.
  - apply Forall_forall. intros x ([p n] & Hx & Hpn)%list_elem_of_bind.
    simpl in Hx.
    apply node_plan_entries in Hx as (i & e0 & d & -> & Hi & Ht).
    exists n, e0, d. simpl. split_and!; [|by eapply DFS_trace_lookup|done..].
    eapply DFS_trace_sound; [exact Htr|].
    apply list_elem_of_fmap. by exists (p, n).
Qed.
End plan_live.

(** ** Keyword composition on a composite symbol *)

Lemma kwargs_find_head (kwargs : list (string * Symbol)) key a :
  Forall (λ kv, NumReturns kv.2 = 1) kwargs →
  kwargs_find kwargs key = Some a → ∃ d, heads_ a = [d].
Proof.
  intros Hkw Hfind%kwargs_find_Some.
  rewrite Forall_forall in Hkw. specialize (Hkw _ Hfind). simpl in Hkw.
  unfold NumReturns in Hkw. destruct (heads_ a) as [|d [|]]; simplify_eq/=.
  by exists d.
Qed.

Lemma kwargs_find_key (kwargs : list (string * Symbol)) key :
  key ∈ kwargs.*1 → is_Some (kwargs_find kwargs key).
Proof.
  intros ([k a] & -> & Hin)%list_elem_of_fmap. unfold kwargs_find. simpl.
  destruct (find_some_exists (λ kv : string * Symbol, bool_decide (kv.1 = k))
              kwargs (k, a) Hin) as [kv ->]; [|by eexists].
  by apply bool_decide_eq_true.
Qed.

Section kw_plan.
Context (h : gmap nat Node) (kwargs : list (string * Symbol)).
Hypothesis Hkw : Forall (λ kv, NumReturns kv.2 = 1) kwargs.

(** The body of the loop of lines 338-353, with the count written as the
    size of the set of matched variables. *)
Lemma Compose_kw_edge_spec p (V : gset nat) plan i e :
  Compose_kw_edge h kwargs p (size V, V, plan) (i, e)
    = (size (list_to_set (kw_matched h kwargs [e]) ∪ V),
       list_to_set (kw_matched h kwargs [e]) ∪ V,
       plan ++ node_plan (kw_target h kwargs) p i [e]).
Proof.
  unfold kw_matched. rewrite filter_cons, filter_nil. cbn [node_plan].
  rewrite app_nil_r. unfold Compose_kw_edge.
  destruct (kw_target h kwargs e) as [d|] eqn:Ht.
  - rewrite decide_True by eauto. simpl. rewrite (right_id_L ∅ (∪)).
    unfold kw_target in Ht.
    destruct (h !! source e) as [m|]; [|done]. simpl in Ht.
    destruct (node_is_variable m); [|done].
    destruct (kwargs_find kwargs (name m)) as [a|]; [|done]. simpl in Ht.
    rewrite Ht. case_decide as HV.
    + assert ({[source e]} ∪ V = V) as -> by set_solver. done.
    + rewrite size_union, size_singleton by set_solver. done.
  - rewrite decide_False by (by intros [??]). simpl.
    rewrite (left_id_L ∅ (∪)), app_nil_r.
    unfold kw_target in Ht.
    destruct (h !! source e) as [m|]; [|done]. simpl in Ht.
    destruct (node_is_variable m); [|done].
    destruct (kwargs_find kwargs (name m)) as [a|] eqn:Hfind; [|done].
    simpl in Ht. destruct (kwargs_find_head kwargs _ a Hkw Hfind) as [d Hd].
    by rewrite Hd in Ht.
Qed.

Lemma kw_matched_cons e ins :
  list_to_set (kw_matched h kwargs (e :: ins)) ∪ (∅ : gset nat)
    = list_to_set (kw_matched h kwargs ins)
      ∪ list_to_set (kw_matched h kwargs [e]).
Proof.
  unfold kw_matched. rewrite !filter_cons, filter_nil.
  destruct (decide (is_Some (kw_target h kwargs e))); simpl; set_solver.
Qed.

(** The visit of one node, lines 338-353. *)
Lemma Compose_kw_edges_spec p ins k (V : gset nat) plan :
  foldl (Compose_kw_edge h kwargs p) (size V, V, plan)
    (imap (λ i, pair (k + i)) ins)
  = (size (list_to_set (kw_matched h kwargs ins) ∪ V),
     list_to_set (kw_matched h kwargs ins) ∪ V,
     plan ++ node_plan (kw_target h kwargs) p k ins).
Proof.
  revert k V plan. induction ins as [|e ins IH]; intros k V plan.
  - simpl. by rewrite (left_id_L ∅ (∪)), app_nil_r.
  - cbn [imap foldl]. rewrite Nat.add_0_r, Compose_kw_edge_spec.
    rewrite (imap_ext _ (λ i, pair (S k + i)))
      by (intros; simpl; f_equal; lia).
    etrans; [apply (IH (S k))|].
    assert (list_to_set (kw_matched h kwargs ins)
              ∪ (list_to_set (kw_matched h kwargs [e]) ∪ V)
            = list_to_set (kw_matched h kwargs (e :: ins)) ∪ V) as ->.
    { pose proof (kw_matched_cons e ins) as Hc.
      rewrite (right_id_L ∅ (∪)) in Hc. rewrite Hc. set_solver. }
    f_equal. cbn [node_plan]. rewrite <-app_assoc. f_equal.
    cbn [node_plan]. by rewrite app_nil_r.
Qed.

(** The traversal of lines 335-354. *)
Lemma Compose_kw_trace_spec tr (V : gset nat) plan :
  run_visitor (Compose_kw_visit h kwargs) (size V, V, plan) tr
  = (size (list_to_set (tr ≫= λ pn, kw_matched h kwargs (inputs pn.2)) ∪ V),
     list_to_set (tr ≫= λ pn, kw_matched h kwargs (inputs pn.2)) ∪ V,
     plan ++ (tr ≫= λ pn, node_plan (kw_target h kwargs) pn.1 0 (inputs pn.2))).
Proof.
  revert V plan. induction tr as [|[p n] tr IH]; intros V plan.
  - unfold run_visitor. simpl. by rewrite (left_id_L ∅ (∪)), app_nil_r.
  - unfold run_visitor in *. cbn [foldl fst snd]. unfold Compose_kw_visit at 2.
    pose proof (Compose_kw_edges_spec p (inputs n) 0 V plan) as Hn.
    change (imap (λ i, pair (0 + i)) (inputs n))
      with (imap pair (inputs n)) in Hn.
    rewrite Hn, IH. cbn [mbind list_bind fst snd].
    rewrite list_to_set_app_L, <-app_assoc.
    assert (∀ A B C : gset nat, A ∪ (B ∪ C) = B ∪ A ∪ C) as Hs.
    { intros A B C. by rewrite (assoc_L (∪)), (comm_L (∪) A B). }
    by rewrite Hs.
Qed.

End kw_plan.

Lemma elem_of_arg_names key tr :
  key ∈ arg_names tr
  ↔ ∃ p n, (p, n) ∈ tr ∧ node_is_variable n = true ∧ name n = key.
Proof.
  unfold arg_names. rewrite list_elem_of_fmap. split.
  - intros ([p n] & -> & [Hv Hin]%list_elem_of_filter). by exists p, n.
  - intros (p & n & Hin & Hv & <-). exists (p, n). split; [done|].
    by apply list_elem_of_filter.
Qed.

(** Variables of one name in a traversal whose argument names do not repeat
    are one node. *)
Lemma arg_names_NoDup_inj tr p q np nq :
  NoDup tr.*1 → NoDup (arg_names tr) →
  (p, np) ∈ tr → (q, nq) ∈ tr →
  node_is_variable np = true → node_is_variable nq = true →
  name np = name nq → p = q.
Proof.
  intros Hnd Hargs Hp Hq Hvp Hvq Hname.
  destruct (decide (p = q)) as [|Hne]; [done|]. exfalso.
  pose proof (var_count_two tr p q np nq Hnd Hp Hq Hne Hvp Hvq Hname) as H2.
  rewrite var_count_arg_names in H2.
  rewrite NoDup_occurrences in Hargs. specialize (Hargs (name np)). lia.
Qed.

(** The traversal after the head node was renamed, lines 230 and 288. *)
Lemma DFS_trace_rename_head h s hd n0 nm tr :
  closed h → heads_in h s → h !! hd = Some n0 →
  DFS_trace h s = Some tr →
  DFS_trace (<[hd := set_name nm n0]> h) s
    = Some ((λ pn, (pn.1, if decide (pn.1 = hd) then set_name nm pn.2
                          else pn.2)) <$> tr).
Proof.
  intros Hcl Hin Hhd Htr. set (h1 := <[hd := set_name nm n0]> h).
  assert (same_structure id h s h1 s) as Hsame.
  { split_and!; [done|by rewrite list_fmap_id|].
    intros p n1 _ Hn1. unfold h1, id.
    rewrite (rename_lookup h hd n0 nm Hhd), Hn1. simpl.
    eexists. split; [done|].
    rewrite list_fmap_id. by case_decide. }
  destruct (visit_order_rename id h s h1 s Hcl Hin Hsame) as (order & Ho & Ho').
  rewrite visit_order_trace, Htr in Ho. injection Ho as <-.
  rewrite visit_order_trace, list_fmap_id in Ho'.
  destruct (DFS_trace h1 s) as [tr'|] eqn:Htr'; [|done].
  injection Ho' as Ho'. f_equal.
  apply list_eq. intros i. rewrite list_lookup_fmap.
  pose proof (f_equal (λ l, l !! i) Ho') as Hi. simpl in Hi.
  rewrite !list_lookup_fmap in Hi.
  destruct (tr' !! i) as [[q m]|] eqn:Hq;
    destruct (tr !! i) as [[p n]|] eqn:Hp; simplify_eq/=; [|done].
  do 2 f_equal.
  apply list_elem_of_lookup_2 in Hq, Hp.
  pose proof (DFS_trace_lookup _ _ _ _ _ Htr' Hq) as Hm.
  pose proof (DFS_trace_lookup _ _ _ _ _ Htr Hp) as Hn.
  unfold h1 in Hm. rewrite (rename_lookup h hd n0 nm Hhd), Hn in Hm.
  simpl in Hm. injection Hm as <-. by case_decide.
Qed.

Lemma arg_names_rename_head tr hd nm :
  (∀ n, (hd, n) ∈ tr → node_is_variable n = false) →
  arg_names ((λ pn, (pn.1, if decide (pn.1 = hd) then set_name nm pn.2
                           else pn.2)) <$> tr) = arg_names tr.
Proof.
  induction tr as [|[p n] tr IH]; intros Hhd; [done|].
  rewrite fmap_cons, !arg_names_cons. simpl.
  rewrite IH by (intros m Hm; apply Hhd; by right). f_equal.
  case_decide as Hp; [|done]. subst p.
  change (node_is_variable (set_name nm n)) with (node_is_variable n).
  by rewrite (Hhd n) by (by left).
Qed.

Lemma kw_target_rename_head h hd n0 nm kwargs e :
  h !! hd = Some n0 → node_is_variable n0 = false →
  kw_target (<[hd := set_name nm n0]> h) kwargs e = kw_target h kwargs e.
Proof.
  intros Hhd Hvar. unfold kw_target. rewrite (rename_lookup h hd n0 nm Hhd).
  destruct (h !! source e) as [m|] eqn:Hm; [|done]. simpl.
  case_decide as Heq; [|done]. subst hd.
  assert (m = n0) as -> by congruence.
  unfold node_is_variable in *. simpl. by rewrite Hvar.
Qed.

Lemma variables_are_leavesb_spec h s :
  variables_are_leavesb h = true → variables_are_leaves h s.
Proof.
  intros Hb%bool_decide_eq_true p n _ Hp Hv. by apply (Hb p n Hp).
Qed.

Lemma node_plan_ext (t1 t2 : DataEntry → option DataEntry) p k ins :
  (∀ e, e ∈ ins → t1 e = t2 e) →
  node_plan t1 p k ins = node_plan t2 p k ins.
Proof.
  revert k. induction ins as [|e ins IH]; intros k Hext; [done|].
  cbn [node_plan]. rewrite (Hext e) by (by left). f_equal.
  apply IH. intros e' He'. apply Hext. by right.
Qed.

Lemma node_plan_rename_head (target : DataEntry → option DataEntry) tr hd nm :
  ((λ pn : nat * Node,
      (pn.1, if decide (pn.1 = hd) then set_name nm pn.2 else pn.2)) <$> tr)
    ≫= (λ pn, node_plan target pn.1 0 (inputs pn.2))
  = tr ≫= λ pn, node_plan target pn.1 0 (inputs pn.2).
Proof.
  induction tr as [|[p n] tr IH]; [done|].
  rewrite fmap_cons, !bind_cons, IH. f_equal. simpl. by case_decide.
Qed.

Lemma variables_are_leaves_rename h s hd n0 nm :
  h !! hd = Some n0 →
  variables_are_leaves h s →
  variables_are_leaves (<[hd := set_name nm n0]> h) s.
Proof.
  intros Hhd Hleaf p n Hp Hn Hv.
  apply (same_edges_reachable _ h) in Hp;
    [|apply same_edges_sym, (rename_same_edges h hd n0 nm Hhd)].
  rewrite (rename_lookup h hd n0 nm Hhd) in Hn.
  destruct (h !! p) as [m|] eqn:Hm; [|done]. simpl in Hn.
  injection Hn as <-.
  assert (inputs m = [] ) as Hm'.
  { apply (Hleaf p m Hp Hm). by case_decide. }
  by case_decide.
Qed.

(** Running the plan of the traversal after the head was renamed.  When the
    variables are leaves and the targets are nodes of the heap, every write
    is to a live node: the plan runs, it rewrites the edges that have a
    target and it changes nothing else. *)
Lemma Compose_plan_done h hd n0 nm tr
    (target : DataEntry → option DataEntry) :
  closed h →
  h !! source hd = Some n0 →
  variables_are_leaves h (mkSymbol [hd]) →
  (∀ e d, target e = Some d →
     is_variable_at h (source e) = true ∧ is_Some (h !! source d)) →
  DFS_trace h (mkSymbol [hd]) = Some tr →
  ∃ hf : gmap nat Node,
    run_plan (<[source hd := set_name nm n0]> h) (mkSymbol [hd])
      (tr ≫= λ pn, node_plan target pn.1 0 (inputs pn.2)) = Some hf ∧
    (∀ p n, reachable h (mkSymbol [hd]) p → h !! p = Some n →
       hf !! p = Some (set_inputs (rebind target <$> inputs n)
                         (if decide (p = source hd) then set_name nm n
                          else n))) ∧
    (∀ r, ¬ reachable h (mkSymbol [hd]) r → hf !! r = h !! r).
Proof.
  intros Hcl Hhd Hleaf Htarget Htr.
  set (s := mkSymbol [hd]) in *.
  set (h1 := <[source hd := set_name nm n0]> h).
  assert (heads_in h s) as Hin.
  { intros e ->%list_elem_of_singleton. by eexists. }
  assert (same_edges h h1) as He by (by apply rename_same_edges).
  assert (closed h1) as Hcl1 by (by eapply same_edges_closed).
  assert (heads_in h1 s) as Hin1 by (by eapply same_edges_heads_in).
  set (fix_ := λ pn : nat * Node,
         (pn.1, if decide (pn.1 = source hd) then set_name nm pn.2
                else pn.2)).
  pose proof (DFS_trace_rename_head h s (source hd) n0 nm tr Hcl Hin Hhd Htr)
    as Htr1.
  fold h1 fix_ in Htr1. set (tr1 := fix_ <$> tr) in *.
  destruct (run_plan_trace h1 s target Hcl1 Hin1) with (tr := tr1)
    as (hf & Hrun & Hvis & Hoth); [| |done|].
  { by apply variables_are_leaves_rename. }
  { intros e d Ht. destruct (Htarget e d Ht) as [Hv Hd]. unfold h1.
    rewrite (rename_variable h _ n0 nm Hhd),
      (rename_lookup h _ n0 nm Hhd), fmap_is_Some. done. }
  unfold tr1, fix_ in Hrun. rewrite node_plan_rename_head in Hrun.
  exists hf. split_and!; [done| |].
  - intros p n Hp Hn.
    assert ((p, n) ∈ tr) as Hpn.
    { assert (p ∈ tr.*1) as Hin'
        by (by apply (proj2 (DFS_trace_reachable h s tr p Hcl Hin Htr))).
      apply list_elem_of_fmap in Hin' as ([q k] & -> & Hq). simpl in *.
      pose proof (DFS_trace_lookup _ _ _ _ _ Htr Hq). congruence. }
    rewrite (Hvis p (fix_ (p, n)).2)
      by (apply (list_elem_of_fmap_2 fix_ tr (p, n)); exact Hpn).
    unfold fix_. simpl. by case_decide.
  - intros r Hr. rewrite Hoth.
    + unfold h1. rewrite lookup_insert_ne; [done|]. intros <-. apply Hr.
      apply (reachable_head h s hd). by left.
    + assert (tr1.*1 = tr.*1) as ->
        by (unfold tr1; by rewrite <-list_fmap_compose).
      intros Hin'. apply Hr.
      by apply (proj1 (DFS_trace_reachable h s tr r Hcl Hin Htr)).
Qed.

Lemma kw_target_live h kwargs e d :
  Forall (λ kv, heads_in h kv.2) kwargs →
  kw_target h kwargs e = Some d →
  is_variable_at h (source e) = true ∧ is_Some (h !! source d).
Proof.
  intros Hkw. unfold kw_target, is_variable_at.
  destruct (h !! source e) as [m|]; [|done]. simpl.
  destruct (node_is_variable m); [|done].
  destruct (kwargs_find kwargs (name m)) as [a|] eqn:Hfind; [|done]. simpl.
  intros Hd. split; [done|].
  apply kwargs_find_Some in Hfind. rewrite Forall_forall in Hkw.
  apply (Hkw _ Hfind). by eapply list_elem_of_lookup_2.
Qed.

Section kw_count.
Context (h : gmap nat Node) (s : Symbol) (kwargs : list (string * Symbol)).
Context (tr : list (nat * Node)).
Hypothesis Hcl : closed h.
Hypothesis Hin : heads_in h s.
Hypothesis Htr : DFS_trace h s = Some tr.
Hypothesis Hheads : ∀ e n,
  e ∈ heads_ s → h !! source e = Some n → node_is_variable n = false.
Hypothesis Hkw : Forall (λ kv, NumReturns kv.2 = 1) kwargs.
Hypothesis Hkeys : NoDup kwargs.*1.
Hypothesis Hargs : NoDup (arg_names tr).

Let matched : gset nat :=
  list_to_set (tr ≫= λ pn, kw_matched h kwargs (inputs pn.2)).
Let name_at (v : nat) : string :=
  match h !! v with Some m => name m | None => EmptyString end.

Lemma kw_matched_elem v :
  v ∈ matched ↔
  ∃ m, (v, m) ∈ tr ∧ node_is_variable m = true ∧ name m ∈ kwargs.*1.
Proof.
  unfold matched. rewrite elem_of_list_to_set, list_elem_of_bind. split.
  - intros ([p n] & Hv & Hpn). unfold kw_matched in Hv. simpl in Hv.
    apply list_elem_of_fmap in Hv as (e & -> & [Ht He]%list_elem_of_filter).
    destruct Ht as [d Hd]. unfold kw_target in Hd.
    destruct (h !! source e) as [m|] eqn:Hm; [|done]. simpl in Hd.
    destruct (node_is_variable m) eqn:Hv; [|done].
    destruct (kwargs_find kwargs (name m)) as [a|] eqn:Hfind; [|done].
    exists m. split_and!; [|done|].
    + assert (source e ∈ tr.*1) as Hvis.
      { eapply DFS_trace_reachable; [done..|].
        eapply reachable_input; [|by eapply DFS_trace_lookup|exact He].
        eapply DFS_trace_sound; [done|].
        apply list_elem_of_fmap. by exists (p, n). }
      apply list_elem_of_fmap in Hvis as ([q k] & Hq & Hvis). simpl in Hq.
      subst q. pose proof (DFS_trace_lookup _ _ _ _ _ Htr Hvis). congruence.
    + apply kwargs_find_Some in Hfind.
      apply list_elem_of_fmap. by exists (name m, a).
  - intros (m & Hvm & Hvar & Hkey).
    pose proof (DFS_trace_lookup _ _ _ _ _ Htr Hvm) as Hm.
    assert (reachable h s v) as Hreach.
    { eapply DFS_trace_sound; [done|]. apply list_elem_of_fmap.
      by exists (v, m). }
    destruct Hreach as [e He|p n e Hp Hn He].
    { rewrite (Hheads e m He Hm) in Hvar. done. }
    exists (p, n). split.
    + unfold kw_matched. simpl. apply list_elem_of_fmap. exists e.
      split; [done|]. apply list_elem_of_filter. split; [|done].
      unfold kw_target. rewrite Hm. simpl. rewrite Hvar.
      destruct (kwargs_find_key kwargs _ Hkey) as [a Ha]. rewrite Ha. simpl.
      destruct (kwargs_find_head kwargs _ a Hkw Ha) as [d ->]. by eexists.
    + assert (p ∈ tr.*1) as Hvis by (by eapply DFS_trace_reachable).
      apply list_elem_of_fmap in Hvis as ([q k] & Hq & Hvis). simpl in Hq.
      subst q. pose proof (DFS_trace_lookup _ _ _ _ _ Htr Hvis). congruence.
Qed.

(** The number of matched variables is the number of keys that are argument
    names. *)
Lemma kw_matched_size :
  size matched = length (known_keys kwargs (arg_names tr)).
Proof.
  pose proof (DFS_trace_NoDup h s tr Hcl Hin Htr) as Hnd.
  unfold size, set_size. simpl.
  rewrite <-(length_fmap name_at). apply Permutation_length.
  apply NoDup_Permutation.
  - apply NoDup_fmap_2_strong; [|apply NoDup_elements].
    intros v1 v2 H1 H2 Heq.
    apply elem_of_elements, kw_matched_elem in H1 as (m1 & H1 & Hv1 & _).
    apply elem_of_elements, kw_matched_elem in H2 as (m2 & H2 & Hv2 & _).
    unfold name_at in Heq.
    rewrite (DFS_trace_lookup _ _ _ _ _ Htr H1) in Heq.
    rewrite (DFS_trace_lookup _ _ _ _ _ Htr H2) in Heq.
    by eapply (arg_names_NoDup_inj tr v1 v2 m1 m2).
  - by apply NoDup_filter.
  - intros key. unfold known_keys.
    rewrite list_elem_of_fmap, list_elem_of_filter, elem_of_arg_names. split.
    + intros (v & -> & Hv%elem_of_elements%kw_matched_elem).
      destruct Hv as (m & Hvm & Hvar & Hkey). unfold name_at.
      rewrite (DFS_trace_lookup _ _ _ _ _ Htr Hvm). split; [|done].
      by exists v, m.
    + intros [(v & m & Hvm & Hvar & <-) Hkey]. exists v. split.
      * unfold name_at. by rewrite (DFS_trace_lookup _ _ _ _ _ Htr Hvm).
      * apply elem_of_elements, kw_matched_elem. by exists m.
Qed.
End kw_count.

(** Keyword [Compose] on a composite symbol whose argument names do not
    repeat: the plan is run exactly when every key is an argument name. *)
Lemma Compose_kwargs_composite_spec h hd n0 kwargs nm tr :
  closed h →
  h !! source hd = Some n0 →
  node_is_variable n0 = false → node_is_atomic n0 = false →
  Forall (λ kv, NumReturns kv.2 = 1) kwargs → NoDup kwargs.*1 →
  DFS_trace h (mkSymbol [hd]) = Some tr → NoDup (arg_names tr) →
  Compose_kwargs h (mkSymbol [hd]) kwargs nm
    = if decide (length (known_keys kwargs (arg_names tr)) = length kwargs)
      then
        match run_plan (<[source hd := set_name nm n0]> h) (mkSymbol [hd])
                (tr ≫= λ pn, node_plan (kw_target h kwargs) pn.1 0
                               (inputs pn.2)) with
        | None => (<[source hd := set_name nm n0]> h, Undefined)
        | Some h2 => (h2, Done)
        end
      else (<[source hd := set_name nm n0]> h,
            KeywordArgumentMismatch "Symbol.Compose" kwargs.*1
              (arg_names tr)).
Proof.
  intros Hcl Hhd Hvar Hat Hkw Hkeys Htr Hargs.
  set (s := mkSymbol [hd]) in *.
  set (h1 := <[source hd := set_name nm n0]> h).
  assert (heads_in h s) as Hin.
  { intros e ->%list_elem_of_singleton. by eexists. }
  assert (h1 !! source hd = Some (set_name nm n0)) as Hh1
    by apply lookup_insert_eq.
  assert (same_edges h h1) as He by (by apply rename_same_edges).
  assert (closed h1) as Hcl1 by (by eapply same_edges_closed).
  assert (heads_in h1 s) as Hin1 by (by eapply same_edges_heads_in).
  set (fix_ := λ pn : nat * Node,
         (pn.1, if decide (pn.1 = source hd) then set_name nm pn.2
                else pn.2)).
  pose proof (DFS_trace_rename_head h s (source hd) n0 nm tr Hcl Hin Hhd Htr)
    as Htr1.
  fold h1 fix_ in Htr1. set (tr1 := fix_ <$> tr) in *.
  assert (arg_names tr1 = arg_names tr) as Hnames.
  { apply arg_names_rename_head. intros n Hn.
    pose proof (DFS_trace_lookup _ _ _ _ _ Htr Hn). congruence. }
  assert (tr1 ≫= (λ pn, node_plan (kw_target h1 kwargs) pn.1 0 (inputs pn.2))
          = tr ≫= λ pn, node_plan (kw_target h kwargs) pn.1 0 (inputs pn.2))
    as Hplan1.
  { unfold tr1, fix_. rewrite node_plan_rename_head.
    apply list_bind_ext; [|done]. intros [p n]. simpl.
    apply node_plan_ext. intros e _. unfold h1.
    by rewrite kw_target_rename_head. }
  unfold Compose_kwargs. simpl. rewrite Hhd, Hvar.
  rewrite find_tuple_kwarg_none by done. fold h1 s.
  assert (is_atomic h1 s = false) as ->.
  { unfold is_atomic, s. simpl. by rewrite Hh1. }
  unfold FindDuplicateArgs. rewrite DFSVisit_trace, Htr1. simpl.
  destruct (run_visitor FindDuplicateArgs_visit (∅, 1) tr1)
    as [out max_dup] eqn:Hdup.
  assert (max_dup = 1) as ->.
  { destruct (FindDuplicateArgs_max _ _ _ Hdup) as [->|[key Hkey]]; [done|].
    destruct (FindDuplicateArgs_counts _ _ _ Hdup) as (_ & _ & Hone).
    rewrite var_count_arg_names, Hnames in Hkey.
    rewrite NoDup_occurrences in Hargs. specialize (Hargs key). lia. }
  assert (check_dup_args out 1 = None) as ->.
  { unfold check_dup_args. by rewrite decide_False by lia. }
  rewrite DFSVisit_trace, Htr1. simpl.
  pose proof (Compose_kw_trace_spec h1 kwargs Hkw tr1 ∅ []) as Hplan.
  rewrite size_empty, !(right_id_L ∅ (∪)) in Hplan. simpl in Hplan.
  rewrite Hplan, Hplan1.
  rewrite (kw_matched_size h1 s kwargs tr1 Hcl1 Hin1 Htr1); try done.
  - rewrite Hnames. case_decide as Hm; [done|].
    unfold Compose_kw_report. rewrite decide_False by done.
    rewrite (ListArguments_composite h1 s), Htr1; [|unfold is_atomic, s;
      simpl; by rewrite Hh1]. simpl. by rewrite Hnames.
  - intros e n ->%list_elem_of_singleton Hn.
    assert (n = set_name nm n0) as -> by congruence. done.
  - by rewrite Hnames.
Qed.

(** X20.  Keyword [Compose] on a composite symbol binds by name.  On a
    closed heap, on a single-return symbol whose head is neither a variable
    nor atomic and whose reachable variables are leaves, with argument names
    that do not repeat, keys that do not repeat and are all names of
    [ListArguments()], and supplied symbols of the heap of one return each,
    the call returns.  Afterwards the head node carries the given name, and
    every input edge of a reachable node that pointed to a variable whose
    name is a key is the first head of the symbol supplied under that key;
    every other edge, every other field of a node, and every node that the
    symbol does not reach are as before. *)
Theorem Compose_kwargs_composite h s kwargs nm hd n0 args :
  closed h →
  heads_ s = [hd] → h !! source hd = Some n0 →
  node_is_variable n0 = false → node_is_atomic n0 = false →
  variables_are_leaves h s →
  Forall (λ kv, NumReturns kv.2 = 1) kwargs → NoDup kwargs.*1 →
  Forall (λ kv, heads_in h kv.2) kwargs →
  ListArguments h s = Some args → NoDup args →
  (∀ key, key ∈ kwargs.*1 → key ∈ args) →
  ∃ h2 : gmap nat Node,
    Compose_kwargs h s kwargs nm = (h2, Done) ∧
    (∀ p n, reachable h s p → h !! p = Some n →
       h2 !! p = Some (set_inputs (rebind (kw_target h kwargs) <$> inputs n)
                         (if decide (p = source hd) then set_name nm n
                          else n))) ∧
    (∀ r, ¬ reachable h s r → h2 !! r = h !! r).
Proof.
  intros Hcl Hs Hhd Hvar Hat Hleaf Hkw Hkeys Hlive Hargs Hnd Hsub.
  destruct s as [hs]. simpl in Hs. subst hs. set (s := mkSymbol [hd]) in *.
  assert (is_atomic h s = false) as Hat'.
  { unfold is_atomic, s. simpl. by rewrite Hhd. }
  rewrite (ListArguments_composite h s Hat') in Hargs.
  destruct (DFS_trace h s) as [tr|] eqn:Htr; [|done]. injection Hargs as <-.
  pose proof (Compose_kwargs_composite_spec h hd n0 kwargs nm tr
                Hcl Hhd Hvar Hat Hkw Hkeys Htr Hnd) as Hc.
  fold s in Hc. rewrite Hc.
  assert (known_keys kwargs (arg_names tr) = kwargs.*1) as ->.
  { unfold known_keys. clear -Hsub.
    induction (kwargs.*1) as [|k l IH]; [done|].
    rewrite filter_cons, decide_True by (apply Hsub; by left).
    f_equal. apply IH. intros key Hk. apply Hsub. by right. }
  rewrite length_fmap, decide_True by done.
  destruct (Compose_plan_done h hd n0 nm tr (kw_target h kwargs)
              Hcl Hhd Hleaf (λ e d, kw_target_live h kwargs e d Hlive) Htr)
    as (hf & Hrun & Hvis & Hoth).
  fold s in Hrun, Hvis, Hoth. rewrite Hrun. by exists hf.
Qed.

Lemma Compose_kwargs_composite_witness :
  let mul := mkOp "Mul" ["lhs"; "rhs"] ["output"] 1 in
  let h : gmap nat Node :=
    {[ 0 := mkNode None (Some mul) "f" [mkEntry 1 0; mkEntry 2 0; mkEntry 1 0];
       1 := mkNode None None "x" [];
       2 := mkNode None None "y" [];
       3 := mkNode None None "u" [] ]} in
  let s := mkSymbol [mkEntry 0 0] in
  let u := mkSymbol [mkEntry 3 0] in
  ∃ h2 : gmap nat Node,
    Compose_kwargs h s [("x"%string, u)] "g" = (h2, Done) ∧
    h2 !! 0 = Some (mkNode None (Some mul) "g"
                      [mkEntry 3 0; mkEntry 2 0; mkEntry 3 0]) ∧
    ListArguments h2 s = Some ["y"; "u"]%string.
Proof.
  intros mul h s u.
  destruct (Compose_kwargs_composite h s [("x"%string, u)] "g" (mkEntry 0 0)
              (mkNode None (Some mul) "f"
                 [mkEntry 1 0; mkEntry 2 0; mkEntry 1 0])
              ["y"; "x"]%string) as (h2 & Hc & Hvis & _).
  - apply closedb_closed. vm_compute. reflexivity.
  - reflexivity.
  - vm_compute. reflexivity.
  - reflexivity.
  - reflexivity.
  - apply variables_are_leavesb_spec. vm_compute. reflexivity.
  - repeat constructor.
  - repeat constructor. set_solver.
  - repeat constructor. apply heads_inb_heads_in. vm_compute. reflexivity.
  - vm_compute. reflexivity.
  - repeat constructor; set_solver.
  - intros key ->%list_elem_of_singleton. set_solver.
  - exists h2. split_and!; [exact Hc| |].
    + rewrite (Hvis 0 (mkNode None (Some mul) "f"
                         [mkEntry 1 0; mkEntry 2 0; mkEntry 1 0])).
      * vm_compute. reflexivity.
      * apply (reachable_head h s (mkEntry 0 0)). by left.
      * vm_compute. reflexivity.
    + vm_compute in Hc. injection Hc as <-. vm_compute. reflexivity.
Defined.

(** X21.  An unknown keyword on a composite symbol.  Under the conditions
    above but with a key that is not a name of [ListArguments()], keyword
    [Compose] fails with an unmatched-keyword report that names the first
    such key and carries [ListArguments()]; no input edge was rewritten: the
    heap is the one before the call with the head node renamed. *)
Theorem Compose_kwargs_composite_unmatched h s kwargs nm hd n0 args key :
  closed h →
  heads_ s = [hd] → h !! source hd = Some n0 →
  node_is_variable n0 = false → node_is_atomic n0 = false →
  Forall (λ kv, NumReturns kv.2 = 1) kwargs → NoDup kwargs.*1 →
  ListArguments h s = Some args → NoDup args →
  key ∈ kwargs.*1 → key ∉ args →
  ∃ key' pre post,
    kwargs.*1 = pre ++ key' :: post ∧ Forall (λ k, k ∈ args) pre ∧
    (key' ∉ args) ∧
    Compose_kwargs h s kwargs nm
      = (<[source hd := set_name nm n0]> h,
         Fail (UnmatchedKeyword "Symbol.Compose" key' args)).
Proof.
  intros Hcl Hs Hhd Hvar Hat Hkw Hkeys Hargs Hnd Hkey Hout.
  destruct s as [hs]. simpl in Hs. subst hs. set (s := mkSymbol [hd]) in *.
  assert (is_atomic h s = false) as Hat'.
  { unfold is_atomic, s. simpl. by rewrite Hhd. }
  rewrite (ListArguments_composite h s Hat') in Hargs.
  destruct (DFS_trace h s) as [tr|] eqn:Htr; [|done]. injection Hargs as <-.
  pose proof (Compose_kwargs_composite_spec h hd n0 kwargs nm tr
                Hcl Hhd Hvar Hat Hkw Hkeys Htr Hnd) as Hc.
  fold s in Hc. rewrite Hc. rewrite decide_False.
  - destruct (KeywordArgumentMismatch_first "Symbol.Compose" kwargs.*1
                (arg_names tr) key Hkey Hout)
      as (key' & pre & post & Heq & Hpre & Hk & ->).
    by exists key', pre, post.
  - pose proof (length_filter_lt (λ k, k ∈ arg_names tr) kwargs.*1 key
                  Hkey Hout) as Hlt.
    unfold known_keys. rewrite length_fmap in Hlt. lia.
Qed.

Lemma Compose_kwargs_composite_unmatched_witness :
  let mul := mkOp "Mul" ["lhs"; "rhs"] ["output"] 1 in
  let f := mkNode None (Some mul) "f" [mkEntry 1 0; mkEntry 2 0] in
  let h : gmap nat Node :=
    {[ 0 := f;
       1 := mkNode None None "x" [];
       2 := mkNode None None "y" [];
       3 := mkNode None None "u" [] ]} in
  let s := mkSymbol [mkEntry 0 0] in
  let u := mkSymbol [mkEntry 3 0] in
  ∃ key', Compose_kwargs h s [("x"%string, u); ("w"%string, u)] "g"
          = (<[0 := set_name "g" f]> h,
             Fail (UnmatchedKeyword "Symbol.Compose" key' ["x"; "y"])).
Proof.
  intros mul f h s u.
  destruct (Compose_kwargs_composite_unmatched h s
              [("x"%string, u); ("w"%string, u)] "g" (mkEntry 0 0) f
              ["x"; "y"]%string "w"%string)
    as (key' & _ & _ & _ & _ & _ & Hc).
  - apply closedb_closed. vm_compute. reflexivity.
  - reflexivity.
  - vm_compute. reflexivity.
  - reflexivity.
  - reflexivity.
  - repeat constructor.
  - repeat constructor; set_solver.
  - vm_compute. reflexivity.
  - repeat constructor; set_solver.
  - set_solver.
  - set_solver.
  - exists key'. exact Hc.
Defined.

(** ** Unmatched keywords *)

(** A key that is not a required name leaves [nmatched] below the number of
    keys. *)
Lemma matched_slots_unmatched (kwargs : list (string * Symbol)) reqs key :
  NoDup reqs → key ∈ kwargs.*1 → key ∉ reqs →
  matched_slots kwargs reqs < length kwargs.
Proof.
  intros Hreqs Hkey Hout. unfold matched_slots.
  set (l := filter (λ req, is_Some (kwargs_find kwargs req)) reqs).
  assert (key :: l ⊆+ kwargs.*1) as Hsub.
  { apply NoDup_submseteq.
    - constructor; [|by apply NoDup_filter].
      by intros [_ ?]%list_elem_of_filter.
    - intros x [->|[[a Ha] _]%list_elem_of_filter]%elem_of_cons; [done|].
      apply kwargs_find_Some in Ha. apply list_elem_of_fmap.
      by exists (x, a). }
  apply submseteq_length in Hsub. rewrite length_fmap in Hsub. simpl in Hsub.
  lia.
Qed.

(** The atomic branch of keyword [Compose] when a key is not a required
    name: the inputs are cleared and the mismatch is reported against the
    operator's argument list. *)
Lemma Compose_kwargs_atomic_unmatched h hd n0 o kwargs nm key :
  h !! source hd = Some n0 →
  op n0 = Some o → inputs n0 = [] →
  Forall (λ kv, NumReturns kv.2 = 1) kwargs →
  NoDup (op_ListArguments o) →
  key ∈ kwargs.*1 → key ∉ op_ListArguments o →
  ∃ h' : gmap nat Node,
    Compose_kwargs h (mkSymbol [hd]) kwargs nm
      = (h', KeywordArgumentMismatch "Symbol.Compose" kwargs.*1
               (op_ListArguments o)) ∧
    ListArguments h' (mkSymbol [hd]) = Some (op_ListArguments o).
Proof.
  intros Hhd Hop Hin Hkw Hreqs Hkey Hout.
  assert (node_is_variable n0 = false) as Hvar.
  { unfold node_is_variable. by rewrite Hop. }
  unfold Compose_kwargs. simpl. rewrite Hhd, Hvar.
  rewrite find_tuple_kwarg_none by done.
  set (h1 := <[source hd := set_name nm n0]> h).
  assert (h1 !! source hd = Some (set_name nm n0)) as Hh1
    by apply lookup_insert_eq.
  rewrite (is_atomic_single h1 hd _ Hh1).
  assert (node_is_atomic (set_name nm n0) = true) as ->.
  { unfold node_is_atomic. simpl. by rewrite Hin, Hop. }
  rewrite Hop.
  destruct (Compose_atomic_slots_total kwargs nm (op_ListArguments o) h1 [] 0
              Hkw) as [[[h2 ins] k] Hfold].
  rewrite Hfold.
  apply Compose_atomic_slots_spec in Hfold
    as (Hsub & _ & -> & _).
  pose proof (matched_slots_unmatched kwargs _ key Hreqs Hkey Hout) as Hlt.
  simpl. rewrite decide_False by lia.
  set (h3 := alter (set_inputs []) (source hd) h2).
  assert (h3 !! source hd = Some (set_inputs [] (set_name nm n0))) as Hh3.
  { unfold h3. by rewrite lookup_alter_eq, (lookup_weaken _ _ _ _ Hh1 Hsub). }
  assert (ListArguments h3 (mkSymbol [hd]) = Some (op_ListArguments o))
    as Hlist.
  { unfold ListArguments. rewrite (is_atomic_single h3 hd _ Hh3).
    unfold node_is_atomic. simpl. rewrite Hop. simpl. rewrite Hh3. simpl.
    by rewrite Hop. }
  exists h3. split; [|done].
  unfold Compose_kw_report. rewrite decide_False by lia. by rewrite Hlist.
Qed.

(** C4 (amended).  On a closed heap, on a single-return symbol whose head is
    not a variable and whose candidate argument names ([ListArguments()]) do
    not repeat, with keys that do not repeat and supplied symbols of one
    return each: when some supplied key is not a candidate, keyword
    [Compose] fails with an unmatched-keyword report.  The report names one
    key, the first supplied key (in the enumeration order of the keyword
    map) that is not a candidate, and carries the full candidate list, which
    is also [ListArguments()] of the symbol as the call leaves it. *)
Theorem Compose_kwargs_unmatched_report h s kwargs nm hd n0 cands key :
  closed h →
  heads_ s = [hd] → h !! source hd = Some n0 →
  node_is_variable n0 = false →
  Forall (λ kv, NumReturns kv.2 = 1) kwargs → NoDup kwargs.*1 →
  ListArguments h s = Some cands → NoDup cands →
  key ∈ kwargs.*1 → key ∉ cands →
  ∃ key' pre post (h' : gmap nat Node),
    kwargs.*1 = pre ++ key' :: post ∧ Forall (λ k, k ∈ cands) pre ∧
    (key' ∉ cands) ∧
    Compose_kwargs h s kwargs nm
      = (h', Fail (UnmatchedKeyword "Symbol.Compose" key' cands)) ∧
    ListArguments h' s = Some cands ∧
    reported_keys (Compose_kwargs h s kwargs nm).2 = [key'] ∧
    reported_candidates (Compose_kwargs h s kwargs nm).2 = cands.
Proof.
  intros Hcl Hs Hhd Hvar Hkw Hkeys Hargs Hnd Hkey Hout.
  destruct s as [hs]. simpl in Hs. subst hs. set (s := mkSymbol [hd]) in *.
  destruct (KeywordArgumentMismatch_first "Symbol.Compose" kwargs.*1
              cands key Hkey Hout)
    as (key' & pre & post & Heq & Hpre & Hk & Hreport).
  cut (∃ h' : gmap nat Node,
         Compose_kwargs h s kwargs nm
           = (h', KeywordArgumentMismatch "Symbol.Compose" kwargs.*1 cands) ∧
         ListArguments h' s = Some cands).
  { intros (h' & Hc & Hl). exists key', pre, post, h'.
    rewrite Hc, Hreport. by split_and!. }
  destruct (node_is_atomic n0) eqn:Hat.
  - unfold ListArguments in Hargs.
    pose proof (is_atomic_single h hd _ Hhd) as Ha. fold s in Ha.
    rewrite Ha, Hat in Hargs. simpl in Hargs.
    rewrite Hhd in Hargs. simpl in Hargs.
    destruct (op n0) as [o|] eqn:Hop; [|done]. injection Hargs as <-.
    apply (Compose_kwargs_atomic_unmatched h hd n0 o kwargs nm key);
      try done.
    by apply node_is_atomic_inputs.
  - assert (heads_in h s) as Hin.
    { intros e ->%list_elem_of_singleton. by eexists. }
    assert (is_atomic h s = false) as Hat'.
    { unfold is_atomic, s. simpl. by rewrite Hhd. }
    rewrite (ListArguments_composite h s Hat') in Hargs.
    destruct (DFS_trace h s) as [tr|] eqn:Htr; [|done].
    injection Hargs as <-.
    pose proof (Compose_kwargs_composite_spec h hd n0 kwargs nm tr
                  Hcl Hhd Hvar Hat Hkw Hkeys Htr Hnd) as Hc.
    fold s in Hc. rewrite Hc. rewrite decide_False.
    + eexists. split; [done|].
      set (h1 := <[source hd := set_name nm n0]> h).
      assert (h1 !! source hd = Some (set_name nm n0)) as Hh1
        by apply lookup_insert_eq.
      rewrite (ListArguments_composite h1 s)
        by (unfold is_atomic, s; simpl; by rewrite Hh1).
      unfold h1.
      rewrite (DFS_trace_rename_head h s (source hd) n0 nm tr Hcl Hin Hhd Htr).
      simpl. f_equal. apply arg_names_rename_head. intros n Hn.
      pose proof (DFS_trace_lookup _ _ _ _ _ Htr Hn). congruence.
    + pose proof (length_filter_lt (λ k, k ∈ arg_names tr) kwargs.*1 key
                    Hkey Hout) as Hlt.
      unfold known_keys. rewrite length_fmap in Hlt. lia.
Qed.

Lemma Compose_kwargs_unmatched_report_witness :
  let fc := mkOp "FullyConnected" ["data"; "weight"] ["output"] 1 in
  let h0 := (Create ∅ fc).1 in
  let s := (Create ∅ fc).2 in
  let h1 := (CreateVariable h0 "y").1 in
  let y := (CreateVariable h0 "y").2 in
  ∃ h', Compose_kwargs h1 s [("alpha", y); ("beta", y)] "fc"
        = (h', Fail (UnmatchedKeyword "Symbol.Compose" "alpha"
                       ["data"; "weight"])) ∧
    ListArguments h' s = Some ["data"; "weight"] ∧
    reported_keys (Compose_kwargs h1 s [("alpha", y); ("beta", y)] "fc").2
      = ["alpha"].
Proof.
  intros fc h0 s h1 y.
  destruct (Compose_kwargs_unmatched_report h1 s
              [("alpha", y); ("beta", y)] "fc" (mkEntry 0 0)
              (mkNode None (Some fc) EmptyString [])
              ["data"; "weight"] "beta")
    as (key' & pre & post & h' & Heq & Hpre & Hk & Hc & Hl & Hrep & _).
  - apply closedb_closed. vm_compute. reflexivity.
  - reflexivity.
  - vm_compute. reflexivity.
  - reflexivity.
  - repeat constructor.
  - repeat constructor; set_solver.
  - vm_compute. reflexivity.
  - repeat constructor; set_solver.
  - set_solver.
  - set_solver.
  - assert (key' = "alpha"%string) as ->.
    { vm_compute in Hc. by injection Hc as _ <-. }
    exists h'. split_and!; [exact Hc|exact Hl|exact Hrep].
Defined.

(** ** Positional composition on a composite symbol *)

Lemma Compose_visit_flat h args tr st :
  run_visitor (Compose_visit h args) st tr
    = foldl (Compose_step h args) st (edges_of tr).
Proof.
  revert st. induction tr as [|[p n] tr IH]; intros st; [done|].
  unfold edges_of. rewrite bind_cons, foldl_app. simpl.
  rewrite IH. f_equal. unfold Compose_visit.
  assert (∀ k st, foldl (Compose_edge h args p) st
                    (imap (λ i e, (k + i, e)) (inputs n))
                  = foldl (Compose_step h args) st
                      (imap (λ i e, (p, k + i, e)) (inputs n))) as Hgen.
  { induction (inputs n) as [|e ins IHins]; intros k' st'; [done|].
    simpl. rewrite Nat.add_0_r.
    rewrite (imap_ext (_ ∘ S) (λ i e, (S k' + i, e)) ins)
      by (intros; simpl; f_equal; lia).
    rewrite (imap_ext (_ ∘ S) (λ i e, (p, S k' + i, e)) ins)
      by (intros; simpl; do 2 f_equal; lia).
    apply (IHins (S k')). }
  apply (Hgen 0).
Qed.

Lemma flat_plan_node (target : DataEntry → option DataEntry) p k ins :
  flat_plan target (imap (λ i e, (p, k + i, e)) ins) = node_plan target p k ins.
Proof.
  revert k. induction ins as [|e ins IH]; intros k; [done|].
  unfold flat_plan. cbn [imap]. rewrite bind_cons. cbn [node_plan fst snd].
  rewrite Nat.add_0_r. f_equal.
  rewrite (imap_ext (_ ∘ S) (λ i e, (p, S k + i, e)) ins)
    by (intros; simpl; do 2 f_equal; lia).
  apply IH.
Qed.

Lemma flat_plan_edges (target : DataEntry → option DataEntry) tr :
  flat_plan target (edges_of tr)
    = tr ≫= λ pn, node_plan target pn.1 0 (inputs pn.2).
Proof.
  induction tr as [|[p n] tr IH]; [done|].
  unfold edges_of. rewrite !bind_cons. unfold flat_plan.
  rewrite bind_app. f_equal; [|exact IH].
  apply (flat_plan_node target p 0).
Qed.

Lemma flat_plan_ext (t1 t2 : DataEntry → option DataEntry) es :
  (∀ x, x ∈ es → t1 x.2 = t2 x.2) → flat_plan t1 es = flat_plan t2 es.
Proof.
  induction es as [|x es IH]; intros Hext; [done|].
  unfold flat_plan. rewrite !bind_cons. f_equal.
  - rewrite (Hext x) by (by left). done.
  - apply IH. intros y Hy. apply Hext. by right.
Qed.

Lemma rank_Some vars v k :
  rank vars v = Some k → vars !! k = Some v.
Proof.
  unfold rank. destruct (list_find _ vars) as [[i x]|] eqn:Hf; [|done].
  intros [= <-]. apply list_find_Some in Hf as (Hi & -> & _). done.
Qed.

Lemma rank_elem_of vars v :
  v ∈ vars → ∃ k, rank vars v = Some k ∧ k < length vars.
Proof.
  intros Hv. destruct (list_find_elem_of (λ x, x = v) vars v Hv eq_refl)
    as [[i x] Hf].
  exists i. unfold rank. rewrite Hf. split; [done|].
  apply list_find_Some in Hf as (Hi & _). by eapply lookup_lt_Some.
Qed.

Lemma rank_app_l vars more v :
  v ∈ vars → rank (vars ++ more) v = rank vars v.
Proof.
  intros Hv. destruct (list_find_elem_of (λ x, x = v) vars v Hv eq_refl)
    as [[i x] Hf].
  unfold rank. by rewrite (list_find_app_l _ _ more _ _ Hf), Hf.
Qed.

Lemma rank_snoc_new vars v :
  v ∉ vars → rank (vars ++ [v]) v = Some (length vars).
Proof.
  intros Hv. unfold rank. rewrite list_find_app_r.
  - simpl. by rewrite decide_True by done.
  - apply list_find_None. apply Forall_forall. by intros x Hx ->.
Qed.

Lemma var_sources_snoc h es x :
  var_sources h (es ++ [x])
    = var_sources h es
      ++ (if is_variable_at h (source x.2) then [source x.2] else []).
Proof.
  unfold var_sources. rewrite filter_app, fmap_app. f_equal.
  rewrite filter_cons, filter_nil.
  destruct (is_variable_at h (source x.2)); by simplify_option_eq.
Qed.

Lemma elem_of_var_sources h es x :
  x ∈ es → is_variable_at h (source x.2) = true →
  source x.2 ∈ var_sources h es.
Proof.
  intros Hx Hv. unfold var_sources. apply list_elem_of_fmap. exists x.
  split; [done|]. by apply list_elem_of_filter.
Qed.

Lemma elem_of_new_of_empty srcs v : v ∈ new_of srcs ∅ ↔ v ∈ srcs.
Proof.
  pose proof (new_of_marks srcs ∅) as Hm.
  rewrite !(right_id_L ∅ (∪)) in Hm.
  by rewrite <-(elem_of_list_to_set (C := gset nat)), Hm,
    elem_of_list_to_set.
Qed.

Lemma new_of_snoc srcs v :
  new_of (srcs ++ [v]) ∅
    = new_of srcs ∅ ++ (if decide (v ∈ srcs) then [] else [v]).
Proof.
  rewrite new_of_app. f_equal. simpl. rewrite (right_id_L ∅ (∪)).
  rewrite (decide_ext _ (v ∈ srcs)) by apply elem_of_list_to_set.
  by case_decide.
Qed.

(** Where the visitor of lines 253-273 stands after the edges [es].  The
    counter is at least the number of variables met; while there are no more
    variables than arguments it is that number, the map sends the variable
    at position [k] to the first head of argument [k], and the plan has one
    entry per edge to a variable. *)
Lemma Compose_fold_spec h args es c m plan :
  foldl (Compose_step h args) (0, ∅, []) es = (c, m, plan) →
  length (new_of (var_sources h es) ∅) ≤ c ∧
  (∀ v, is_Some (m !! v) → v ∈ new_of (var_sources h es) ∅) ∧
  (length (new_of (var_sources h es) ∅) ≤ length args →
     c = length (new_of (var_sources h es) ∅) ∧
     (∀ v, v ∈ new_of (var_sources h es) ∅ →
        m !! v = Some (rank (new_of (var_sources h es) ∅) v
                         ≫= arg_head args)) ∧
     ((∀ k, k < length args → is_Some (arg_head args k)) →
      plan = flat_plan (pos_target h args (new_of (var_sources h es) ∅)) es)).
Proof.
  revert c m plan.
  induction es as [|x es IH] using rev_ind; intros c m plan Hfold.
  - injection Hfold as <- <- <-. simpl. split_and!; [done| |].
    + intros v [? Hv]. by rewrite lookup_empty in Hv.
    + intros _. split_and!; [done| |done]. by intros v ?%elem_of_nil.
  - rewrite foldl_app in Hfold. simpl in Hfold.
    destruct (foldl (Compose_step h args) (0, ∅, []) es)
      as [[c0 m0] plan0] eqn:Hes.
    destruct (IH c0 m0 plan0 eq_refl) as (Hle & Hdom & Hok). clear IH.
    rewrite var_sources_snoc.
    destruct x as [[p i] e]. unfold Compose_step, Compose_edge in Hfold.
    simpl in Hfold. simpl.
    set (vars := new_of (var_sources h es) ∅) in *.
    destruct (is_variable_at h (source e)) eqn:Hvar.
    2:{ injection Hfold as <- <- <-. rewrite app_nil_r. fold vars.
        split_and!; [done..|]. intros Hlen.
        destruct (Hok Hlen) as (-> & Hmap & Hplan). split_and!; [done..|].
        intros Hheads. rewrite (Hplan Hheads).
        unfold flat_plan. rewrite bind_app. simpl.
        assert (pos_target h args vars e = None) as ->
          by (unfold pos_target; by rewrite Hvar).
        by rewrite !app_nil_r. }
    rewrite new_of_snoc. fold vars.
    assert (pos_target h args (vars ++ [source e]) e
            = (rank (vars ++ [source e]) (source e) ≫= arg_head args))
      as Htarget' by (unfold pos_target; by rewrite Hvar).
    assert (pos_target h args vars e = (rank vars (source e) ≫= arg_head args))
      as Htarget by (unfold pos_target; by rewrite Hvar).
    destruct (m0 !! source e) as [t|] eqn:Hm.
    + assert (source e ∈ vars) as Hin by (apply Hdom; by eexists).
      assert (source e ∈ var_sources h es) as Hin'
        by (by apply elem_of_new_of_empty).
      rewrite decide_True by done. rewrite app_nil_r.
      injection Hfold as <- <- <-. split_and!; [done..|]. intros Hlen.
      destruct (Hok Hlen) as (-> & Hmap & Hplan). split_and!; [done..|].
      intros Hheads. rewrite (Hplan Hheads).
      unfold flat_plan. rewrite bind_app. f_equal. simpl.
      rewrite app_nil_r, Htarget.
      rewrite (Hmap _ Hin) in Hm. injection Hm as <-.
      destruct (rank_elem_of vars (source e) Hin) as (k & -> & Hk). simpl.
      destruct (Hheads k) as [d ->]; [lia|]. done.
    + destruct (decide (source e ∈ var_sources h es)) as [Hin'|Hnew'].
      * assert (source e ∈ vars) as Hin by (by apply elem_of_new_of_empty).
        rewrite app_nil_r. split_and!.
        -- case_decide; injection Hfold as <- <- <-; lia.
        -- intros v Hv.
           case_decide; injection Hfold as <- <- <-; [|by apply Hdom].
           destruct (decide (v = source e)) as [->|Hne]; [done|].
           rewrite lookup_insert_ne in Hv by done. by apply Hdom.
        -- intros Hlen. destruct (Hok Hlen) as (_ & Hmap & _).
           rewrite (Hmap _ Hin) in Hm. done.
      * assert (source e ∉ vars) as Hnew
          by (unfold vars; by rewrite elem_of_new_of_empty).
        rewrite length_app. simpl. split_and!.
        -- case_decide; injection Hfold as <- <- <-; lia.
        -- intros v Hv. rewrite elem_of_app, list_elem_of_singleton.
           case_decide; injection Hfold as <- <- <-; [|left; by apply Hdom].
           destruct (decide (v = source e)) as [->|Hne]; [by right|].
           rewrite lookup_insert_ne in Hv by done. left. by apply Hdom.
        -- intros Hlen.
           destruct Hok as (-> & Hmap & Hplan); [lia|].
           rewrite decide_True in Hfold by lia.
           injection Hfold as <- <- <-. split_and!; [lia| |].
           ++ intros v [Hv| ->%list_elem_of_singleton]%elem_of_app.
              ** rewrite lookup_insert_ne by (by intros <-).
                 rewrite rank_app_l by done. by apply Hmap.
              ** rewrite lookup_insert_eq, rank_snoc_new by done. done.
           ++ intros Hheads. rewrite (Hplan Hheads).
              unfold flat_plan at 2. rewrite bind_app. simpl.
              rewrite app_nil_r, Htarget', rank_snoc_new by done. simpl.
              destruct (Hheads (length vars)) as [d Hd]; [lia|].
              rewrite Hd. f_equal. apply flat_plan_ext.
              intros [[p' i'] e'] Hx. simpl. unfold pos_target.
              destruct (is_variable_at h (source e')) eqn:Hv'; [|done].
              rewrite rank_app_l; [done|]. apply elem_of_new_of_empty.
              by apply (elem_of_var_sources h es (p', i', e')).
Qed.

Lemma edges_of_rename_head tr hd nm :
  edges_of ((λ pn, (pn.1, if decide (pn.1 = hd) then set_name nm pn.2
                          else pn.2)) <$> tr) = edges_of tr.
Proof.
  induction tr as [|[p n] tr IH]; [done|].
  unfold edges_of. rewrite fmap_cons, !bind_cons. f_equal; [|exact IH].
  simpl. by case_decide.
Qed.

Lemma Compose_step_rename h p0 n0 nm args es st :
  h !! p0 = Some n0 →
  foldl (Compose_step (<[p0 := set_name nm n0]> h) args) st es
    = foldl (Compose_step h args) st es.
Proof.
  intros Hp0. revert st. induction es as [|x es IH]; intros st; [done|].
  simpl. rewrite IH. f_equal. unfold Compose_step, Compose_edge.
  by rewrite (rename_variable h p0 n0 nm Hp0).
Qed.

Lemma elem_of_edges_of tr p i e :
  (p, i, e) ∈ edges_of tr ↔ ∃ n, (p, n) ∈ tr ∧ inputs n !! i = Some e.
Proof.
  unfold edges_of. rewrite list_elem_of_bind. split.
  - intros ([q n] & Hx & Hq). simpl in Hx.
    apply elem_of_lookup_imap in Hx as (j & e' & [= -> -> ->] & Hj).
    by exists n.
  - intros (n & Hn & Hi). exists (p, n). split; [|done]. simpl.
    by apply (elem_of_lookup_imap_2 (λ i e, (p, i, e))).
Qed.

(** The variables that the positional composition meets are the variables
    that the traversal visits, when no head is a variable. *)
Lemma elem_of_pos_vars h s tr v :
  closed h → heads_in h s → DFS_trace h s = Some tr →
  (∀ e n, e ∈ heads_ s → h !! source e = Some n →
     node_is_variable n = false) →
  v ∈ pos_vars h tr ↔ ∃ m, (v, m) ∈ tr ∧ node_is_variable m = true.
Proof.
  intros Hcl Hin Htr Hheads. unfold pos_vars.
  rewrite elem_of_new_of_empty. unfold var_sources.
  rewrite list_elem_of_fmap. split.
  - intros ([[p i] e] & -> & [Hv Hx]%list_elem_of_filter). simpl in *.
    apply elem_of_edges_of in Hx as (n & Hn & Hi).
    unfold is_variable_at in Hv.
    destruct (h !! source e) as [m|] eqn:Hm; [|done].
    exists m. split; [|done].
    assert (source e ∈ tr.*1) as Hvis.
    { eapply DFS_trace_reachable; [done..|].
      eapply reachable_input; [|by eapply DFS_trace_lookup|
        by eapply list_elem_of_lookup_2].
      eapply DFS_trace_sound; [done|].
      apply list_elem_of_fmap. by exists (p, n). }
    apply list_elem_of_fmap in Hvis as ([q k] & Hq & Hvis). simpl in Hq.
    subst q. pose proof (DFS_trace_lookup _ _ _ _ _ Htr Hvis). congruence.
  - intros (m & Hvm & Hvar).
    pose proof (DFS_trace_lookup _ _ _ _ _ Htr Hvm) as Hm.
    assert (reachable h s v) as Hreach.
    { eapply DFS_trace_sound; [done|]. apply list_elem_of_fmap.
      by exists (v, m). }
    destruct Hreach as [e He|p n e Hp Hn He].
    { rewrite (Hheads e m He Hm) in Hvar. done. }
    apply list_elem_of_lookup in He as [i Hi].
    exists (p, i, e). split; [done|]. apply list_elem_of_filter. simpl.
    split; [unfold is_variable_at; by rewrite Hm|].
    apply elem_of_edges_of. exists n. split; [|done].
    assert (p ∈ tr.*1) as Hvis by (by eapply DFS_trace_reachable).
    apply list_elem_of_fmap in Hvis as ([q k] & Hq & Hvis). simpl in Hq.
    subst q. pose proof (DFS_trace_lookup _ _ _ _ _ Htr Hvis). congruence.
Qed.

(** The positional composition meets as many variables as
    [ListArguments()] lists names. *)
Lemma pos_vars_length h s tr :
  closed h → heads_in h s → DFS_trace h s = Some tr →
  (∀ e n, e ∈ heads_ s → h !! source e = Some n →
     node_is_variable n = false) →
  length (pos_vars h tr) = length (arg_names tr).
Proof.
  intros Hcl Hin Htr Hheads. unfold arg_names.
  rewrite length_fmap,
    <-(length_fmap fst (filter (λ pn, node_is_variable pn.2 = true) tr)).
  apply Permutation_length, NoDup_Permutation.
  - apply new_of_NoDup.
  - eapply sublist_NoDup; [exact (DFS_trace_NoDup h s tr Hcl Hin Htr)|].
    apply fmap_sublist, sublist_filter.
  - intros v. rewrite (elem_of_pos_vars h s tr v Hcl Hin Htr Hheads).
    rewrite list_elem_of_fmap. split.
    + intros (m & Hvm & Hvar). exists (v, m). split; [done|].
      by apply list_elem_of_filter.
    + intros ([q m] & -> & [Hvar Hvm]%list_elem_of_filter). by exists m.
Qed.

(** Positional [Compose] on a composite symbol, as a run of the visitor
    over the edges of the traversal. *)
Lemma Compose_composite_unfold h hd n0 args nm tr :
  closed h →
  h !! source hd = Some n0 →
  node_is_variable n0 = false → node_is_atomic n0 = false →
  Forall (λ a, NumReturns a ≠ 1) args →
  DFS_trace h (mkSymbol [hd]) = Some tr →
  Compose h (mkSymbol [hd]) args nm
    = let h1 := <[source hd := set_name nm n0]> h in
      let '(arg_counter, _, replace_plan) :=
        foldl (Compose_step h args) (0, ∅, []) (edges_of tr) in
      if decide (length args = arg_counter) then
        match run_plan h1 (mkSymbol [hd]) replace_plan with
        | None => (h1, Undefined)
        | Some h2 => (h2, Done)
        end
      else (h1, Fail (ArityMismatch arg_counter (length args))).
Proof.
  intros Hcl Hhd Hvar Hat Hargs Htr.
  set (s := mkSymbol [hd]) in *.
  assert (heads_in h s) as Hin.
  { intros e ->%list_elem_of_singleton. by eexists. }
  pose proof (DFS_trace_rename_head h s (source hd) n0 nm tr Hcl Hin Hhd Htr)
    as Htr1.
  unfold Compose. simpl. rewrite Hhd, Hvar.
  set (h1 := <[source hd := set_name nm n0]> h) in *.
  assert (list_find (λ a, NumReturns a = 1) args = None) as ->
    by (by apply list_find_None).
  assert (is_atomic h1 s = false) as ->.
  { unfold is_atomic, s, h1. simpl. by rewrite lookup_insert_eq. }
  rewrite DFSVisit_trace, Htr1. simpl.
  rewrite Compose_visit_flat, edges_of_rename_head.
  unfold h1 at 1. by rewrite (Compose_step_rename h _ n0 nm args _ _ Hhd).
Qed.





Lemma arg_head_is_Some args k :
  Forall (λ a, 2 ≤ NumReturns a) args → k < length args →
  is_Some (arg_head args k).
Proof.
  intros Hargs Hk. unfold arg_head.
  destruct (lookup_lt_is_Some_2 args k Hk) as [a Ha]. rewrite Ha. simpl.
  rewrite Forall_forall in Hargs.
  pose proof (Hargs a (list_elem_of_lookup_2 _ _ _ Ha)) as Hret.
  apply lookup_lt_is_Some_2. unfold NumReturns in Hret. lia.
Qed.

Lemma pos_target_live h args vars e d :
  Forall (λ a, heads_in h a) args →
  pos_target h args vars e = Some d →
  is_variable_at h (source e) = true ∧ is_Some (h !! source d).
Proof.
  intros Hlive. unfold pos_target.
  destruct (is_variable_at h (source e)); [|done].
  destruct (rank vars (source e)) as [k|]; [|done]. simpl.
  unfold arg_head. destruct (args !! k) as [a|] eqn:Ha; [|done]. simpl.
  intros Hd. split; [done|]. rewrite Forall_forall in Hlive.
  apply (Hlive a); [by eapply list_elem_of_lookup_2|].
  by eapply list_elem_of_lookup_2.
Qed.

(** X22.  Positional [Compose] on a composite symbol binds by the order in
    which the traversal meets the variables on the input edges.  On a closed
    heap, on a single-return symbol whose head is neither a variable nor
    atomic and whose reachable variables are leaves, with as many arguments
    as [ListArguments()] lists names and arguments that are symbols of the
    heap of two or more returns each (the loop of lines 231-234 rejects an
    argument of one return), the call returns.  Afterwards the head node
    carries the given name, and every input edge of a reachable node that
    pointed to a variable is the first head of the argument whose position
    is the position of that variable among the variables met, node by node
    in the order of the traversal and input by input within a node; every
    other edge, every other field of a node, and every node that the symbol
    does not reach are as before. *)
Theorem Compose_positional_composite h s args nm hd n0 tr names :
  closed h →
  heads_ s = [hd] → h !! source hd = Some n0 →
  node_is_variable n0 = false → node_is_atomic n0 = false →
  variables_are_leaves h s →
  Forall (λ a, 2 ≤ NumReturns a) args →
  Forall (λ a, heads_in h a) args →
  DFS_trace h s = Some tr → ListArguments h s = Some names →
  length args = length names →
  ∃ h2 : gmap nat Node,
    Compose h s args nm = (h2, Done) ∧
    (∀ p n, reachable h s p → h !! p = Some n →
       h2 !! p
       = Some (set_inputs
                 (rebind (pos_target h args (pos_vars h tr)) <$> inputs n)
                 (if decide (p = source hd) then set_name nm n else n))) ∧
    (∀ r, ¬ reachable h s r → h2 !! r = h !! r).
Proof.
  intros Hcl Hs Hhd Hvar Hat Hleaf Hargs Hlive Htr Hnames Hlen.
  destruct s as [hs]. simpl in Hs. subst hs. set (s := mkSymbol [hd]) in *.
  assert (heads_in h s) as Hin.
  { intros e ->%list_elem_of_singleton. by eexists. }
  assert (is_atomic h s = false) as Hat'.
  { unfold is_atomic, s. simpl. by rewrite Hhd. }
  rewrite (ListArguments_composite h s Hat'), Htr in Hnames.
  injection Hnames as <-.
  assert (length (pos_vars h tr) = length args) as Hvars.
  { rewrite Hlen. apply (pos_vars_length h s tr Hcl Hin Htr).
    intros e n ->%list_elem_of_singleton Hn. congruence. }
  assert (Forall (λ a, NumReturns a ≠ 1) args) as Hne.
  { eapply Forall_impl; [exact Hargs|]. simpl. lia. }
  pose proof (Compose_composite_unfold h hd n0 args nm tr
                Hcl Hhd Hvar Hat Hne Htr) as Hc.
  fold s in Hc. rewrite Hc. clear Hc.
  cbv zeta.
  destruct (foldl (Compose_step h args) (0, ∅, []) (edges_of tr))
    as [[c m] plan] eqn:Hfold.
  destruct (Compose_fold_spec h args _ c m plan Hfold) as (_ & _ & Hok).
  fold (pos_vars h tr) in Hok.
  destruct Hok as (-> & _ & Hplan); [lia|].
  rewrite Hplan by (intros k Hk; by apply arg_head_is_Some).
  rewrite decide_True by done. rewrite flat_plan_edges.
  destruct (Compose_plan_done h hd n0 nm tr
              (pos_target h args (pos_vars h tr)) Hcl Hhd Hleaf
              (λ e d, pos_target_live h args _ e d Hlive) Htr)
    as (hf & Hrun & Hvis & Hoth).
  fold s in Hrun, Hvis, Hoth. rewrite Hrun. by exists hf.
Qed.

Lemma Compose_positional_composite_witness :
  let mul := mkOp "Mul" ["lhs"; "rhs"] ["output"] 1 in
  let neg := mkOp "Neg" ["data"] ["output"] 1 in
  let split := mkOp "Split" ["data"] ["left"; "right"] 2 in
  let h : gmap nat Node :=
    {[ 0 := mkNode None (Some mul) "f" [mkEntry 1 0; mkEntry 2 0];
       1 := mkNode None (Some neg) "g" [mkEntry 3 0];
       2 := mkNode None None "x" [];
       3 := mkNode None None "y" [];
       4 := mkNode None (Some split) "a" [];
       5 := mkNode None (Some split) "b" [] ]} in
  let s := mkSymbol [mkEntry 0 0] in
  let a := mkSymbol [mkEntry 4 0; mkEntry 4 1] in
  let b := mkSymbol [mkEntry 5 0; mkEntry 5 1] in
  ListArguments h s = Some ["y"; "x"]%string ∧
  ∃ h2 : gmap nat Node,
    Compose h s [a; b] "c" = (h2, Done) ∧
    h2 !! 0 = Some (mkNode None (Some mul) "c" [mkEntry 1 0; mkEntry 4 0]) ∧
    h2 !! 1 = Some (mkNode None (Some neg) "g" [mkEntry 5 0]).
Proof.
  intros mul neg split h s a b.
  split; [vm_compute; reflexivity|].
  destruct (Compose_positional_composite h s [a; b] "c" (mkEntry 0 0)
              (mkNode None (Some mul) "f" [mkEntry 1 0; mkEntry 2 0])
              [(0, mkNode None (Some mul) "f" [mkEntry 1 0; mkEntry 2 0]);
               (1, mkNode None (Some neg) "g" [mkEntry 3 0]);
               (3, mkNode None None "y" []);
               (2, mkNode None None "x" [])]
              ["y"; "x"]%string) as (h2 & Hc & Hvis & _).
  - apply closedb_closed. vm_compute. reflexivity.
  - reflexivity.
  - vm_compute. reflexivity.
  - reflexivity.
  - reflexivity.
  - apply variables_are_leavesb_spec. vm_compute. reflexivity.
  - repeat constructor.
  - repeat constructor; apply heads_inb_heads_in; vm_compute; reflexivity.
  - vm_compute. reflexivity.
  - vm_compute. reflexivity.
  - reflexivity.
  - exists h2. split_and!; [exact Hc| |].
    + rewrite (Hvis 0 (mkNode None (Some mul) "f"
                         [mkEntry 1 0; mkEntry 2 0])).
      * vm_compute. reflexivity.
      * apply (reachable_head h s (mkEntry 0 0)). by left.
      * vm_compute. reflexivity.
    + rewrite (Hvis 1 (mkNode None (Some neg) "g" [mkEntry 3 0])).
      * vm_compute. reflexivity.
      * apply (reachable_input h s 0
                 (mkNode None (Some mul) "f" [mkEntry 1 0; mkEntry 2 0])
                 (mkEntry 1 0)).
        -- apply (reachable_head h s (mkEntry 0 0)). by left.
        -- vm_compute. reflexivity.
        -- by left.
      * vm_compute. reflexivity.
Defined.



(** ** Positional composition on an atomic symbol *)

Lemma first_heads_total args :
  Forall (λ a, 2 ≤ NumReturns a) args →
  ∃ ins, mapM (λ a, heads_ a !! 0) args = Some ins ∧
    Forall2 (λ a d, heads_ a !! 0 = Some d) args ins.
Proof.
  induction 1 as [|a args Ha _ (ins & Hins & Hall)].
  - exists []. by split; [|constructor].
  - destruct (lookup_lt_is_Some_2 (heads_ a) 0) as [d Hd];
      [unfold NumReturns in Ha; lia|].
    exists (d :: ins). split; [|by constructor].
    cbn [mapM]. rewrite Hd. simpl. by rewrite Hins.
Qed.

(** X24.  Positional [Compose] on an atomic symbol checks the number of
    arguments against the operator's own argument list.  On a symbol whose
    one head is an operator node without inputs, with arguments of two or
    more returns each (the loop of lines 231-234 rejects an argument of one
    return): if there are as many arguments as the operator lists, the call
    returns, and the head node carries the given name and has the first
    heads of the arguments, in their order, as its inputs; otherwise the
    call fails with an arity report that gives the operator's number of
    arguments as required, and the head node is renamed all the same.  No
    other node changes in either case. *)
Theorem Compose_positional_atomic h s args nm hd n0 o :
  heads_ s = [hd] → h !! source hd = Some n0 →
  op n0 = Some o → inputs n0 = [] →
  Forall (λ a, 2 ≤ NumReturns a) args →
  (length args = length (op_ListArguments o) →
   ∃ ins, Forall2 (λ a d, heads_ a !! 0 = Some d) args ins ∧
     Compose h s args nm
       = (<[source hd := mkNode (backward_source_node n0) (Some o) nm ins]> h,
          Done)) ∧
  (length args ≠ length (op_ListArguments o) →
   Compose h s args nm
     = (<[source hd := set_name nm n0]> h,
        Fail (ArityMismatch (length (op_ListArguments o)) (length args)))).
Proof.
  intros Hs Hhd Hop Hin Hargs.
  destruct s as [hs]. simpl in Hs. subst hs.
  assert (node_is_variable n0 = false) as Hvar.
  { unfold node_is_variable. rewrite Hop. done. }
  assert (list_find (λ a, NumReturns a = 1) args = None) as Hfind.
  { apply list_find_None. eapply Forall_impl; [exact Hargs|]. simpl. lia. }
  assert (is_atomic (<[source hd := set_name nm n0]> h) (mkSymbol [hd])
          = true) as Hat.
  { unfold is_atomic. simpl. rewrite lookup_insert_eq.
    unfold node_is_atomic. simpl. by rewrite Hin, Hop. }
  unfold Compose. simpl. rewrite Hhd, Hvar, Hfind, Hat, Hop. split.
  - intros Hlen. rewrite decide_True by done.
    destruct (first_heads_total args Hargs) as (ins & -> & Hall).
    exists ins. split; [done|]. f_equal.
    rewrite alter_insert_eq. unfold set_inputs, set_name. simpl.
    by rewrite Hop.
  - intros Hlen. by rewrite decide_False by done.
Qed.

Lemma Compose_positional_atomic_witness :
  let mul := mkOp "Mul" ["lhs"; "rhs"] ["output"] 1 in
  let split := mkOp "Split" ["data"] ["left"; "right"] 2 in
  let h : gmap nat Node :=
    {[ 0 := mkNode None (Some mul) "f" [];
       1 := mkNode None (Some split) "a" [];
       2 := mkNode None (Some split) "b" [] ]} in
  let s := mkSymbol [mkEntry 0 0] in
  let a := mkSymbol [mkEntry 1 0; mkEntry 1 1] in
  let b := mkSymbol [mkEntry 2 0; mkEntry 2 1] in
  Compose h s [a; b] "g"
    = (<[0 := mkNode None (Some mul) "g" [mkEntry 1 0; mkEntry 2 0]]> h, Done)
  ∧ Compose h s [a] "g"
    = (<[0 := mkNode None (Some mul) "g" []]> h, Fail (ArityMismatch 2 1)).
Proof.
  intros mul split h s a b. split.
  - destruct (Compose_positional_atomic h s [a; b] "g" (mkEntry 0 0)
                (mkNode None (Some mul) "f" []) mul) as [Hok _];
      [reflexivity|vm_compute; reflexivity|reflexivity|reflexivity| |].
    + repeat constructor.
    + destruct (Hok eq_refl) as (ins & Hall & ->).
      apply Forall2_cons_inv_l in Hall as (d1 & ins1 & [= <-] & Hall & ->).
      apply Forall2_cons_inv_l in Hall as (d2 & ins2 & [= <-] & Hall & ->).
      apply Forall2_nil_inv_l in Hall as ->. reflexivity.
  - destruct (Compose_positional_atomic h s [a] "g" (mkEntry 0 0)
                (mkNode None (Some mul) "f" []) mul) as [_ Hfail];
      [reflexivity|vm_compute; reflexivity|reflexivity|reflexivity| |].
    + repeat constructor.
    + rewrite Hfail by (simpl; lia). reflexivity.
Defined.

(** ** [operator()] *)

Lemma KeywordArgumentMismatch_defined src user_args args :
  KeywordArgumentMismatch src user_args args ≠ Undefined.
Proof. unfold KeywordArgumentMismatch. by case_match. Qed.

(** Positional [Compose] with arguments that are symbols of the heap and
    have a head, on a closed heap where the variables are leaves, returns or
    fails a check. *)
Lemma Compose_defined h s args nm :
  closed h → heads_in h s → variables_are_leaves h s →
  Forall (λ a, heads_in h a ∧ heads_ a ≠ []) args →
  (Compose h s args nm).2 ≠ Undefined.
Proof.
  intros Hcl Hin Hleaf Hargs.
  destruct (decide (NumReturns s = 1)) as [Hone|Hone];
    [|unfold Compose; by rewrite decide_False].
  destruct s as [[|hd [|]]]; try done. set (s := mkSymbol [hd]) in *.
  destruct (Hin hd) as [n0 Hhd]; [by left|].
  destruct (node_is_variable n0) eqn:Hvar.
  { unfold Compose. simpl. by rewrite Hhd, Hvar. }
  destruct (list_find (λ a, NumReturns a = 1) args) as [[i a]|] eqn:Hfind.
  { unfold Compose. simpl. by rewrite Hhd, Hvar, Hfind. }
  apply list_find_None in Hfind.
  assert (Forall (λ a, 2 ≤ NumReturns a) args) as Htwo.
  { apply Forall_forall. intros a Ha. rewrite Forall_forall in Hfind, Hargs.
    specialize (Hfind a Ha). destruct (Hargs a Ha) as [_ Hne].
    unfold NumReturns in *. destruct (heads_ a) as [|? [|]]; simpl in *;
      (done || lia). }
  destruct (node_is_atomic n0) eqn:Hat.
  - unfold Compose. simpl. rewrite Hhd, Hvar.
    rewrite (proj2 (list_find_None _ _) Hfind).
    rewrite (is_atomic_single _ hd (set_name nm n0))
      by apply lookup_insert_eq.
    change (node_is_atomic (set_name nm n0)) with (node_is_atomic n0).
    rewrite Hat. destruct (op n0) as [o|] eqn:Hop.
    + case_decide; [|done].
      destruct (first_heads_total args Htwo) as (ins & -> & _). done.
    + unfold node_is_atomic in Hat. rewrite Hop in Hat.
      by rewrite andb_false_r in Hat.
  - destruct (DFS_trace_total h s Hcl Hin) as [tr Htr].
    pose proof (Compose_composite_unfold h hd n0 args nm tr
                  Hcl Hhd Hvar Hat Hfind Htr) as Hc.
    fold s in Hc. rewrite Hc. clear Hc. cbv zeta.
    destruct (foldl (Compose_step h args) (0, ∅, []) (edges_of tr))
      as [[c m] plan] eqn:Hfold.
    case_decide as Hlen; [|done]. subst c.
    destruct (Compose_fold_spec h args _ _ m plan Hfold) as (Hle & _ & Hok).
    destruct (Hok Hle) as (_ & _ & Hplan).
    rewrite Hplan by (intros k Hk; by apply arg_head_is_Some).
    rewrite flat_plan_edges.
    destruct (Compose_plan_done h hd n0 nm tr
                (pos_target h args (new_of (var_sources h (edges_of tr)) ∅))
                Hcl Hhd Hleaf) as (hf & Hrun & _); [|done|].
    + intros e d. apply pos_target_live.
      eapply Forall_impl; [exact Hargs|]. by intros a [? _].
    + fold s in Hrun. by rewrite Hrun.
Qed.

(** Keyword [Compose] with supplied symbols of the heap, on a closed heap
    where the variables are leaves, returns or fails a check. *)
Lemma Compose_kwargs_defined h s kwargs nm :
  closed h → heads_in h s → variables_are_leaves h s →
  Forall (λ kv, heads_in h kv.2) kwargs →
  (Compose_kwargs h s kwargs nm).2 ≠ Undefined.
Proof.
  intros Hcl Hin Hleaf Hlive.
  destruct (decide (NumReturns s = 1)) as [Hone|Hone];
    [|unfold Compose_kwargs; by rewrite decide_False].
  destruct s as [[|hd [|]]]; try done. set (s := mkSymbol [hd]) in *.
  destruct (Hin hd) as [n0 Hhd]; [by left|].
  unfold Compose_kwargs. simpl. rewrite Hhd.
  destruct (node_is_variable n0) eqn:Hvar; [done|].
  destruct (List.find _ kwargs) as [[key a]|] eqn:Hfind; [done|].
  assert (Forall (λ kv : string * Symbol, NumReturns kv.2 = 1) kwargs)
    as Hkw.
  { apply find_none_all in Hfind. eapply Forall_impl; [exact Hfind|].
    simpl. intros kv Hkv. apply negb_false_iff in Hkv.
    by apply Nat.eqb_eq in Hkv. }
  set (h1 := <[source hd := set_name nm n0]> h).
  assert (h1 !! source hd = Some (set_name nm n0)) as Hh1
    by apply lookup_insert_eq.
  fold s. pose proof (is_atomic_single h1 hd _ Hh1) as Ha. fold s in Ha.
  rewrite Ha. clear Ha.
  change (node_is_atomic (set_name nm n0)) with (node_is_atomic n0).
  assert (same_edges h h1) as He by (by apply rename_same_edges).
  assert (closed h1) as Hcl1 by (by eapply same_edges_closed).
  assert (heads_in h1 s) as Hin1 by (by eapply same_edges_heads_in).
  destruct (node_is_atomic n0) eqn:Hat.
  - destruct (op n0) as [o|] eqn:Hop.
    2:{ unfold node_is_atomic in Hat. rewrite Hop in Hat.
        by rewrite andb_false_r in Hat. }
    destruct (Compose_atomic_slots_total kwargs nm (op_ListArguments o) h1
                [] 0 Hkw) as [[[h2 ins] k] Hfold].
    rewrite Hfold.
    apply Compose_atomic_slots_spec in Hfold as (Hsub & _ & _ & _).
    simpl. unfold Compose_kw_report.
    destruct (decide (k = length kwargs)) as [Hk|Hk]; [done|].
    set (h3 := alter (set_inputs []) (source hd) h2).
    assert (h3 !! source hd = Some (set_inputs [] (set_name nm n0))) as Hh3.
    { unfold h3.
      by rewrite lookup_alter_eq, (lookup_weaken _ _ _ _ Hh1 Hsub). }
    assert (ListArguments h3 s = Some (op_ListArguments o)) as ->.
    { unfold ListArguments.
      pose proof (is_atomic_single h3 hd _ Hh3) as Ha. fold s in Ha.
      rewrite Ha. unfold node_is_atomic. simpl. rewrite Hop. simpl.
      rewrite Hh3. simpl. by rewrite Hop. }
    apply KeywordArgumentMismatch_defined.
  - destruct (DFS_trace_total h1 s Hcl1 Hin1) as [tr1 Htr1].
    unfold FindDuplicateArgs. rewrite DFSVisit_trace, Htr1. simpl.
    destruct (run_visitor FindDuplicateArgs_visit (∅, 1) tr1)
      as [out max_dup].
    destruct (check_dup_args out max_dup); [done|].
    rewrite DFSVisit_trace, Htr1. simpl.
    pose proof (Compose_kw_trace_spec h1 kwargs Hkw tr1 ∅ []) as Hplan.
    rewrite size_empty, !(right_id_L ∅ (∪)) in Hplan. simpl in Hplan.
    rewrite Hplan. case_decide.
    + destruct (run_plan_trace h1 s (kw_target h1 kwargs) Hcl1 Hin1)
        with (tr := tr1) as (hf & -> & _); [| |done..].
      * by apply variables_are_leaves_rename.
      * intros e d. apply kw_target_live.
        eapply Forall_impl; [exact Hlive|]. simpl. intros kv Hkv.
        by eapply same_edges_heads_in.
    + unfold Compose_kw_report. rewrite decide_False by done.
      rewrite (ListArguments_composite h1 s), Htr1
        by (pose proof (is_atomic_single h1 hd _ Hh1) as Ha; fold s in Ha;
            by rewrite Ha). simpl.
      apply KeywordArgumentMismatch_defined.
Qed.

(** A copy has a variable with inputs only where the source has a node
    without operator that has inputs. *)
Lemma copied_variables_are_leaves h s h' old_new :
  closed h → heads_in h s → copied h s h' old_new →
  (∀ p n, reachable h s p → h !! p = Some n → op n = None →
     inputs n = []) →
  variables_are_leaves h'
    (mkSymbol (rename_entry (renaming old_new) <$> heads_ s)).
Proof.
  intros Hcl Hin Hc Hsrc q m Hq Hm Hv.
  apply (copied_reachable h s h' old_new q Hcl Hin Hc) in Hq
    as (p & Hp & ->).
  destruct (copied_node h s h' old_new p Hcl Hin Hc Hp)
    as (n & Hn & _ & _ & Hcopy).
  assert (m = copy_node (renaming old_new) n) as -> by congruence.
  unfold node_is_variable in Hv. simpl in *.
  destruct (op n) eqn:Hop; [done|].
  by rewrite (Hsrc p n Hp Hn Hop).
Qed.

(** X19.  [operator()] never changes the symbol it is called on.  On a
    closed heap where no node that the symbol reaches lacks an operator and
    has inputs, with arguments that are symbols of the heap and have a head,
    both overloads return or fail a check of their [Compose], which runs on
    a copy: in either case every node that was in the heap before the call
    is as it was, and [ListArguments()] and [ListReturns()] of the called
    symbol are what they were. *)
Theorem Apply_leaves_callee h s args kwargs nm :
  closed h → heads_in h s →
  (∀ p n, reachable h s p → h !! p = Some n → op n = None →
     inputs n = []) →
  Forall (λ a, heads_in h a ∧ heads_ a ≠ []) args →
  Forall (λ kv, heads_in h kv.2) kwargs →
  (∃ h2 s2 o, Apply h s args nm = Some (h2, s2, o) ∧ o ≠ Undefined ∧
     h ⊆ h2 ∧
     ListArguments h2 s = ListArguments h s ∧
     ListReturns h2 s = ListReturns h s) ∧
  (∃ h2 s2 o, Apply_kwargs h s kwargs nm = Some (h2, s2, o) ∧
     o ≠ Undefined ∧ h ⊆ h2 ∧
     ListArguments h2 s = ListArguments h s ∧
     ListReturns h2 s = ListReturns h s).
Proof.
  intros Hcl Hin Hsrc Hargs Hkwargs.
  destruct (Copy_spec h s Hcl Hin) as (h' & tr & old_new & Htr & Hcopy & Hc).
  set (s' := mkSymbol (rename_entry (renaming old_new) <$> heads_ s)) in *.
  assert (h ⊆ h') as Hsub' by apply Hc.
  assert (closed h') as Hcl' by (by eapply copied_closed).
  assert (heads_in h' s') as Hin'
    by (by apply (copied_heads_in h s h' old_new)).
  assert (variables_are_leaves h' s') as Hleaf'
    by (by apply (copied_variables_are_leaves h s h' old_new)).
  assert (∀ a, heads_in h a → heads_in h' a) as Hlive.
  { intros a Ha e He. destruct (Ha e He) as [n Hn]. exists n.
    by eapply lookup_weaken. }
  assert (∀ r n, h !! r = Some n → h' !! r = Some n ∧ ¬ reachable h' s' r)
    as Hold.
  { intros r n Hr. split; [by eapply lookup_weaken|].
    intros Hreach.
    apply (copied_reachable h s h' old_new r Hcl Hin Hc) in Hreach
      as (p & Hp & ->).
    destruct (copied_node h s h' old_new p Hcl Hin Hc Hp)
      as (_ & _ & _ & Hf & _).
    congruence. }
  assert (∀ h2, h ⊆ h2 →
            ListArguments h2 s = ListArguments h s ∧
            ListReturns h2 s = ListReturns h s) as Hlists.
  { intros h2 Hsub. split; [|by apply ListReturns_subseteq].
    by destruct (ListArguments_subseteq h h2 s tr Hsub Htr). }
  split.
  - unfold Apply. rewrite Hcopy. simpl.
    assert ((Compose h' s' args nm).2 ≠ Undefined) as Hdef.
    { apply Compose_defined; [done..|].
      eapply Forall_impl; [exact Hargs|]. intros a [Ha ?]. split; [|done].
      by apply Hlive. }
    destruct (Compose h' s' args nm) as [h2 o] eqn:Hcomp.
    assert (h ⊆ h2) as Hsub.
    { apply map_subseteq_spec. intros r n Hr.
      destruct (Hold r n Hr) as [Hr' Hunreach].
      pose proof (Compose_frame h' s' args nm r n Hr' Hunreach) as Hf.
      by rewrite Hcomp in Hf. }
    exists h2, s', o. split_and!; [done|done|done|by apply Hlists..].
  - unfold Apply_kwargs. rewrite Hcopy. simpl.
    assert ((Compose_kwargs h' s' kwargs nm).2 ≠ Undefined) as Hdef.
    { apply Compose_kwargs_defined; [done..|].
      eapply Forall_impl; [exact Hkwargs|]. intros kv Hkv. by apply Hlive. }
    destruct (Compose_kwargs h' s' kwargs nm) as [h2 o] eqn:Hcomp.
    assert (h ⊆ h2) as Hsub.
    { apply map_subseteq_spec. intros r n Hr.
      destruct (Hold r n Hr) as [Hr' Hunreach].
      pose proof (Compose_kwargs_frame h' s' kwargs nm r n Hr' Hunreach)
        as Hf.
      by rewrite Hcomp in Hf. }
    exists h2, s', o. split_and!; [done|done|done|by apply Hlists..].
Qed.

Lemma Apply_leaves_callee_witness :
  let fc := mkOp "FullyConnected" ["data"; "weight"] ["output"] 1 in
  let h0 := (Create ∅ fc).1 in
  let s := (Create ∅ fc).2 in
  let h1 := (CreateVariable h0 "x").1 in
  let x := (CreateVariable h0 "x").2 in
  ∃ h2 s2, Apply_kwargs h1 s [("data"%string, x)] "fc" = Some (h2, s2, Done) ∧
    h1 ⊆ h2 ∧
    ListArguments h2 s = Some ["data"; "weight"]%string ∧
    ListArguments h2 s2 = Some ["x"; "fc_weight"]%string.
Proof.
  intros fc h0 s h1 x.
  destruct (Apply_leaves_callee h1 s [] [("data"%string, x)] "fc")
    as [_ (h2 & s2 & o & Ha & _ & Hsub & Hargs & _)].
  - apply closedb_closed. vm_compute. reflexivity.
  - apply heads_inb_heads_in. vm_compute. reflexivity.
  - intros p n _ Hp _.
    assert (map_Forall (λ _ n, inputs n = []) h1) as Hall
      by (apply (bool_decide_eq_true_1
                   (map_Forall (λ _ n, inputs n = []) h1));
          vm_compute; reflexivity).
    exact (Hall p n Hp).
  - constructor.
  - repeat constructor. apply heads_inb_heads_in. vm_compute. reflexivity.
  - exists h2, s2.
    assert (o = Done) as -> by (vm_compute in Ha; by injection Ha as _ _ <-).
    split_and!; [exact Ha|exact Hsub|rewrite Hargs; vm_compute; reflexivity|].
    vm_compute in Ha. injection Ha as <- <-. vm_compute. reflexivity.
Defined.
